(** * nix-upload: the photo preparation pipeline of [nix-upload.py]

    A shallow embedding of [get_image_files], [image_resize_and_add_caption],
    [_get_gps_coordinates], [_convert_to_degrees], [_get_location_name] and
    [display_progress_bar], with the properties the specification states
    about them.

    Python values are modelled as follows.
    - [int] is [Z]; [float] is a rational that is always the result of
      [Float64.round64] (IEEE-754 binary64, round to nearest, ties to even).
    - Calls that leave the program (Pillow, the file system, the clock, the
      geocoder, [strptime]/[strftime]) are answered by the fields of the
      [photo] and [env] records: each field is what that call returns, or
      the exception it raises, for that photo.
    - An exception is [Raise e]; [try]/[except] is a match on the result. *)

From Stdlib Require Import ZArith QArith Qround Qabs Qpower Lqa Lia.
From Stdlib Require Import String Ascii List DecimalString.
From Stdlib Require Uint63 Floats.
From stdpp Require Import gmap strings list.

Open Scope Z_scope.

(** ** Exceptions *)

(** The exceptions the pipeline can meet, by class. *)
Inductive exn : Type :=
  | ZeroDivisionError
  | IndexError
  | ValueError
  | TypeError
  | AttributeError
  | OSError
  | ImportError
  | GeocoderTimedOut
  | GeocoderUnavailable
  | RequestException
  | RuntimeError.

(** A call either returns a value or raises. *)
Inductive result (A : Type) : Type :=
  | Ok (a : A)
  | Raise (e : exn).
Arguments Ok {A} a.
Arguments Raise {A} e.

(** Sequencing: the first exception raised ends the computation.  The
    notation [x ← r; k] below is this bind. *)
#[global] Instance result_bind : MBind result := fun A B k r =>
  match r with
  | Ok a => k a
  | Raise e => Raise e
  end.

#[global] Instance result_ret : MRet result := fun A a => Ok a.

(** ** Binary64 arithmetic *)

Module Float64.
Local Open Scope Q_scope.

(** A Python [float].  Infinities, NaN and the sign of zero are not
    represented, and the exponent is unbounded: every value met below lies
    far inside the normal range of binary64. *)
Definition float := Q.

(** Python's [round(x)] for a float [x]: nearest integer, ties to even. *)
Definition round_half_even (x : Q) : Z :=
  let q := Qfloor x in
  match Qcompare (x - inject_Z q) (1 # 2) with
  | Lt => q
  | Gt => (q + 1)%Z
  | Eq => if Z.even q then q else (q + 1)%Z
  end.

Definition pow2 (e : Z) : Q := 2 ^ e.

(** The exponent [e] of the unit in the last place of [x > 0]:
    [2^(e+52) <= x < 2^(e+53)]. *)
Definition binade (x : Q) : Z :=
  let e0 := (Z.log2 (Qnum x) - Z.log2 (Zpos (Qden x)) - 53)%Z in
  if Qle_bool (pow2 (e0 + 53)) x then (e0 + 1)%Z else e0.

Definition round_pos (x : Q) : Q :=
  let e := binade x in
  inject_Z (round_half_even (x / pow2 e)) * pow2 e.

(** Rounding of a real result to the nearest binary64 number. *)
Definition round64 (x : Q) : float :=
  match Qnum x with
  | Z0 => 0
  | Zpos _ => Qred (round_pos x)
  | Zneg _ => Qred (- round_pos (- x))
  end.

(** The unit roundoff [2^-53]. *)
Definition u : Q := 1 # 9007199254740992.

(** [float(n)] for an [int] *)
Definition of_int (n : Z) : float := round64 (inject_Z n).

(** The float literal [n/d], as Python reads e.g. [0.1] or [1.2]. *)
Definition literal (n : Z) (d : positive) : float := round64 (n # d).

Definition fadd (x y : float) : float := round64 (x + y).
Definition fsub (x y : float) : float := round64 (x - y).
Definition fmul (x y : float) : float := round64 (x * y).
Definition fopp (x : float) : float := - x.

(** [x / y] on floats. *)
Definition fdiv (x y : float) : result float :=
  if Qeq_bool y 0 then Raise ZeroDivisionError else Ok (round64 (x / y)).

(** [a / b] on ints (true division): the correctly rounded quotient. *)
Definition truediv (a b : Z) : result float :=
  if (b =? 0)%Z then Raise ZeroDivisionError
  else Ok (round64 (inject_Z a / inject_Z b)).

(** [int(x)]: truncation toward zero. *)
Definition trunc (x : float) : Z := Z.quot (Qnum x) (Zpos (Qden x)).

Definition gtb (x y : float) : bool := negb (Qle_bool x y).

End Float64.

(** ** The kernel's binary64 numbers, to compare [round64] with *)

Module KernelFloat.

(** The exact value of a finite binary64 number. *)
Definition exact_value (f : PrimFloat.float) : option Q :=
  match FloatOps.Prim2SF f with
  | SpecFloat.S754_zero _ => Some 0%Q
  | SpecFloat.S754_finite s m e =>
      Some (Qred ((if s then -1 else 1) * inject_Z (Zpos m) * Float64.pow2 e)%Q)
  | _ => None
  end.

Definition of_int (n : Z) : PrimFloat.float :=
  PrimFloat.of_uint63 (Uint63.of_Z n).

(** [n / d] in binary64, e.g. the literal [0.1] as [1 / 10]. *)
Definition ratio (n d : Z) : PrimFloat.float :=
  PrimFloat.div (of_int n) (of_int d).

End KernelFloat.

(** ** Transformer: the geometry of the resize *)

Module Transformer.
Import Float64.

(** The dimension computation of [image_resize_and_add_caption]
    (the lines before [img.resize]).  [Raise ZeroDivisionError] when a
    divisor is zero. *)
Definition resize_dims (img_width img_height target_width target_height : Z)
  : result (Z * Z) :=
  aspect_ratio ← truediv img_width img_height;
  width_ratio ← truediv img_width target_width;
  height_ratio ← truediv img_height target_height;
  if gtb width_ratio height_ratio then
    (* Width is the limiting factor *)
    let new_width := target_width in
    q ← fdiv (of_int new_width) aspect_ratio;
    Ok (new_width, trunc q)
  else
    (* Height is the limiting factor *)
    let new_height := target_height in
    Ok (trunc (fmul (of_int new_height) aspect_ratio), new_height).

(** The computation as the specification words it: the derived
    dimension is rounded to the nearest integer. *)
Definition spec_resize_dims
  (imageWidth imageHeight targetWidth targetHeight : Z) : result (Z * Z) :=
  aspectRatio ← truediv imageWidth imageHeight;
  widthRatio ← truediv imageWidth targetWidth;
  heightRatio ← truediv imageHeight targetHeight;
  if gtb widthRatio heightRatio then
    let newWidth := targetWidth in
    q ← fdiv (of_int newWidth) aspectRatio;
    Ok (newWidth, round_half_even q)
  else
    let newHeight := targetHeight in
    Ok (round_half_even (fmul (of_int newHeight) aspectRatio), newHeight).

(** The specification's invariant on the final dimensions: exactly one of
    the two equals its target. *)
Definition exactly_one_binds (tw th nw nh : Z) : Prop :=
  (nw = tw /\ nh <> th) \/ (nw <> tw /\ nh = th).

(** Sizes for which the rounding analysis below is carried out: sources
    up to 2^28 pixels a side, targets up to 2^22. *)
Definition source_dim (z : Z) : Prop := 0 < z < 2 ^ 28.
Definition target_dim (z : Z) : Prop := 0 < z < 2 ^ 22.

End Transformer.

(** ** Paths and file names *)

Module Paths.
Local Open Scope string_scope.

Definition is_sep (c : ascii) : bool := Ascii.eqb c "/".

Fixpoint has_sep (s : string) : bool :=
  match s with
  | EmptyString => false
  | String c r => is_sep c || has_sep r
  end.

(** [os.path.basename p] (POSIX): what follows the last separator. *)
Fixpoint basename (p : string) : string :=
  match p with
  | EmptyString => EmptyString
  | String c r =>
      if has_sep r then basename r else if is_sep c then r else p
  end.

Definition starts_with_sep (s : string) : bool :=
  match s with
  | String c _ => is_sep c
  | EmptyString => false
  end.

Fixpoint ends_with_sep (s : string) : bool :=
  match s with
  | EmptyString => false
  | String c EmptyString => is_sep c
  | String _ r => ends_with_sep r
  end.

(** [os.path.join(a, b)] (POSIX). *)
Definition join (a b : string) : string :=
  if starts_with_sep b then b
  else if String.eqb a "" || ends_with_sep a then a +:+ b
  else a +:+ "/" +:+ b.

(** [c.lower()] on ASCII. *)
Definition lower_char (c : ascii) : ascii :=
  let n := nat_of_ascii c in
  if (65 <=? n)%nat && (n <=? 90)%nat then ascii_of_nat (n + 32) else c.

Fixpoint lower (s : string) : string :=
  match s with
  | EmptyString => EmptyString
  | String c r => String (lower_char c) (lower r)
  end.

(** [s.endswith(suffix)] *)
Definition endswith (s suffix : string) : bool :=
  let n := String.length s in
  let m := String.length suffix in
  (m <=? n)%nat && String.eqb (substring (n - m) m s) suffix.

(** [s.split(',')[0]] *)
Fixpoint first_segment (s : string) : string :=
  match s with
  | EmptyString => EmptyString
  | String c r => if Ascii.eqb c "," then EmptyString
                  else String c (first_segment r)
  end.

End Paths.

(** ** Images, overlays and the files written *)

Module Imaging.
Import Float64.

Definition rgb : Type := Z * Z * Z.

(** The pixels of an RGB image, row by row from the top. *)
Definition grid : Type := list (list rgb).

(** [img.crop((left, upper, right, lower))] for a box inside the image. *)
Definition crop (box : Z * Z * Z * Z) (img : grid) : grid :=
  let '(x0, upper, x1, lower) := box in
  (fun row => take (Z.to_nat (x1 - x0)) (drop (Z.to_nat x0) row))
    <$> take (Z.to_nat (lower - upper)) (drop (Z.to_nat upper) img).

Inductive font : Type :=
  | TrueType (file : string) (size : Z)
  | DefaultFont.

(** One call [draw.text((x, y), text, font=font, fill=fill)]. *)
Record draw_call : Type := {
  dc_x : Z;
  dc_y : float;
  dc_text : string;
  dc_font : font;
  dc_fill : rgb
}.

(** What [resized_img.save] leaves at the output path. *)
Record image_file : Type := {
  file_width : Z;
  file_height : Z;
  file_overlay : list draw_call;
  file_quality : option Z;
  file_bytes : Z
}.

End Imaging.

(** ** Log records *)

Inductive level : Type := DEBUG | INFO | WARNING | ERROR.

Inductive log_record : Type :=
  | RandomlySelected (n : nat)
  | SelectedAll (n : nat)
  | ResizingFilesIn (temp_dir : string)
  | Resized (accepted selected : nat)
  | ErrorGettingImageFiles (e : exn)
  | FailedToExtractGps (e : exn)
  | GeocodingTimedOut (e : exn)
  | GeocodingUnavailable (e : exn)
  | NetworkRequestFailed (e : exn)
  | FailedToGetLocationName (e : exn)
  | SkippingTooLarge (img_filename : string) (bytes : Z)
  | ErrorProcessingImage (image_path : string) (e : exn).

Definition level_of (r : log_record) : level :=
  match r with
  | RandomlySelected _ | SelectedAll _ | ResizingFilesIn _ => INFO
  | Resized _ _ | FailedToExtractGps _ | SkippingTooLarge _ _ => DEBUG
  | ErrorGettingImageFiles _ => ERROR
  | GeocodingTimedOut _ | GeocodingUnavailable _ | NetworkRequestFailed _
  | FailedToGetLocationName _ | ErrorProcessingImage _ _ => WARNING
  end.

(** ** The world outside the program *)

Module World.
Import Float64 Imaging.

(** A parsed timestamp ([datetime]), as seconds since the epoch. *)
Definition datetime : Type := Z.

(** A value of the GPS directory: ASCII text or a tuple of rationals. *)
Inductive gps_value : Type :=
  | GpsText (s : string)
  | GpsRationals (l : list Q).

(** A value of the EXIF dictionary returned by [img._getexif()]. *)
Inductive exif_value : Type :=
  | ExifText (s : string)
  | ExifIFD (d : list (Z * gps_value))
  | ExifOther.

(** A [dict], as its items in iteration order. *)
Definition exif_dict : Type := list (Z * exif_value).

(** What [geolocator.reverse] does. *)
Inductive geocode_reply : Type :=
  | GeoRaises (e : exn)
  | GeoNone
  | GeoLocation (address : list (string * string)) (display : string).

(** One candidate file and what Pillow and the file system answer for it. *)
Record photo : Type := {
  image_path : string;
  (** [Image.open(image_path)] and [img.size] *)
  pil_open : result (Z * Z);
  (** [img.resize((w, h), LANCZOS)], converted to RGB *)
  pil_resize : Z -> Z -> result grid;
  (** [img._getexif()] *)
  getexif : result (option exif_dict);
  (** [datetime.fromtimestamp(os.path.getmtime(image_path))] *)
  getmtime : result datetime;
  (** [resized_img.save(output_path, ...)] and then
      [os.path.getsize(output_path)]: the length of the encoding *)
  saved_bytes : result Z
}.

(** The libraries and services the pipeline calls. *)
Record env : Type := {
  (** [datetime.strptime(s, "%Y:%m:%d %H:%M:%S")] *)
  strptime : string -> result datetime;
  (** [date_obj.strftime(date_format)] *)
  strftime : datetime -> string -> result string;
  (** [os.path.exists] *)
  path_exists : string -> bool;
  (** [ImageFont.truetype(file, size)] *)
  truetype : string -> Z -> result unit;
  (** [region.resize((1, 1)).getpixel((0, 0))] *)
  pixel_average : grid -> result rgb;
  (** the imports of [geopy] and [requests] and the [Nominatim] constructor *)
  import_geopy : result unit;
  (** [geolocator.reverse(coordinates, language='en')] *)
  reverse : float * float -> geocode_reply;
  (** [tempfile.mkdtemp(prefix="nix_upload_temp_")] *)
  mkdtemp : string;
  (** the successive readings of [time.time()] *)
  now : nat -> float
}.

End World.

(** ** MetadataResolver *)

Module Metadata.
Import Float64 Paths World.
Local Open Scope string_scope.
Local Open Scope list_scope.
Local Open Scope Z_scope.

(** Tag numbers of [PIL.ExifTags]: [TAGS] and [GPSTAGS]. *)
Definition DateTimeOriginal : Z := 36867.
Definition GPSInfo : Z := 34853.
Definition GPSLatitudeRef : Z := 1.
Definition GPSLatitude : Z := 2.
Definition GPSLongitudeRef : Z := 3.
Definition GPSLongitude : Z := 4.

(** [d.get(key)] / [key in d] *)
Fixpoint dict_get {K V : Type} (eqb : K -> K -> bool) (key : K)
  (d : list (K * V)) : option V :=
  match d with
  | [] => None
  | (k, v) :: rest => if eqb k key then Some v else dict_get eqb key rest
  end.

Definition is_digit (c : ascii) : bool :=
  let n := nat_of_ascii c in (48 <=? n)%nat && (n <=? 57)%nat.

(** [float(value[i])] *)
Definition float_item (value : gps_value) (i : nat) : result float :=
  match value with
  | GpsRationals l =>
      match l !! i with
      | Some q => Ok (round64 q)
      | None => Raise IndexError
      end
  | GpsText s =>
      match String.get i s with
      | Some c =>
          if is_digit c then Ok (of_int (Z.of_nat (nat_of_ascii c) - 48))
          else Raise ValueError
      | None => Raise IndexError
      end
  end.

Definition _convert_to_degrees (value : gps_value) : result float :=
  d ← float_item value 0;
  m ← float_item value 1;
  s ← float_item value 2;
  Ok (fadd (fadd d (round64 (m / 60))) (round64 (s / 3600))).

(** The four local variables of [_get_gps_coordinates]. *)
Record gps_tags : Type := {
  gps_lat : option gps_value;
  gps_lat_ref : option gps_value;
  gps_lon : option gps_value;
  gps_lon_ref : option gps_value
}.

Definition no_gps_tags : gps_tags :=
  {| gps_lat := None; gps_lat_ref := None;
     gps_lon := None; gps_lon_ref := None |}.

(** The body of [for key in data.keys()]. *)
Definition scan_gps_entry (t : gps_tags) (kv : Z * gps_value) : gps_tags :=
  let '(key, v) := kv in
  if Z.eqb key GPSLatitude then
    {| gps_lat := Some v; gps_lat_ref := gps_lat_ref t;
       gps_lon := gps_lon t; gps_lon_ref := gps_lon_ref t |}
  else if Z.eqb key GPSLatitudeRef then
    {| gps_lat := gps_lat t; gps_lat_ref := Some v;
       gps_lon := gps_lon t; gps_lon_ref := gps_lon_ref t |}
  else if Z.eqb key GPSLongitude then
    {| gps_lat := gps_lat t; gps_lat_ref := gps_lat_ref t;
       gps_lon := Some v; gps_lon_ref := gps_lon_ref t |}
  else if Z.eqb key GPSLongitudeRef then
    {| gps_lat := gps_lat t; gps_lat_ref := gps_lat_ref t;
       gps_lon := gps_lon t; gps_lon_ref := Some v |}
  else t.

(** The body of [for tag_id in exif]; [data.keys()] raises when the
    GPSInfo entry is not a directory. *)
Definition scan_exif_entry (t : gps_tags) (kv : Z * exif_value)
  : result gps_tags :=
  let '(tag_id, data) := kv in
  if Z.eqb tag_id GPSInfo then
    match data with
    | ExifIFD d => Ok (fold_left scan_gps_entry d t)
    | _ => Raise AttributeError
    end
  else Ok t.

Fixpoint scan_exif (exif : exif_dict) (t : gps_tags) : result gps_tags :=
  match exif with
  | [] => Ok t
  | kv :: rest => t' ← scan_exif_entry t kv; scan_exif rest t'
  end.

(** Truth value of a tag variable in [if gps_lat and gps_lon]. *)
Definition truthy (v : option gps_value) : bool :=
  match v with
  | None => false
  | Some (GpsText s) => negb (String.eqb s "")
  | Some (GpsRationals l) => negb (bool_decide (l = []))
  end.

(** [ref != s] *)
Definition ref_differs (ref : option gps_value) (s : string) : bool :=
  match ref with
  | Some (GpsText t) => negb (String.eqb t s)
  | _ => true
  end.

Definition gps_body (img : photo) : result (option (float * float)) :=
  exif ← getexif img;
  match exif with
  | None | Some [] => Ok None
  | Some exif =>
      t ← scan_exif exif no_gps_tags;
      match gps_lat t, gps_lon t with
      | Some vlat, Some vlon =>
          if truthy (gps_lat t) && truthy (gps_lon t) then
            lat ← _convert_to_degrees vlat;
            lon ← _convert_to_degrees vlon;
            let lat := if ref_differs (gps_lat_ref t) "N" then fopp lat
                       else lat in
            let lon := if ref_differs (gps_lon_ref t) "E" then fopp lon
                       else lon in
            Ok (Some (lat, lon))
          else Ok None
      | _, _ => Ok None
      end
  end.

(** [_get_gps_coordinates(img)], with the records it logs. *)
Definition _get_gps_coordinates (img : photo)
  : option (float * float) * list log_record :=
  match gps_body img with
  | Ok r => (r, [])
  | Raise e => (None, [FailedToExtractGps e])
  end.

(** The four decimal digits of [n < 10000]. *)
Definition four_digits (n : Z) : string :=
  let d (k : Z) := ascii_of_nat (48 + Z.to_nat ((n / k) mod 10)) in
  String (d 1000) (String (d 100) (String (d 10) (String (d 1) ""))).

(** [f"{x:.4f}"]: the exact value of [x] rounded to four decimals, ties to
    even. *)
Definition format_4f (x : float) : string :=
  let n := round_half_even (Qabs x * 10000) in
  (if Qle_bool 0 x then "" else "-")
  +:+ NilZero.string_of_uint (N.to_uint (Z.to_N (n / 10000)))
  +:+ "." +:+ four_digits (n mod 10000).

(** [f"{lat:.4f}, {lon:.4f}"] *)
Definition coordinates_text (coordinates : float * float) : string :=
  let '(lat, lon) := coordinates in
  format_4f lat +:+ ", " +:+ format_4f lon.

(** [a or b] on optional strings *)
Definition str_or (a b : option string) : option string :=
  match a with
  | Some s => if String.eqb s "" then b else a
  | None => b
  end.

Definition str_truthy (a : option string) : bool :=
  match a with
  | Some s => negb (String.eqb s "")
  | None => false
  end.

(** [_get_location_name(coordinates)], with the records it logs. *)
Definition _get_location_name (e : env) (coordinates : float * float)
  : option string * list log_record :=
  match import_geopy e with
  | Raise x => (Some (coordinates_text coordinates),
                [FailedToGetLocationName x])
  | Ok _ =>
      match reverse e coordinates with
      | GeoRaises GeocoderTimedOut =>
          (Some (coordinates_text coordinates),
           [GeocodingTimedOut GeocoderTimedOut])
      | GeoRaises GeocoderUnavailable =>
          (Some (coordinates_text coordinates),
           [GeocodingUnavailable GeocoderUnavailable])
      | GeoRaises RequestException =>
          (Some (coordinates_text coordinates),
           [NetworkRequestFailed RequestException])
      | GeoRaises x =>
          (Some (coordinates_text coordinates), [FailedToGetLocationName x])
      | GeoNone => (None, [])
      | GeoLocation [] _ => (None, [])
      | GeoLocation address display =>
          let city :=
            str_or (dict_get String.eqb "city" address)
              (str_or (dict_get String.eqb "town" address)
                      (dict_get String.eqb "village" address)) in
          if str_truthy city then (city, [])
          else (Some (first_segment display), [])
      end
  end.

(** The capture time shown in the caption: the [try]/[except] around
    the EXIF lookup, with the file's modification time as fallback. *)
Definition capture_time (e : env) (img : photo) : result datetime :=
  let from_exif : result (option datetime) :=
    exif ← getexif img;
    match exif with
    | None | Some [] => Ok None
    | Some exif =>
        match dict_get Z.eqb DateTimeOriginal exif with
        | Some (ExifText date_str) =>
            date_obj ← strptime e date_str; Ok (Some date_obj)
        | Some _ => Raise TypeError
        | None => Ok None
        end
    end in
  match from_exif with
  | Ok (Some date_obj) => Ok date_obj
  | Ok None => getmtime img
  | Raise _ => getmtime img
  end.

End Metadata.

(** ** CaptionEngine *)

Module Caption.
Import Float64 Paths Imaging World Metadata.
Local Open Scope string_scope.
Local Open Scope list_scope.
Local Open Scope Z_scope.

Definition black : rgb := (0, 0, 0).
Definition white : rgb := (255, 255, 255).

Definition rgb_eqb (a b : rgb) : bool :=
  let '(r1, g1, b1) := a in
  let '(r2, g2, b2) := b in
  Z.eqb r1 r2 && Z.eqb g1 g2 && Z.eqb b1 b2.

(** [int(new_height * 0.1)] *)
Definition sample_height (new_height : Z) : Z :=
  trunc (fmul (of_int new_height) (literal 1 10)).

(** [resized_img.crop((0, new_height - sample_height, new_width,
    new_height))] *)
Definition sample_region (resized_img : grid) (new_width new_height : Z)
  : grid :=
  crop (0, new_height - sample_height new_height, new_width, new_height)
       resized_img.

(** [(0.299 * r + 0.587 * g + 0.114 * b) / 255] *)
Definition luminance (avg_color : rgb) : float :=
  let '(r, g, b) := avg_color in
  round64
    (fadd (fadd (fmul (literal 299 1000) (of_int r))
                (fmul (literal 587 1000) (of_int g)))
          (fmul (literal 114 1000) (of_int b))
     / of_int 255).

Definition text_color_for (avg_color : rgb) : rgb :=
  if gtb (luminance avg_color) (literal 1 2) then black else white.

Definition outline_color_for (text_color : rgb) : rgb :=
  if rgb_eqb text_color white then black else white.

(** Font resolution: the configured file, then [arial.ttf], then the
    built-in font. *)
Definition load_font (e : env) (font_path : option string) (font_size : Z)
  : result font :=
  let system_font :=
    match truetype e "arial.ttf" font_size with
    | Ok _ => Ok (TrueType "arial.ttf" font_size)
    | Raise _ => Ok DefaultFont
    end in
  match font_path with
  | Some fp =>
      if negb (String.eqb fp "") && path_exists e fp then
        _ ← truetype e fp font_size; Ok (TrueType fp font_size)
      else system_font
  | None => system_font
  end.

Definition caption_x_offset : Z := 100.
Definition caption_y_offset : Z := 100.
Definition outline_width : Z := 2.

(** [range(-outline_width, outline_width + 1)] *)
Definition outline_offsets : list Z := [-2; -1; 0; 1; 2].

(** [i * font_size * 1.2] *)
Definition line_step (i : nat) (font_size : Z) : float :=
  fmul (of_int (Z.of_nat i * font_size)) (literal 12 10).

(** The [draw.text] calls for line [i]: the outline, then the text. *)
Definition draw_line (fnt : font) (font_size : Z) (y_position : float)
  (text_color outline_color : rgb) (i : nat) (line : string)
  : list draw_call :=
  let y := fadd y_position (line_step i font_size) in
  flat_map (fun dx =>
    (fun dy => {| dc_x := caption_x_offset + dx;
                  dc_y := fadd y (of_int dy);
                  dc_text := line; dc_font := fnt;
                  dc_fill := outline_color |}) <$> outline_offsets)
    outline_offsets
  ++ [ {| dc_x := caption_x_offset; dc_y := y; dc_text := line;
          dc_font := fnt; dc_fill := text_color |} ].

(** What the caption block computes. *)
Record caption : Type := {
  avg_color : rgb;
  text_color : rgb;
  outline_color : rgb;
  text_lines : list string;
  y_position : float;
  draws : list draw_call
}.

(** The block under [if caption:]. *)
Definition add_caption (e : env) (img : photo) (resized_img : grid)
  (new_width new_height : Z) (date_format caption_position : string)
  (font_size : Z) (font_path : option string)
  : result (caption * list log_record) :=
  avg ← pixel_average e (sample_region resized_img new_width new_height);
  let text_color := text_color_for avg in
  fnt ← load_font e font_path font_size;
  date_obj ← capture_time e img;
  date_text ← strftime e date_obj date_format;
  let '(coordinates, log1) := _get_gps_coordinates img in
  let '(location_text, log2) :=
    match coordinates with
    | Some c => _get_location_name e c
    | None => (None, [])
    end in
  let text_lines :=
    match location_text with
    | Some l => if String.eqb l "" then [date_text] else [date_text; l]
    | None => [date_text]
    end in
  let y_position :=
    if String.eqb caption_position "bottom" then
      fsub (fsub (of_int new_height)
                 (line_step (length text_lines) font_size))
           (of_int caption_y_offset)
    else of_int caption_y_offset in
  let outline_color := outline_color_for text_color in
  Ok ({| avg_color := avg; text_color := text_color;
         outline_color := outline_color; text_lines := text_lines;
         y_position := y_position;
         draws := mjoin (imap (draw_line fnt font_size y_position
                                text_color outline_color) text_lines) |},
      log1 ++ log2).






End Caption.

(** ** SizeBudgetEnforcer, Selector and Orchestrator *)

Module Pipeline.
Import Float64 Paths Imaging World Metadata Caption Transformer.
Local Open Scope string_scope.
Local Open Scope list_scope.
Local Open Scope Z_scope.

(** The keyword arguments shared by [get_image_files] and
    [image_resize_and_add_caption]. *)
Record options : Type := {
  date_format : string;
  caption_position : string;
  font_size : Z;
  font_path : option string;
  caption : bool
}.

(** One line printed by [display_progress_bar]. *)
Record progress_line : Type := {
  bar_prefix : string;
  bar_dots : Z;
  bar_spaces : Z;
  bar_current : Z;
  bar_total : Z;
  bar_elapsed : Z;
  bar_timeout : option Z;
  bar_suffix : string
}.

(** The temporary directory, the log and the console. *)
Record state : Type := {
  fs : gmap string image_file;
  log : list log_record;
  stdout : list progress_line
}.

Definition initial : state := {| fs := ∅; log := []; stdout := [] |}.

Definition logger (st : state) (records : list log_record) : state :=
  {| fs := fs st; log := log st ++ records; stdout := stdout st |}.

Definition write_file (st : state) (path : string) (f : image_file) : state :=
  {| fs := <[path := f]> (fs st); log := log st; stdout := stdout st |}.

Definition remove_file (st : state) (path : string) : state :=
  {| fs := delete path (fs st); log := log st; stdout := stdout st |}.

Definition print (st : state) (line : progress_line) : state :=
  {| fs := fs st; log := log st; stdout := stdout st ++ [line] |}.

(** [display_progress_bar(prefix, start_time, timeout, current, total,
    suffix, bar_width)], reading the clock at [time_now]. *)
Definition display_progress_bar (prefix : string) (start_time : float)
  (timeout current total : Z) (suffix : string) (bar_width : Z)
  (time_now : float) : result progress_line :=
  let current := Z.max 0 current in
  ratio ← truediv current total;
  let progress_ratio := if gtb ratio 1%Q then 1%Q else ratio in
  let dots := trunc (fmul progress_ratio (of_int bar_width)) in
  let spaces := bar_width - dots in
  Ok {| bar_prefix := prefix; bar_dots := dots; bar_spaces := spaces;
        bar_current := current; bar_total := total;
        bar_elapsed := round_half_even (fsub time_now start_time);
        bar_timeout := if timeout <=? 0 then None else Some timeout;
        bar_suffix := suffix |}.

(** What the progress sink is told by one line. *)
Definition reported (line : progress_line) : Z * Z * Z :=
  (bar_current line, bar_total line, bar_elapsed line).

(** [quality=80] for JPEG names, the encoder's default otherwise. *)
Definition save_quality (img_filename : string) : option Z :=
  if endswith (lower img_filename) ".jpg"
     || endswith (lower img_filename) ".jpeg"
  then Some 80 else None.

(** The statements of [image_resize_and_add_caption] up to the
    computation of the output path. *)
Definition render (e : env) (img : photo) (target_width target_height : Z)
  (o : options) : result (Z * Z * list draw_call * list log_record) :=
  '(img_width, img_height) ← pil_open img;
  '(new_width, new_height) ←
    resize_dims img_width img_height target_width target_height;
  resized_img ← pil_resize img new_width new_height;
  if caption o then
    '(cap, records) ←
      add_caption e img resized_img new_width new_height (date_format o)
        (caption_position o) (font_size o) (font_path o);
    Ok (new_width, new_height, draws cap, records)
  else Ok (new_width, new_height, [], []).

Definition output_path_of (temp_dir : string) (img : photo) : string :=
  join temp_dir (basename (image_path img)).

Definition image_resize_and_add_caption (e : env) (img : photo)
  (temp_dir : string) (target_width target_height max_file_size : Z)
  (o : options) (st : state) : option string * state :=
  match render e img target_width target_height o with
  | Raise x => (None, logger st [ErrorProcessingImage (image_path img) x])
  | Ok (new_width, new_height, overlay, records) =>
      let st := logger st records in
      let img_filename := basename (image_path img) in
      let output_path := join temp_dir img_filename in
      match saved_bytes img with
      | Raise x =>
          (None, logger st [ErrorProcessingImage (image_path img) x])
      | Ok bytes =>
          let st :=
            write_file st output_path
              {| file_width := new_width; file_height := new_height;
                 file_overlay := overlay;
                 file_quality := save_quality img_filename;
                 file_bytes := bytes |} in
          if bytes >? max_file_size then
            (None, remove_file (logger st [SkippingTooLarge img_filename bytes])
                               output_path)
          else (Some output_path, st)
      end
  end.

(** [random.sample], by partial shuffle: draw [i] picks a slot among the
    [n - i] live ones, and the last live element moves into the vacancy.
    [draws] are the numbers the random source produces. *)
Fixpoint sample_from {A : Type} (pool : list A) (k : nat) (draws : list nat)
  : list A :=
  match k with
  | O => []
  | S k' =>
      let n := length pool in
      let j := (hd O draws mod n)%nat in
      match pool !! j, pool !! (n - 1)%nat with
      | Some x, Some y =>
          x :: sample_from (take (n - 1) (<[j := y]> pool)) k' (tl draws)
      | _, _ => []
      end
  end.

Definition random_sample {A : Type} (population : list A) (k : Z)
  (draws : list nat) : result (list A) :=
  if (k <? 0) || (Z.of_nat (length population) <? k) then Raise ValueError
  else Ok (sample_from population (Z.to_nat k) draws).

(** The loop [for i, img_path in enumerate(selected_images)]. *)
Fixpoint resize_loop (e : env) (temp_dir : string)
  (target_width target_height max_file_size max_photos : Z) (o : options)
  (start_time : float) (i : nat) (selected_images : list photo)
  (final_images : list string) (st : state)
  : result (list string) * state :=
  match selected_images with
  | [] => (Ok final_images, st)
  | img_path :: rest =>
      let '(processed_path, st) :=
        image_resize_and_add_caption e img_path temp_dir target_width
          target_height max_file_size o st in
      let final_images :=
        match processed_path with
        | Some p => if String.eqb p "" then final_images
                    else final_images ++ [p]
        | None => final_images
        end in
      match display_progress_bar "Resizing" start_time 0 (Z.of_nat i + 1)
              max_photos "" 50 (now e (S i)) with
      | Raise x => (Raise x, st)
      | Ok line =>
          resize_loop e temp_dir target_width target_height max_file_size
            max_photos o start_time (S i) rest final_images (print st line)
      end
  end.

(** How [get_image_files] ends. *)
Inductive outcome : Type :=
  | Returned (final_images : list string)
  | Exited (code : Z).

(** The selection step. *)
Definition select (image_files : list photo) (max_photos : Z)
  (draws : list nat) : result (list photo * log_record) :=
  if Z.of_nat (length image_files) >? max_photos then
    selected_images ← random_sample image_files max_photos draws;
    Ok (selected_images, RandomlySelected (length selected_images))
  else Ok (image_files, SelectedAll (length image_files)).

(** [get_image_files], from the list of files the directory walk found.
    [draws] feeds [random.sample]. *)
Definition get_image_files (e : env) (image_files : list photo)
  (draws : list nat) (max_file_size_mb max_photos : Z)
  (target_width target_height : Z) (o : options) : outcome * state :=
  match select image_files max_photos draws with
  | Raise x => (Exited 1, logger initial [ErrorGettingImageFiles x])
  | Ok (selected_images, selected_record) =>
      let st := logger initial [selected_record] in
      let temp_dir := mkdtemp e in
      let st := logger st [ResizingFilesIn temp_dir] in
      let max_file_size := max_file_size_mb * 1024 * 1024 in
      let start_time := now e 0 in
      match resize_loop e temp_dir target_width target_height max_file_size
              max_photos o start_time 0 selected_images [] st with
      | (Raise x, st) => (Exited 1, logger st [ErrorGettingImageFiles x])
      | (Ok final_images, st) =>
          (Returned final_images,
           logger st [Resized (length final_images)
                              (length selected_images)])
      end
  end.

(** *** Summaries used to state the properties *)

(** How the processing of one image ends. *)
Inductive verdict : Type :=
  | Failed (x : exn)
  | TooLarge (output_path : string) (bytes : Z)
  | Accepted (output_path : string) (file : image_file).

Definition judge (e : env) (img : photo) (temp_dir : string)
  (target_width target_height max_file_size : Z) (o : options) : verdict :=
  match render e img target_width target_height o with
  | Raise x => Failed x
  | Ok (new_width, new_height, overlay, records) =>
      match saved_bytes img with
      | Raise x => Failed x
      | Ok bytes =>
          if bytes >? max_file_size then
            TooLarge (output_path_of temp_dir img) bytes
          else
            Accepted (output_path_of temp_dir img)
              {| file_width := new_width; file_height := new_height;
                 file_overlay := overlay;
                 file_quality := save_quality (basename (image_path img));
                 file_bytes := bytes |}
      end
  end.

(** The entry an image contributes to [final_images], if any. *)
Definition accepted_path (e : env) (temp_dir : string)
  (target_width target_height max_file_size : Z) (o : options) (img : photo)
  : option string :=
  match judge e img temp_dir target_width target_height max_file_size o with
  | Accepted p _ => if String.eqb p "" then None else Some p
  | _ => None
  end.

(** What an image leaves in the temporary directory. *)
Definition leaves (v : verdict) (files : gmap string image_file)
  : gmap string image_file :=
  match v with
  | Failed _ => files
  | TooLarge p _ => delete p files
  | Accepted p f => <[p := f]> files
  end.


(** The line printed after image [i] (counted from 0) of the loop. *)
Definition line_after (e : env) (max_photos : Z) (i : nat)
  : result progress_line :=
  display_progress_bar "Resizing" (now e 0) 0 (Z.of_nat i + 1) max_photos
    "" 50 (now e (S i)).

End Pipeline.

(** ** Sample inputs *)

Module Samples.
Import Float64 Imaging World Pipeline.
Local Open Scope string_scope.
Local Open Scope list_scope.
Local Open Scope Z_scope.

(** A world with no fonts installed, a clock that advances one second per
    reading, and a geocoder that answers [reply]. *)
Definition world (reply : geocode_reply) : env :=
  {| strptime := fun _ => Raise ValueError;
     strftime := fun _ _ => Ok "2024-05-01 10:00";
     path_exists := fun _ => false;
     truetype := fun _ _ => Raise OSError;
     pixel_average := fun _ => Ok (200, 200, 200);
     import_geopy := Ok tt;
     reverse := fun _ => reply;
     mkdtemp := "/tmp/nix_upload_temp_k3";
     now := fun n => of_int (Z.of_nat n) |}.

Definition gray (w h : Z) : grid :=
  replicate (Z.to_nat h) (replicate (Z.to_nat w) (128, 128, 128)).

(** A readable [w]x[h] photo whose output encodes to [bytes] bytes. *)
Definition snapshot (path : string) (w h bytes : Z)
  (exif : result (option exif_dict)) : photo :=
  {| image_path := path;
     pil_open := Ok (w, h);
     pil_resize := fun w h => Ok (gray w h);
     getexif := exif;
     getmtime := Ok 1714557600;
     saved_bytes := Ok bytes |}.





(** Two files of the same name in two directories; the second encodes
    beyond three megabytes. *)
Definition small_x : photo := snapshot "album/a/x.jpg" 640 480 1000 (Ok None).
Definition large_x : photo :=
  snapshot "album/b/x.jpg" 640 480 5000000 (Ok None).
Definition same_name : list photo := [small_x; large_x].

(** A photo whose capture time cannot be parsed. *)
Definition garbled : photo :=
  snapshot "album/p.jpg" 640 480 1000
    (Ok (Some [(36867, ExifText "garbage")])).

Definition defaults : options :=
  {| date_format := "%Y-%m-%d %H:%M";
     caption_position := "bottom";
     font_size := 40;
     font_path := None;
     caption := true |}.

(** GPS directory of the specification's example, 40 26 46 / 79 56 55,
    without hemisphere references. *)
Definition gps_without_refs : list (Z * gps_value) :=
  [ (2, GpsRationals [40 # 1; 26 # 1; 46 # 1]%Q);
    (4, GpsRationals [79 # 1; 56 # 1; 55 # 1]%Q) ].

Definition exif_without_refs : exif_dict :=
  [ (36867, ExifText "2024:05:01 10:00:00"); (34853, ExifIFD gps_without_refs) ].

End Samples.

(** ** The directory walk of [get_image_files] *)

Module Walk.
Import Paths.
Local Open Scope string_scope.
Local Open Scope list_scope.

(** A directory as [os.walk] lists it: the names of its entries that are
    not directories, and the sub-directories the walk descends into, each
    with its name, in the order of the listing. *)
#[warnings="-register-all"]
Inductive dir : Type :=
  | Dir (files : list string) (subdirs : list (string * dir)).

Definition valid_extensions : list string :=
  [".jpg"; ".jpeg"; ".png"; ".gif"; ".bmp"].

(** [any(file.lower().endswith(ext) for ext in valid_extensions)] *)
Definition is_image (file : string) : bool :=
  existsb (endswith (lower file)) valid_extensions.

(** ['.nonixplay' in files] *)
Definition has_marker (files : list string) : bool :=
  existsb (String.eqb ".nonixplay") files.

(** What one step of the loop does: a path appended to [image_files], or
    a directory skipped (and logged at DEBUG level). *)
Inductive visit : Type :=
  | Collected (path : string)
  | SkippedDirectory (root : string).

(** The loop [for root, dirs, files in os.walk(directory)]: top-down, a
    directory before its sub-directories; a directory holding the marker
    is skipped, and emptying [dirs] keeps the walk out of everything
    below it. *)
Fixpoint walk (root : string) (d : dir) : list visit :=
  match d with
  | Dir files subdirs =>
      if has_marker files then [SkippedDirectory root]
      else
        (Collected <$> (join root <$> List.filter is_image files))
        ++ (fix walk_dirs (l : list (string * dir)) : list visit :=
              match l with
              | [] => []
              | (name, sub) :: rest =>
                  walk (join root name) sub ++ walk_dirs rest
              end) subdirs
  end.

(** The visits of the sub-directories of a directory that is not
    skipped, as [walk] makes them. *)
Definition walk_dirs (root : string) (subdirs : list (string * dir))
  : list visit :=
  flat_map (fun entry => walk (join root entry.1) entry.2) subdirs.

(** [image_files] when the loop ends. *)
Definition collected (visits : list visit) : list string :=
  omap (fun v => match v with
                 | Collected path => Some path
                 | SkippedDirectory _ => None
                 end) visits.

(** [listed d chain file]: [file] is listed in the directory reached from
    [d] through the sub-directories named [chain], and neither [d] nor any
    directory on the way (the last one included) holds the marker. *)
Inductive listed : dir -> list string -> string -> Prop :=
  | listed_here (files : list string) (subdirs : list (string * dir))
      (file : string) :
      has_marker files = false -> In file files ->
      listed (Dir files subdirs) [] file
  | listed_below (files : list string) (subdirs : list (string * dir))
      (name : string) (sub : dir) (chain : list string) (file : string) :
      has_marker files = false -> In (name, sub) subdirs ->
      listed sub chain file ->
      listed (Dir files subdirs) (name :: chain) file.

(** The path [os.walk] builds for the directory reached through [chain]. *)
Definition root_of (directory : string) (chain : list string) : string :=
  fold_left join chain directory.

End Walk.

(** ** The upload in batches *)

Module Uploader.
Import Paths.
Local Open Scope string_scope.
Local Open Scope list_scope.
Local Open Scope Z_scope.

(** [range(start, stop, step)] *)
Definition py_range (start stop step : Z) : result (list Z) :=
  if step =? 0 then Raise ValueError
  else
    let count :=
      if 0 <? step then (stop - start + step - 1) / step
      else (start - stop - step - 1) / (- step) in
    Ok ((fun k => start + Z.of_nat k * step) <$> seq 0 (Z.to_nat count)).

(** The arguments of one call of [upload_batch]. *)
Record batch_call : Type := {
  batch : list string;
  batch_number : Z;
  batch_count : Z;
  batch_end_count : Z;
  (** the debug file, when it could be opened *)
  logfile : option string
}.

Inductive upload_record : Type :=
  | ErrorCreatingDebugFile (debug_file_name : string)
  | UploadingBatch (batch_number batch_count : Z) (photos : nat)
  | AllBatchesUploaded
  | ListWrittenTo (debug_file_path : string)
  | UploadPhotosException (x : exn).

Definition upload_level (r : upload_record) : level :=
  match r with
  | ErrorCreatingDebugFile _ => WARNING
  | UploadingBatch _ _ _ => DEBUG
  | AllBatchesUploaded | ListWrittenTo _ => INFO
  | UploadPhotosException _ => ERROR
  end.

(** The browser session, as [upload_photos] meets it.  [D] is whatever
    state the driver, the web site and the debug directory are in. *)
Record browser (D : Type) : Type := {
  (** [upload_batch(driver, batch, batch_number, batch_count,
      batch_end_count, logfile)]: what it returns or raises, and the
      state it leaves *)
  upload_batch : batch_call -> D -> result bool * D;
  (** [save_debug_snapshot(driver, label)] *)
  save_debug_snapshot : string -> D -> result unit * D;
  (** [open(debug_file_path, "w")] *)
  open_logfile : string -> D -> result unit * D;
  (** [datetime.now().strftime('%Y%m%d_%H%M%S')] *)
  timestamp : D -> string;
  (** the global [debug_directory] *)
  debug_directory : string
}.
Arguments upload_batch {D} _ _ _.
Arguments save_debug_snapshot {D} _ _ _.
Arguments open_logfile {D} _ _ _.
Arguments timestamp {D} _ _.
Arguments debug_directory {D} _.

(** The session, the calls of [upload_batch] made so far, each with what
    it returned or raised, and the log. *)
Record session (D : Type) : Type := {
  driver : D;
  calls : list (batch_call * result bool);
  upload_log : list upload_record
}.
Arguments driver {D} _.
Arguments calls {D} _.
Arguments upload_log {D} _.

Section Upload.
Context {D : Type} (b : browser D).

Definition log_upload (st : session D) (records : list upload_record)
  : session D :=
  {| driver := driver st; calls := calls st;
     upload_log := upload_log st ++ records |}.

(** The loop [for i in range(0, len(selected_images), batch_size)], over
    the values [i] still to come.  The five-second pause after each batch
    changes nothing that is modelled. *)
Fixpoint upload_loop (selected_images : list string) (batch_size : Z)
  (logfile : option string) (starts : list Z)
  (cumulative_uploaded_count : Z) (st : session D)
  : result unit * session D :=
  match starts with
  | [] => (Ok tt, st)
  | i :: rest =>
      let batch :=
        take (Z.to_nat batch_size) (drop (Z.to_nat i) selected_images) in
      let batch_number := i / batch_size + 1 in
      let batch_count :=
        (Z.of_nat (length selected_images) - 1) / batch_size + 1 in
      let batch_end_count :=
        cumulative_uploaded_count + Z.of_nat (length batch) in
      let st :=
        log_upload st [UploadingBatch batch_number batch_count (length batch)] in
      let call :=
        {| batch := batch; batch_number := batch_number;
           batch_count := batch_count; batch_end_count := batch_end_count;
           logfile := logfile |} in
      let '(batch_success, d) := upload_batch b call (driver st) in
      let st :=
        {| driver := d; calls := calls st ++ [(call, batch_success)];
           upload_log := upload_log st |} in
      match batch_success with
      | Raise x => (Raise x, st)
      | Ok batch_success =>
          let cumulative_uploaded_count :=
            if batch_success
            then cumulative_uploaded_count + Z.of_nat (length batch)
            else cumulative_uploaded_count in
          upload_loop selected_images batch_size logfile rest
            cumulative_uploaded_count st
      end
  end.

(** [upload_photos(driver, selected_images, batch_size)] *)
Definition upload_photos (selected_images : list string) (batch_size : Z)
  (d : D) : result bool * session D :=
  let debug_file_name := timestamp b d +:+ "_uploaded_files.txt" in
  let debug_file_path := join (debug_directory b) debug_file_name in
  let '(opened, d) := open_logfile b debug_file_path d in
  let st := {| driver := d; calls := []; upload_log := [] |} in
  let '(logfile, st) :=
    match opened with
    | Ok _ => (Some debug_file_path, st)
    | Raise _ => (None, log_upload st [ErrorCreatingDebugFile debug_file_name])
    end in
  let '(body, st) :=
    match py_range 0 (Z.of_nat (length selected_images)) batch_size with
    | Raise x => (Raise x, st)
    | Ok starts => upload_loop selected_images batch_size logfile starts 0 st
    end in
  match body with
  | Ok _ =>
      (Ok true,
       log_upload st [AllBatchesUploaded; ListWrittenTo debug_file_path])
  | Raise x =>
      let st := log_upload st [UploadPhotosException x] in
      let '(saved, d) := save_debug_snapshot b "upload_exception" (driver st) in
      let st := {| driver := d; calls := calls st;
                   upload_log := upload_log st |} in
      match saved with
      | Ok _ => (Ok false, st)
      | Raise y => (Raise y, st)
      end
  end.

End Upload.

(** The call the loop makes for the start index [i] when
    [cumulative_uploaded_count] photos count as uploaded. *)
Definition call_at (selected_images : list string) (batch_size : Z)
  (logfile : option string) (i cumulative_uploaded_count : Z) : batch_call :=
  let batch :=
    take (Z.to_nat batch_size) (drop (Z.to_nat i) selected_images) in
  {| batch := batch;
     batch_number := i / batch_size + 1;
     batch_count := (Z.of_nat (length selected_images) - 1) / batch_size + 1;
     batch_end_count := cumulative_uploaded_count + Z.of_nat (length batch);
     logfile := logfile |}.

(** The photos of the calls that [upload_batch] answered with True. *)
Definition uploaded_by (trace : list (batch_call * result bool)) : Z :=
  foldr (fun entry acc =>
           match entry.2 with
           | Ok true => Z.of_nat (length (batch entry.1)) + acc
           | _ => acc
           end) 0 trace.

End Uploader.

(** ** Sample sessions *)

Module UploadSamples.
Import Uploader.
Local Open Scope string_scope.
Local Open Scope list_scope.

(** A browser that answers the calls of [upload_batch] from a script, the
    n-th call with the n-th answer and True once the script is exhausted;
    its state counts the calls made. *)
Definition scripted (answers : list (result bool)) : browser nat :=
  {| upload_batch := fun _ n => (default (Ok true) (answers !! n), S n);
     save_debug_snapshot := fun _ n => (Ok tt, n);
     open_logfile := fun _ n => (Ok tt, n);
     timestamp := fun _ => "20240501_100000";
     debug_directory := "debug" |}.

Definition five : list string :=
  ["t/a.jpg"; "t/b.jpg"; "t/c.jpg"; "t/d.jpg"; "t/e.jpg"].

End UploadSamples.

(** ** Text operations *)

Module Text.
Local Open Scope string_scope.

(** [s.isascii()] *)
Definition isascii (s : string) : bool :=
  forallb (fun c => (nat_of_ascii c <? 128)%nat) (list_ascii_of_string s).

(** [c.upper()] for an ASCII character; the others are left as they are,
    where Python goes by the Unicode tables. *)
Definition upper_char (c : ascii) : ascii :=
  let n := nat_of_ascii c in
  if (97 <=? n)%nat && (n <=? 122)%nat then ascii_of_nat (n - 32) else c.

Fixpoint upper (s : string) : string :=
  match s with
  | EmptyString => EmptyString
  | String c r => String (upper_char c) (upper r)
  end.

(** [s.rstrip(c)] for a single character [c] *)
Fixpoint rstrip (c : ascii) (s : string) : string :=
  match s with
  | EmptyString => EmptyString
  | String a r =>
      let r' := rstrip c r in
      if String.eqb r' "" && Ascii.eqb a c then "" else String a r'
  end.

End Text.

(** ** The configuration file *)

Module Config.
Import Paths Text.
Local Open Scope string_scope.
Local Open Scope list_scope.
Local Open Scope Z_scope.

(** A value read by [json.load]. *)
#[warnings="-register-all"]
Inductive json : Type :=
  | JNull
  | JBool (b : bool)
  | JInt (n : Z)
  | JFloat (q : Q)
  | JString (s : string)
  | JArray (items : list json)
  | JObject (members : list (string * json)).

(** A [dict] with string keys. *)
Abbreviation dict := (gmap string json).

Definition DEFAULT_CONFIG : dict :=
  list_to_map
    [ ("base_url", JString "https://app.nixplay.com");
      ("playlist_name", JString "nix-upload");
      ("delete_my_uploads", JBool true);
      ("max_photos", JInt 500);
      ("max_file_size_mb", JInt 3);
      ("batch_size", JInt 100);
      ("image_width", JInt 1280);
      ("image_height", JInt 800);
      ("log_level", JString "INFO");
      ("headless", JBool true);
      ("caption", JBool true);
      ("caption_position", JString "bottom");
      ("date_format", JString "%Y-%m-%d %H:%M");
      ("font_size", JInt 50);
      ("font_path", JNull);
      ("debug_directory", JString "debug") ].

Definition REQUIRED_KEYS : list string :=
  ["username"; "password"; "photos_directory"].

(** The integer attributes of the [logging] module with a name in capital
    letters: what [getattr(logging, log_level, None)] finds that passes
    [isinstance(numeric_level, int)]. *)
Definition level_names : list (string * Z) :=
  [ ("CRITICAL", 50); ("FATAL", 50); ("ERROR", 40); ("WARNING", 30);
    ("WARN", 30); ("INFO", 20); ("DEBUG", 10); ("NOTSET", 0) ].

Definition logging_level (log_level : string) : option Z :=
  Metadata.dict_get String.eqb log_level level_names.

(** [logging.INFO] *)
Definition logging_INFO : Z := 20.

(** What reading the file gives: [open(config_file, 'r')] and
    [json.load(f)].  Files whose text is a JSON value other than an
    object (an array, a string, a number) are left out: a file that
    parses is taken to hold an object. *)
Inductive read_outcome : Type :=
  | ReadObject (config : dict)
  | ReadFileNotFound
  | ReadJSONDecodeError
  | ReadRaises (x : exn).

Record files : Type := {
  (** [os.path.abspath] *)
  abspath : string -> string;
  read_config : string -> read_outcome
}.

(** Why [load_config] gives up: the exception that reaches its handlers. *)
Inductive failure : Type :=
  | FileNotFound
  | JSONDecodeError
  (** [KeyError("Missing required key ...")] *)
  | MissingRequiredKey (key : string)
  (** [KeyError] of a subscript *)
  | NoSuchKey (key : string)
  (** [ValueError("The 'headless' parameter must be a boolean ...")] *)
  | HeadlessNotBoolean
  | Raised (x : exn).

Inductive config_record : Type :=
  | LoadingConfigFile (config_name config_path : string)
  | InvalidLogLevel (log_level : string)
  | LogLevelSetTo (log_level : string)
  | ConfigFileNotFound (config_file : string)
  | FailureParsingConfigFile (config_file : string)
  | ConfigFileError (why : failure)
  | FailureLoadingConfig (why : failure).

Definition config_level (r : config_record) : level :=
  match r with
  | LoadingConfigFile _ _ | LogLevelSetTo _ => INFO
  | InvalidLogLevel _ => WARNING
  | ConfigFileNotFound _ | FailureParsingConfigFile _ | ConfigFileError _
  | FailureLoadingConfig _ => ERROR
  end.

(** The logger: its level and what was handed to it. *)
Record logging : Type := {
  logger_level : Z;
  config_log : list config_record
}.

Definition log_config (st : logging) (records : list config_record)
  : logging :=
  {| logger_level := logger_level st;
     config_log := config_log st ++ records |}.

(** [for key in REQUIRED_KEYS: if key not in config: raise KeyError] *)
Definition first_missing (config : dict) : option string :=
  List.find (fun key => negb (bool_decide (is_Some (config !! key))))
    REQUIRED_KEYS.

(** The statements of the [try] block from the check of the required
    keys to the one before [getattr]: the merged configuration and the
    upper-cased level name, or the exception raised. *)
Definition merge_and_check (config : dict) : failure + dict * string :=
  match first_missing config with
  | Some key => inl (MissingRequiredKey key)
  | None =>
      let merged_config := config ∪ DEFAULT_CONFIG in
      let stripped :=
        match merged_config !! "base_url" with
        | None => inr merged_config
        | Some (JString base_url) =>
            inr (<["base_url" := JString (rstrip "/" base_url)]> merged_config)
        | Some _ => inl (Raised AttributeError)
        end in
      match stripped with
      | inl why => inl why
      | inr merged_config =>
          match merged_config !! "headless" with
          | None => inl (NoSuchKey "headless")
          | Some (JBool _) =>
              match merged_config !! "log_level" with
              | None => inl (NoSuchKey "log_level")
              | Some (JString log_level) =>
                  inr (merged_config, upper log_level)
              | Some _ => inl (Raised AttributeError)
              end
          | Some _ => inl HeadlessNotBoolean
          end
      end
  end.

(** The [except] clauses, in their order. *)
Definition handler (config_file : string) (why : failure) : config_record :=
  match why with
  | FileNotFound => ConfigFileNotFound config_file
  | JSONDecodeError => FailureParsingConfigFile config_file
  | MissingRequiredKey _ | NoSuchKey _ => ConfigFileError why
  | HeadlessNotBoolean | Raised ValueError => ConfigFileError why
  | Raised _ => FailureLoadingConfig why
  end.

(** How [load_config] ends. *)
Inductive loaded : Type :=
  | Loaded (merged_config : dict)
  | Exit (code : Z).

Definition load_config (w : files) (config_file : string) (st : logging)
  : loaded * logging :=
  let config_path := abspath w config_file in
  let config_name := basename config_path in
  let st := log_config st [LoadingConfigFile config_name config_path] in
  let attempt :=
    match read_config w config_file with
    | ReadObject config => merge_and_check config
    | ReadFileNotFound => inl FileNotFound
    | ReadJSONDecodeError => inl JSONDecodeError
    | ReadRaises x => inl (Raised x)
    end in
  match attempt with
  | inr (merged_config, log_level) =>
      match logging_level log_level with
      | Some numeric_level =>
          (Loaded merged_config,
           {| logger_level := numeric_level;
              config_log := config_log st ++ [LogLevelSetTo log_level] |})
      | None =>
          (Loaded merged_config,
           {| logger_level := logging_INFO;
              config_log := config_log st ++ [InvalidLogLevel log_level;
                                              LogLevelSetTo log_level] |})
      end
  | inl why => (Exit 1, log_config st [handler config_file why])
  end.

(** The attributes [main] reads from the configuration. *)
Definition keys_read_by_main : list string :=
  [ "debug_directory"; "photos_directory"; "max_file_size_mb"; "max_photos";
    "image_width"; "image_height"; "date_format"; "caption_position";
    "font_size"; "font_path"; "caption"; "headless"; "base_url"; "username";
    "password"; "delete_my_uploads"; "playlist_name"; "batch_size" ].

End Config.

Module ConfigSamples.
Import Config.
Local Open Scope string_scope.
Local Open Scope list_scope.

(** A configuration file with the three required keys, a base URL with
    trailing slashes and a level name in small letters. *)
Definition minimal : dict :=
  list_to_map
    [ ("username", JString "ann"); ("password", JString "secret");
      ("photos_directory", JString "/home/ann/photos");
      ("base_url", JString "https://app.nixplay.com//");
      ("log_level", JString "debug") ].

Definition disk (content : read_outcome) : files :=
  {| abspath := fun p => "/home/ann/" +:+ p;
     read_config := fun _ => content |}.

Definition quiet : logging := {| logger_level := 20; config_log := [] |}.

End ConfigSamples.

(** ** EXIF rationals *)

Module Rationals.

(** A RATIONAL of the EXIF data: two unsigned 32-bit integers. *)
Definition rational32 (q : Q) : Prop :=
  (0 <= Qnum q < 2 ^ 32)%Z /\ (Z.pos (Qden q) < 2 ^ 32)%Z.

End Rationals.

(** ** The same world with another geocoder *)

Module Geocoding.
Import Float64 World.

(** [e] with the import of [geopy] and the answers of
    [geolocator.reverse] replaced. *)
Definition with_geocoder (e : env) (import : result unit)
  (answer : float * float -> geocode_reply) : env :=
  {| strptime := strptime e;
     strftime := strftime e;
     path_exists := path_exists e;
     truetype := truetype e;
     pixel_average := pixel_average e;
     import_geopy := import;
     reverse := answer;
     mkdtemp := mkdtemp e;
     now := now e |}.

End Geocoding.

(** ** Cleaning up the temporary directories *)

Module Housekeeping.
Local Open Scope string_scope.
Local Open Scope list_scope.

Inductive cleanup_record : Type :=
  | CleaningUp (temp_dir : string)
  | FailedToCleanUp (temp_dir : string) (x : exn).

Definition cleanup_level (r : cleanup_record) : level :=
  match r with
  | CleaningUp _ => DEBUG
  | FailedToCleanUp _ _ => ERROR
  end.

(** The directories made by [tempfile.mkdtemp] that are on disk, and the
    log.  [os.path.exists(d)] is membership in [existing]; the directories
    lie side by side in the temporary directory of the system, so that
    removing one leaves the others. *)
Record disk : Type := {
  existing : gset string;
  cleanup_log : list cleanup_record
}.

(** [cleanup_temp_files()], for the global list [temp_directories].
    [rmtree d] is what [shutil.rmtree(d)] does: when it returns, [d] is
    gone; when it raises, [d] is still there. *)
Fixpoint cleanup_temp_files (rmtree : string -> result unit)
  (temp_directories : list string) (st : disk) : disk :=
  match temp_directories with
  | [] => st
  | temp_dir :: rest =>
      let st :=
        if bool_decide (temp_dir ∈ existing st) then
          match rmtree temp_dir with
          | Ok _ =>
              {| existing := existing st ∖ {[temp_dir]};
                 cleanup_log := cleanup_log st ++ [CleaningUp temp_dir] |}
          | Raise x =>
              {| existing := existing st;
                 cleanup_log := cleanup_log st
                                ++ [CleaningUp temp_dir;
                                    FailedToCleanUp temp_dir x] |}
          end
        else st in
      cleanup_temp_files rmtree rest st
  end.

End Housekeeping.

Module CaptionSamples.
Import Float64 Imaging World Pipeline Samples.
Local Open Scope string_scope.
Local Open Scope list_scope.
Local Open Scope Z_scope.

(** A world in which the file fancy.ttf exists and is not a font. *)
Definition broken_font_world : env :=
  {| strptime := fun _ => Raise ValueError;
     strftime := fun _ _ => Ok "2024-05-01 10:00";
     path_exists := fun p => String.eqb p "fonts/fancy.ttf";
     truetype := fun _ _ => Raise OSError;
     pixel_average := fun _ => Ok (200, 200, 200);
     import_geopy := Ok tt;
     reverse := fun _ => GeoNone;
     mkdtemp := "/tmp/nix_upload_temp_k3";
     now := fun n => of_int (Z.of_nat n) |}.

Definition with_fancy_font : options :=
  {| date_format := "%Y-%m-%d %H:%M";
     caption_position := "bottom";
     font_size := 40;
     font_path := Some "fonts/fancy.ttf";
     caption := true |}.

(** A GPS directory with a latitude and no longitude. *)
Definition exif_without_longitude : exif_dict :=
  [ (34853, ExifIFD [ (1, GpsText "N");
                      (2, GpsRationals [40 # 1; 26 # 1; 46 # 1]%Q) ]) ].

End CaptionSamples.

Module HousekeepingSamples.
Import Housekeeping.
Local Open Scope string_scope.
Local Open Scope list_scope.

(** Two temporary directories; the first cannot be removed. *)
Definition stubborn (d : string) : result unit :=
  if String.eqb d "/tmp/nix_upload_temp_a" then Raise OSError else Ok tt.

Definition two_left : disk :=
  {| existing := {[ "/tmp/nix_upload_temp_a"; "/tmp/nix_upload_temp_b" ]};
     cleanup_log := [] |}.

End HousekeepingSamples.

(** * Properties *)

(** ** Facts about binary64 rounding *)

Module Float64Facts.
Import Float64.
Local Open Scope Q_scope.

(** *** Rounding to an integer *)

Lemma round_half_even_near (x : Q) :
  x - (1 # 2) <= inject_Z (round_half_even x) <= x + (1 # 2).
Proof.
  unfold round_half_even.
  pose proof (Qfloor_le x) as Hlo. pose proof (Qlt_floor x) as Hhi.
  rewrite inject_Z_plus in Hhi. change (inject_Z 1) with 1 in Hhi.
  set (q := Qfloor x) in *.
  assert (Hs : inject_Z (q + 1) == inject_Z q + 1)
    by (now rewrite inject_Z_plus).
  destruct (Qcompare_spec (x - inject_Z q) (1 # 2)) as [He|Hl|Hg].
  - destruct (Z.even q); [|rewrite Hs]; split; lra.
  - split; lra.
  - rewrite Hs. split; lra.
Qed.

(** *** The binade of a positive rational *)

Lemma pow2_pos (e : Z) : 0 < pow2 e.
Proof. apply Qpower_0_lt. reflexivity. Qed.

Lemma pow2_add (a b : Z) : pow2 (a + b) == pow2 a * pow2 b.
Proof. apply Qpower_plus. discriminate. Qed.

Lemma pow2_inject (n : Z) : (0 <= n)%Z -> pow2 n == inject_Z (2 ^ n).
Proof. intros Hn. unfold pow2. now rewrite (Zpower_Qpower 2 n Hn). Qed.

Lemma pow2_sub (a b : Z) : pow2 (a - b) == pow2 a / pow2 b.
Proof.
  unfold pow2. replace (a - b)%Z with (a + - b)%Z by lia.
  rewrite Qpower_plus by discriminate. now rewrite Qpower_opp.
Qed.

Lemma log2_bounds (n : Z) :
  (0 < n)%Z ->
  inject_Z (2 ^ Z.log2 n) <= inject_Z n /\
  inject_Z n < inject_Z (2 ^ (Z.log2 n + 1)).
Proof.
  intros Hn. destruct (Z.log2_spec n Hn) as [Hlo Hhi].
  replace (Z.succ (Z.log2 n)) with (Z.log2 n + 1)%Z in Hhi by lia.
  split; [rewrite <- Zle_Qle | rewrite <- Zlt_Qlt]; assumption.
Qed.

Lemma binade_spec (x : Q) :
  0 < x -> pow2 (binade x + 52) <= x /\ x < pow2 (binade x + 53).
Proof.
  intros Hx. unfold binade.
  destruct x as [n d]. simpl Qnum in *. simpl Qden in *.
  assert (Hn : (0 < n)%Z) by (unfold Qlt in Hx; simpl in Hx; lia).
  destruct (log2_bounds n Hn) as [Hn1 Hn2].
  destruct (log2_bounds (Zpos d) (Pos2Z.is_pos d)) as [Hd1 Hd2].
  pose proof (Z.log2_nonneg n) as Hln.
  pose proof (Z.log2_nonneg (Zpos d)) as Hld.
  set (ln := Z.log2 n) in *. set (ld := Z.log2 (Zpos d)) in *.
  rewrite <- pow2_inject in Hn1, Hn2, Hd1, Hd2 by lia.
  assert (Hq : n # d == inject_Z n / inject_Z (Zpos d)) by apply Qmake_Qdiv.
  assert (Hdpos : 0 < inject_Z (Zpos d)) by (rewrite <- (Zlt_Qlt 0); lia).
  pose proof (pow2_pos ln) as Pln. pose proof (pow2_pos ld) as Pld.
  assert (Hlow : pow2 (ln - ld - 53 + 52) < n # d).
  { rewrite Hq. apply Qlt_shift_div_l; [assumption|].
    replace (ln - ld - 53 + 52)%Z with (ln - (ld + 1))%Z by lia.
    rewrite pow2_sub. pose proof (pow2_pos (ld + 1)) as Pld1.
    assert (Hr : inject_Z (Z.pos d) / pow2 (ld + 1) < 1)
      by (apply Qlt_shift_div_r; lra).
    assert (E : pow2 ln / pow2 (ld + 1) * inject_Z (Z.pos d)
                == pow2 ln * (inject_Z (Z.pos d) / pow2 (ld + 1)))
      by (field; lra).
    rewrite E. nra. }
  assert (Hupp : n # d < pow2 (ln - ld - 53 + 1 + 53)).
  { rewrite Hq. apply Qlt_shift_div_r; [assumption|].
    replace (ln - ld - 53 + 1 + 53)%Z with ((ln + 1) - ld)%Z by lia.
    rewrite pow2_sub. pose proof (pow2_pos (ln + 1)) as Pln1.
    assert (Hr : 1 <= inject_Z (Z.pos d) / pow2 ld)
      by (apply Qle_shift_div_l; lra).
    assert (E : pow2 (ln + 1) / pow2 ld * inject_Z (Z.pos d)
                == pow2 (ln + 1) * (inject_Z (Z.pos d) / pow2 ld))
      by (field; lra).
    rewrite E. nra. }
  destruct (Qle_bool (pow2 (ln - ld - 53 + 53)) (n # d)) eqn:Hb.
  - apply Qle_bool_iff in Hb. split.
    + now replace (ln - ld - 53 + 1 + 52)%Z with (ln - ld - 53 + 53)%Z by lia.
    + assumption.
  - split; [now apply Qlt_le_weak|].
    apply Qnot_le_lt. intros Hc. apply Qle_bool_iff in Hc. congruence.
Qed.

(** *** The relative error of rounding *)

Lemma round_pos_error (x : Q) :
  0 < x -> x * (1 - u) <= round_pos x <= x * (1 + u).
Proof.
  intros Hx. unfold round_pos.
  destruct (binade_spec x Hx) as [Hlo _].
  set (e := binade x) in *.
  pose proof (pow2_pos e) as Pe.
  pose proof (round_half_even_near (x / pow2 e)) as [Hm1 Hm2].
  set (m := inject_Z (round_half_even (x / pow2 e))) in *.
  assert (Hhalf : pow2 e * (1 # 2) <= x * u).
  { rewrite pow2_add in Hlo.
    assert (H52 : pow2 52 == 4503599627370496) by reflexivity.
    rewrite H52 in Hlo. unfold u. lra. }
  assert (Hx' : x / pow2 e * pow2 e == x) by (field; lra).
  assert (H1 : (x / pow2 e - (1 # 2)) * pow2 e <= m * pow2 e)
    by (apply Qmult_le_compat_r; lra).
  assert (H2 : m * pow2 e <= (x / pow2 e + (1 # 2)) * pow2 e)
    by (apply Qmult_le_compat_r; lra).
  split; lra.
Qed.

Lemma round64_error (x : Q) :
  0 < x -> x * (1 - u) <= round64 x <= x * (1 + u).
Proof.
  intros Hx. unfold round64.
  destruct x as [[|p|p] d]; try (exfalso; revert Hx; now compute).
  cbn [Qnum]. cbv iota. rewrite Qred_correct. now apply round_pos_error.
Qed.

Lemma round64_pos (x : Q) : 0 < x -> 0 < round64 x.
Proof.
  intros Hx. destruct (round64_error x Hx) as [Hlo _].
  assert (0 < x * (1 - u)); [|lra].
  apply Qmult_lt_0_compat; [assumption | reflexivity].
Qed.

Lemma round64_error_nonneg (x : Q) :
  0 <= x -> x * (1 - u) <= round64 x <= x * (1 + u).
Proof.
  intros Hx. destruct (Qlt_le_dec 0 x) as [Hpos|Hle].
  - now apply round64_error.
  - assert (E : x == 0) by lra.
    assert (Hn : Qnum x = 0%Z).
    { unfold Qeq in E. simpl in E. lia. }
    unfold round64. rewrite Hn. rewrite E. split; lra.
Qed.

(** *** Rounding depends on the value only *)

Lemma pow2_mono (a b : Z) : (a <= b)%Z -> pow2 a <= pow2 b.
Proof. intros H. apply Qpower_le_compat_l; [assumption | discriminate]. Qed.

Lemma binade_unique (x : Q) (e e' : Z) :
  pow2 (e + 52) <= x -> x < pow2 (e + 53) ->
  pow2 (e' + 52) <= x -> x < pow2 (e' + 53) -> e = e'.
Proof.
  intros H1 H2 H3 H4.
  destruct (Z.lt_trichotomy e e') as [Hlt|[Heq|Hgt]]; [|assumption|].
  - pose proof (pow2_mono (e + 53) (e' + 52) ltac:(lia)). lra.
  - pose proof (pow2_mono (e' + 53) (e + 52) ltac:(lia)). lra.
Qed.

Lemma binade_comp (x y : Q) : 0 < x -> x == y -> binade x = binade y.
Proof.
  intros Hx Hxy.
  assert (Hy : 0 < y) by now rewrite <- Hxy.
  destruct (binade_spec x Hx) as [H1 H2].
  destruct (binade_spec y Hy) as [H3 H4].
  apply (binade_unique x); try assumption; lra.
Qed.

Lemma round_half_even_comp (x y : Q) :
  x == y -> round_half_even x = round_half_even y.
Proof.
  intros Hxy. unfold round_half_even.
  rewrite (Qfloor_comp x y Hxy).
  assert (E : x - inject_Z (Qfloor y) == y - inject_Z (Qfloor y))
    by now rewrite Hxy.
  now rewrite (Qcompare_comp _ _ E (1 # 2) (1 # 2) (Qeq_refl _)).
Qed.

Lemma round64_comp (x y : Q) : 0 < x -> x == y -> round64 x = round64 y.
Proof.
  intros Hx Hxy.
  assert (Hy : 0 < y) by now rewrite <- Hxy.
  unfold round64.
  destruct x as [[|p|p] d]; try (exfalso; revert Hx; now compute).
  destruct y as [[|p'|p'] d']; try (exfalso; revert Hy; now compute).
  cbn [Qnum]. cbv iota. apply Qred_complete. unfold round_pos.
  rewrite (binade_comp _ _ Hx Hxy).
  set (e := binade (Z.pos p' # d')).
  assert (E : (Z.pos p # d) / pow2 e == (Z.pos p' # d') / pow2 e)
    by now rewrite Hxy.
  now rewrite (round_half_even_comp _ _ E).
Qed.

(** *** Truncation of a non-negative float *)

Lemma trunc_floor (x : Q) : 0 <= x -> trunc x = Qfloor x.
Proof.
  intros Hx. destruct x as [n d]. unfold trunc, Qfloor. simpl.
  apply Z.quot_div_nonneg; [|lia].
  unfold Qle in Hx. simpl in Hx. lia.
Qed.

Lemma floor_bounds (x : Q) :
  inject_Z (Qfloor x) <= x /\ x < inject_Z (Qfloor x) + 1.
Proof.
  split; [apply Qfloor_le|].
  pose proof (Qlt_floor x) as H. now rewrite inject_Z_plus in H.
Qed.

(** *** Rounding is monotone and exact on small integers *)

Lemma round_half_even_int (n : Z) : round_half_even (inject_Z n) = n.
Proof.
  unfold round_half_even. rewrite Qfloor_Z.
  assert (H : Qcompare (inject_Z n - inject_Z n) (1 # 2) = Lt).
  { apply (proj1 (Qlt_alt _ _)). lra. }
  now rewrite H.
Qed.

Lemma round_half_even_mono (x y : Q) :
  x <= y -> (round_half_even x <= round_half_even y)%Z.
Proof.
  intros Hxy.
  destruct (Z.le_gt_cases (round_half_even x) (round_half_even y))
    as [?|Hgt]; [assumption|exfalso].
  destruct (round_half_even_near x) as [_ Hx].
  destruct (round_half_even_near y) as [Hy _].
  assert (Hs : inject_Z (round_half_even y) + 1
               <= inject_Z (round_half_even x)).
  { change 1 with (inject_Z 1). rewrite <- inject_Z_plus, <- Zle_Qle. lia. }
  assert (E : x == y) by lra.
  rewrite (round_half_even_comp _ _ E) in Hgt. lia.
Qed.

Lemma round_pos_mono (x y : Q) :
  0 < x -> x <= y -> round_pos x <= round_pos y.
Proof.
  intros Hx Hxy. assert (Hy : 0 < y) by lra.
  destruct (binade_spec x Hx) as [X1 X2].
  destruct (binade_spec y Hy) as [Y1 Y2].
  unfold round_pos.
  set (ex := binade x) in *. set (ey := binade y) in *.
  pose proof (pow2_pos ex) as Pex. pose proof (pow2_pos ey) as Pey.
  destruct (Z.lt_trichotomy ex ey) as [Hlt|[Heq|Hgt]].
  - (* a lower binade: compare through the boundary between them *)
    assert (Hmx : inject_Z (round_half_even (x / pow2 ex))
                  <= inject_Z (2 ^ 53)).
    { rewrite <- Zle_Qle. rewrite <- (round_half_even_int (2 ^ 53)).
      apply round_half_even_mono. rewrite <- pow2_inject by lia.
      apply Qle_shift_div_r; [assumption|].
      rewrite <- pow2_add. replace (53 + ex)%Z with (ex + 53)%Z by lia.
      lra. }
    assert (Hmy : inject_Z (2 ^ 52)
                  <= inject_Z (round_half_even (y / pow2 ey))).
    { rewrite <- Zle_Qle. rewrite <- (round_half_even_int (2 ^ 52)) at 1.
      apply round_half_even_mono. rewrite <- pow2_inject by lia.
      apply Qle_shift_div_l; [assumption|].
      rewrite <- pow2_add. replace (52 + ey)%Z with (ey + 52)%Z by lia.
      lra. }
    rewrite <- pow2_inject in Hmx, Hmy by lia.
    pose proof (pow2_mono (ex + 53) (ey + 52) ltac:(lia)) as Hb.
    rewrite !pow2_add in Hb.
    pose proof (pow2_pos 53) as P53. pose proof (pow2_pos 52) as P52.
    apply Qle_trans with (pow2 ex * pow2 53); [nra|].
    apply Qle_trans with (pow2 ey * pow2 52); [lra|nra].
  - rewrite <- Heq in *.
    apply Qmult_le_compat_r; [|lra].
    rewrite <- Zle_Qle. apply round_half_even_mono.
    apply Qmult_le_compat_r; [assumption|].
    apply Qlt_le_weak, Qinv_lt_0_compat. assumption.
  - exfalso.
    pose proof (pow2_mono (ey + 53) (ex + 52) ltac:(lia)). lra.
Qed.

Lemma round64_mono (x y : Q) : 0 < x -> x <= y -> round64 x <= round64 y.
Proof.
  intros Hx Hxy. assert (Hy : 0 < y) by lra.
  unfold round64.
  destruct x as [[|p|p] d]; try (exfalso; revert Hx; now compute).
  destruct y as [[|q|q] d']; try (exfalso; revert Hy; now compute).
  cbn [Qnum]. cbv iota. rewrite !Qred_correct. now apply round_pos_mono.
Qed.

Lemma round_pos_int (n : Z) :
  (0 < n < 2 ^ 53)%Z -> round_pos (inject_Z n) == inject_Z n.
Proof.
  intros [Hn0 Hn1].
  assert (Hx : 0 < inject_Z n) by (rewrite <- (Zlt_Qlt 0); lia).
  destruct (binade_spec _ Hx) as [X1 X2].
  unfold round_pos. set (e := binade (inject_Z n)) in *.
  assert (He : (e <= 0)%Z).
  { assert (Hlt : pow2 (e + 52) < pow2 53).
    { apply Qle_lt_trans with (inject_Z n); [assumption|].
      rewrite pow2_inject by lia. rewrite <- Zlt_Qlt. assumption. }
    apply Qpower_lt_compat_l_inv in Hlt; [lia | reflexivity]. }
  pose proof (pow2_pos e) as Pe.
  assert (Hinv : pow2 e * inject_Z (2 ^ (- e)) == 1).
  { rewrite <- pow2_inject by lia. rewrite <- pow2_add.
    replace (e + - e)%Z with 0%Z by lia. reflexivity. }
  assert (E : inject_Z n / pow2 e == inject_Z (n * 2 ^ (- e))).
  { rewrite inject_Z_mult.
    apply (Qmult_inj_r _ _ (pow2 e)); [lra|].
    assert (E1 : inject_Z n / pow2 e * pow2 e == inject_Z n) by (field; lra).
    rewrite E1. nra. }
  rewrite (round_half_even_comp _ _ E), round_half_even_int.
  rewrite inject_Z_mult. nra.
Qed.

Lemma round64_int (n : Z) :
  (0 < n < 2 ^ 53)%Z -> round64 (inject_Z n) == inject_Z n.
Proof.
  intros Hn. unfold round64, inject_Z at 1. cbn [Qnum].
  destruct n as [|p|p]; try lia.
  rewrite Qred_correct. now apply round_pos_int.
Qed.

(** *** Agreement with the kernel's binary64 on sample computations *)

Example kernel_division :
  KernelFloat.exact_value (KernelFloat.ratio 1 49) = Some (round64 (1 # 49)).
Proof. vm_compute. reflexivity. Qed.

Example kernel_product :
  KernelFloat.exact_value
    (PrimFloat.mul (KernelFloat.of_int 49) (KernelFloat.ratio 1 49))
  = Some (fmul (of_int 49) (round64 (1 # 49))).
Proof. vm_compute. reflexivity. Qed.

Example kernel_quotient_of_quotient :
  KernelFloat.exact_value
    (PrimFloat.div (KernelFloat.of_int 1280) (KernelFloat.ratio 4032 3024))
  = Some (round64 (of_int 1280 / round64 (4032 # 3024))).
Proof. vm_compute. reflexivity. Qed.

Example kernel_literals :
  KernelFloat.exact_value (KernelFloat.ratio 1 10) = Some (literal 1 10) /\
  KernelFloat.exact_value (KernelFloat.ratio 12 10) = Some (literal 12 10) /\
  KernelFloat.exact_value (KernelFloat.ratio 299 1000)
    = Some (literal 299 1000) /\
  KernelFloat.exact_value (KernelFloat.ratio 1234 100)
    = Some (literal 1234 100).
Proof. repeat split; vm_compute; reflexivity. Qed.

Example kernel_sum :
  KernelFloat.exact_value
    (PrimFloat.add
       (PrimFloat.add (KernelFloat.of_int 40) (KernelFloat.ratio 26 60))
       (KernelFloat.ratio 46 3600))
  = Some (fadd (fadd (of_int 40) (round64 (26 # 60))) (round64 (46 # 3600))).
Proof. vm_compute. reflexivity. Qed.

End Float64Facts.

(** ** Facts about the resize geometry *)

Module TransformerFacts.
Import Float64 Float64Facts Transformer.
Local Open Scope Q_scope.

Lemma scale_cancel (k x y : Q) : 0 < k -> x * k <= y * k -> x <= y.
Proof. intros Hk H. nra. Qed.

(** Error of [round64 (T / a)] when [T] and [a] are themselves rounded. *)
Lemma div_chain (u tw r T a c : Q) :
  0 < u -> u <= 1 # 5 -> 0 < tw -> 0 < r ->
  tw * (1 - u) <= T <= tw * (1 + u) ->
  r * (1 - u) <= a <= r * (1 + u) ->
  T / a * (1 - u) <= c <= T / a * (1 + u) ->
  tw * (1 - 4 * u) <= c * r <= tw * (1 + 4 * u).
Proof.
  intros Hu0 Hu1 Htw Hr [HT1 HT2] [Ha1 Ha2] [Hc1 Hc2].
  assert (Ha : 0 < a) by nra.
  assert (HT : 0 < T) by nra.
  set (q := T / a) in *.
  assert (Hqa : q * a == T) by (unfold q; field; lra).
  assert (Hq : 0 < q) by (unfold q; apply Qlt_shift_div_l; lra).
  assert (Hc : 0 < c) by nra.
  assert (U1 : c * a <= T * (1 + u)) by nra.
  assert (U2 : c * (r * (1 - u)) <= c * a) by nra.
  assert (U3 : T * (1 + u) <= tw * (1 + u) * (1 + u)) by nra.
  assert (U4 : tw * (1 + u) * (1 + u) <= tw * (1 + 4 * u) * (1 - u)) by nra.
  assert (L1 : T * (1 - u) <= c * a) by nra.
  assert (L2 : c * a <= c * (r * (1 + u))) by nra.
  assert (L3 : tw * (1 - u) * (1 - u) <= T * (1 - u)) by nra.
  assert (L4 : tw * (1 - 4 * u) * (1 + u) <= tw * (1 - u) * (1 - u)) by nra.
  split.
  - apply (scale_cancel (1 + u)); [lra|]. nra.
  - apply (scale_cancel (1 - u)); [lra|]. nra.
Qed.

(** Error of [round64 (T * a)] when [T] and [a] are themselves rounded. *)
Lemma mul_chain (u th r T a c : Q) :
  0 < u -> u <= 1 # 5 -> 0 < th -> 0 < r ->
  th * (1 - u) <= T <= th * (1 + u) ->
  r * (1 - u) <= a <= r * (1 + u) ->
  T * a * (1 - u) <= c <= T * a * (1 + u) ->
  th * r * (1 - 4 * u) <= c <= th * r * (1 + 4 * u).
Proof.
  intros Hu0 Hu1 Hth Hr [HT1 HT2] [Ha1 Ha2] [Hc1 Hc2].
  assert (Ha : 0 < a) by nra.
  assert (HT : 0 < T) by nra.
  assert (Hp : 0 < th * r) by nra.
  assert (U1 : T * a <= th * r * ((1 + u) * (1 + u))).
  { assert (T * a <= (th * (1 + u)) * (r * (1 + u))).
    { apply Qmult_le_compat_nonneg; split; lra. }
    lra. }
  assert (L1 : th * r * ((1 - u) * (1 - u)) <= T * a).
  { assert ((th * (1 - u)) * (r * (1 - u)) <= T * a).
    { apply Qmult_le_compat_nonneg; split; nra. }
    lra. }
  assert (K1 : (1 + u) * (1 + u) * (1 + u) <= 1 + 4 * u) by nra.
  assert (K2 : 1 - 4 * u <= (1 - u) * (1 - u) * (1 - u)) by nra.
  set (p := th * r) in *. set (s := T * a) in *.
  set (k1 := (1 + u) * (1 + u)) in *. set (k2 := (1 - u) * (1 - u)) in *.
  assert (0 < k1) by (unfold k1; nra).
  assert (0 < k2) by (unfold k2; nra).
  split.
  - apply Qle_trans with (p * k2 * (1 - u)); [nra|]. nra.
  - apply Qle_trans with (p * k1 * (1 + u)); [nra|]. nra.
Qed.

Lemma inject_pos (z : Z) : (0 < z)%Z -> 0 < inject_Z z.
Proof. intros H. now rewrite <- (Zlt_Qlt 0). Qed.

(** Two ratios of small integers that differ are still ordered the same
    way after rounding. *)
Lemma round64_ratio_lt (a b c d : Z) :
  (0 < a)%Z -> (0 < b)%Z -> (0 < c)%Z -> (0 < d)%Z ->
  (c * b < a * d)%Z -> (c * b < 2 ^ 50)%Z ->
  round64 (inject_Z c / inject_Z d) < round64 (inject_Z a / inject_Z b).
Proof.
  intros Ha Hb Hc Hd Hlt Hsmall.
  pose proof (inject_pos a Ha) as Pa. pose proof (inject_pos b Hb) as Pb.
  pose proof (inject_pos c Hc) as Pc. pose proof (inject_pos d Hd) as Pd.
  set (A := inject_Z a) in *. set (B := inject_Z b) in *.
  set (C := inject_Z c) in *. set (D := inject_Z d) in *.
  assert (Hx : 0 < A / B) by (apply Qlt_shift_div_l; lra).
  assert (Hy : 0 < C / D) by (apply Qlt_shift_div_l; lra).
  destruct (round64_error _ Hx) as [Hx1 _].
  destruct (round64_error _ Hy) as [_ Hy2].
  assert (HR : C * B + 1 <= A * D).
  { unfold A, B, C, D. rewrite <- !inject_Z_mult.
    change 1 with (inject_Z 1). rewrite <- inject_Z_plus, <- Zle_Qle. lia. }
  assert (HP : C * B <= 1125899906842624).
  { unfold B, C. rewrite <- inject_Z_mult.
    change 1125899906842624 with (inject_Z (2 ^ 50)). rewrite <- Zle_Qle. lia. }
  assert (Hk : C * B * (1 + u) < A * D * (1 - u)) by (unfold u in *; lra).
  assert (E1 : C / D * (1 + u) * (B * D) == C * B * (1 + u)) by (field; lra).
  assert (E2 : A / B * (1 - u) * (B * D) == A * D * (1 - u)) by (field; lra).
  assert (HBD : 0 < B * D) by nra.
  assert (Hmid : C / D * (1 + u) < A / B * (1 - u)).
  { apply (Qmult_lt_r _ _ (B * D)); [assumption|]. rewrite E1, E2. exact Hk. }
  lra.
Qed.

(** For sizes in range the float comparison of the two ratios decides as
    the exact comparison does. *)
Lemma ratio_gtb_exact (w h tw th : Z) :
  (0 < w)%Z -> (0 < h)%Z -> (0 < tw)%Z -> (0 < th)%Z ->
  (h * tw < 2 ^ 50)%Z -> (w * th < 2 ^ 50)%Z ->
  gtb (round64 (inject_Z w / inject_Z tw))
      (round64 (inject_Z h / inject_Z th)) = true
  <-> (h * tw < w * th)%Z.
Proof.
  intros Hw Hh Htw Hth B1 B2. unfold gtb.
  rewrite negb_true_iff.
  destruct (Z.lt_trichotomy (h * tw) (w * th)) as [Hlt|[Heq|Hgt]].
  - split; [intros _; assumption|]. intros _.
    pose proof (round64_ratio_lt w tw h th Hw Htw Hh Hth Hlt B1) as Hr.
    destruct (Qle_bool _ _) eqn:E; [|reflexivity].
    apply Qle_bool_iff in E. lra.
  - split; [|lia]. intros Hf. exfalso.
    assert (Hxy : inject_Z w / inject_Z tw == inject_Z h / inject_Z th).
    { pose proof (inject_pos tw Htw). pose proof (inject_pos th Hth).
      assert (Hm : inject_Z h * inject_Z tw == inject_Z w * inject_Z th)
        by (rewrite <- !inject_Z_mult; now rewrite Heq).
      apply (Qmult_inj_r _ _ (inject_Z tw * inject_Z th)); [nra|].
      assert (E1 : inject_Z w / inject_Z tw * (inject_Z tw * inject_Z th)
                   == inject_Z w * inject_Z th) by (field; lra).
      assert (E2 : inject_Z h / inject_Z th * (inject_Z tw * inject_Z th)
                   == inject_Z h * inject_Z tw) by (field; lra).
      rewrite E1, E2. now symmetry. }
    assert (Hpos : 0 < inject_Z w / inject_Z tw).
    { pose proof (inject_pos w Hw). pose proof (inject_pos tw Htw).
      apply Qlt_shift_div_l; lra. }
    rewrite (round64_comp _ _ Hpos Hxy) in Hf.
    assert (Ht : Qle_bool (round64 (inject_Z h / inject_Z th))
                          (round64 (inject_Z h / inject_Z th)) = true)
      by (apply Qle_bool_iff; apply Qle_refl).
    congruence.
  - split; [|lia]. intros Hf. exfalso.
    assert (Hgt' : (w * th < h * tw)%Z) by lia.
    pose proof (round64_ratio_lt h th w tw Hh Hth Hw Htw Hgt' B2) as Hr.
    assert (Ht : Qle_bool (round64 (inject_Z w / inject_Z tw))
                          (round64 (inject_Z h / inject_Z th)) = true)
      by (apply Qle_bool_iff; lra).
    congruence.
Qed.

(** A float within one unit (scaled by [m]) of the integer [n] truncates
    to a quotient of [n] by [m], or to one less than an exact quotient. *)
Lemma floor_scaled (c : Q) (n m : Z) :
  (0 < m)%Z ->
  inject_Z n - 1 < c * inject_Z m -> c * inject_Z m < inject_Z n + 1 ->
  (Qfloor c * m <= n <= (Qfloor c + 1) * m)%Z.
Proof.
  intros Hm Hlo Hhi.
  destruct (floor_bounds c) as [F1 F2].
  pose proof (inject_pos m Hm) as Pm.
  set (F := Qfloor c) in *.
  assert (H1 : inject_Z (F * m) < inject_Z (n + 1)).
  { rewrite inject_Z_mult, inject_Z_plus. change (inject_Z 1) with 1. nra. }
  assert (H2 : inject_Z (n + -1) < inject_Z ((F + 1) * m)).
  { rewrite inject_Z_mult, !inject_Z_plus.
    change (inject_Z 1) with 1. change (inject_Z (-1)) with (-1). nra. }
  rewrite <- Zlt_Qlt in H1, H2. lia.
Qed.

Lemma u_small : 0 < u /\ u <= 1 # 5.
Proof. split; [reflexivity | unfold u, Qle; simpl; lia]. Qed.

Lemma dims_product (a b : Z) :
  source_dim a -> target_dim b -> (0 < a * b < 2 ^ 50)%Z.
Proof. unfold source_dim, target_dim. intros [? ?] [? ?]. nia. Qed.

Lemma inject_product_bound (a b : Z) :
  (0 < a * b < 2 ^ 50)%Z ->
  inject_Z a * inject_Z b * (4 * u) < 1.
Proof.
  intros [H1 H2]. rewrite <- inject_Z_mult.
  assert (H : inject_Z (a * b) < inject_Z (2 ^ 50)) by now rewrite <- Zlt_Qlt.
  change (inject_Z (2 ^ 50)) with 1125899906842624 in H.
  unfold u. lra.
Qed.

(** What [resize_dims] returns, in exact integer terms: the side that
    binds takes its target, and the other side is the exact quotient
    truncated (one less, at most, when the quotient is an integer). *)
Lemma resize_dims_exact (w h tw th : Z) :
  source_dim w -> source_dim h -> target_dim tw -> target_dim th ->
  exists nw nh : Z,
    resize_dims w h tw th = Ok (nw, nh) /\
    ((h * tw < w * th /\ nw = tw /\
        nh * w <= tw * h <= (nh + 1) * w)%Z
     \/ (w * th <= h * tw /\ nh = th /\
        nw * h <= th * w <= (nw + 1) * h)%Z).
Proof.
  intros Sw Sh Ttw Tth.
  pose proof (dims_product h tw Sh Ttw) as B1.
  pose proof (dims_product w th Sw Tth) as B2.
  assert (Hw : (0 < w)%Z) by apply Sw. assert (Hh : (0 < h)%Z) by apply Sh.
  assert (Htw : (0 < tw)%Z) by apply Ttw.
  assert (Hth : (0 < th)%Z) by apply Tth.
  pose proof (inject_pos w Hw) as Pw. pose proof (inject_pos h Hh) as Ph.
  pose proof (inject_pos tw Htw) as Ptw. pose proof (inject_pos th Hth) as Pth.
  destruct u_small as [Hu0 Hu1].
  unfold resize_dims, truediv.
  rewrite (proj2 (Z.eqb_neq h 0)), (proj2 (Z.eqb_neq tw 0)),
    (proj2 (Z.eqb_neq th 0)) by lia.
  cbn [mbind result_bind].
  assert (Hr : 0 < inject_Z w / inject_Z h) by (apply Qlt_shift_div_l; lra).
  set (r := inject_Z w / inject_Z h) in *.
  pose proof (round64_error r Hr) as Ea.
  pose proof (round64_pos r Hr) as Pa.
  set (a := round64 r) in *.
  destruct (gtb _ _) eqn:Hg.
  - (* the width binds *)
    apply (ratio_gtb_exact w h tw th Hw Hh Htw Hth) in Hg; try lia.
    unfold fdiv.
    assert (Hz : Qeq_bool a 0 = false).
    { destruct (Qeq_bool a 0) eqn:E; [|reflexivity].
      apply Qeq_bool_iff in E. lra. }
    rewrite Hz. cbn [mbind result_bind].
    pose proof (round64_error _ Ptw) as ET. pose proof (round64_pos _ Ptw) as PT.
    fold (of_int tw) in ET, PT. set (T := of_int tw) in *.
    assert (Hq : 0 < T / a) by (apply Qlt_shift_div_l; lra).
    pose proof (round64_error _ Hq) as Ec. pose proof (round64_pos _ Hq) as Pc.
    set (c := round64 (T / a)) in *.
    destruct (div_chain u (inject_Z tw) r T a c Hu0 Hu1 Ptw Hr ET Ea Ec)
      as [C1 C2].
    assert (Ecr : c * r * inject_Z h == c * inject_Z w)
      by (unfold r; field; lra).
    pose proof (inject_product_bound h tw ltac:(lia)) as Hb.
    assert (K1 : inject_Z (tw * h) - 1 < c * inject_Z w).
    { rewrite inject_Z_mult, <- Ecr.
      assert (inject_Z tw * (1 - 4 * u) * inject_Z h <= c * r * inject_Z h)
        by (apply Qmult_le_compat_r; lra).
      lra. }
    assert (K2 : c * inject_Z w < inject_Z (tw * h) + 1).
    { rewrite inject_Z_mult, <- Ecr.
      assert (c * r * inject_Z h <= inject_Z tw * (1 + 4 * u) * inject_Z h)
        by (apply Qmult_le_compat_r; lra).
      lra. }
    exists tw, (trunc c). split; [reflexivity|]. left.
    rewrite trunc_floor by lra.
    split; [assumption|]. split; [reflexivity|].
    apply floor_scaled; assumption.
  - (* the height binds *)
    assert (Hle : (w * th <= h * tw)%Z).
    { destruct (Z.le_gt_cases (w * th) (h * tw)) as [?|Hc]; [assumption|].
      apply (ratio_gtb_exact w h tw th Hw Hh Htw Hth) in Hc; try lia.
      congruence. }
    unfold fmul.
    pose proof (round64_error _ Pth) as ET. pose proof (round64_pos _ Pth) as PT.
    fold (of_int th) in ET, PT. set (T := of_int th) in *.
    assert (Hq : 0 < T * a) by nra.
    pose proof (round64_error _ Hq) as Ec. pose proof (round64_pos _ Hq) as Pc.
    set (c := round64 (T * a)) in *.
    destruct (mul_chain u (inject_Z th) r T a c Hu0 Hu1 Pth Hr ET Ea Ec)
      as [C1 C2].
    assert (Ecr : inject_Z th * r * inject_Z h == inject_Z th * inject_Z w)
      by (unfold r; field; lra).
    pose proof (inject_product_bound w th ltac:(lia)) as Hb.
    assert (K1 : inject_Z (th * w) - 1 < c * inject_Z h).
    { rewrite inject_Z_mult.
      assert (inject_Z th * r * (1 - 4 * u) * inject_Z h <= c * inject_Z h)
        by (apply Qmult_le_compat_r; lra).
      nra. }
    assert (K2 : c * inject_Z h < inject_Z (th * w) + 1).
    { rewrite inject_Z_mult.
      assert (c * inject_Z h <= inject_Z th * r * (1 + 4 * u) * inject_Z h)
        by (apply Qmult_le_compat_r; lra).
      nra. }
    exists (trunc c), th. split; [reflexivity|]. right.
    rewrite trunc_floor by lra.
    split; [assumption|]. split; [reflexivity|].
    apply floor_scaled; assumption.
Qed.

End TransformerFacts.

(** ** The claims on the resize geometry *)

Module TransformerClaims.
Import Float64 Transformer TransformerFacts.

(** The double rounding of [int(new_height * aspect_ratio)] can fall one
    below an exact integer quotient: resizing 1x49 to 1x49 gives width 0. *)
Example resize_dims_double_rounding :
  resize_dims 1 49 1 49 = Ok (0, 49).
Proof. vm_compute. reflexivity. Qed.

(** C2, as stated, fails: for a 3x2 source and a 4x4 target the width
    binds and the code computes the height [int(4 / 1.5) = 2], where the
    rounded quotient of the specification is 3. *)
Lemma c2_truncates_not_rounds :
  resize_dims 3 2 4 4 = Ok (4, 2) /\
  spec_resize_dims 3 2 4 4 = Ok (4, 3) /\
  resize_dims 3 2 4 4 <> spec_resize_dims 3 2 4 4.
Proof.
  assert (H1 : resize_dims 3 2 4 4 = Ok (4, 2)) by (vm_compute; reflexivity).
  assert (H2 : spec_resize_dims 3 2 4 4 = Ok (4, 3))
    by (vm_compute; reflexivity).
  repeat split; try assumption. rewrite H1, H2. discriminate.
Qed.

(** C2 (amended): for a source and targets in range, if
    imageWidth/targetWidth > imageHeight/targetHeight the resize takes
    newWidth = targetWidth and newHeight is newWidth/aspectRatio truncated
    to an integer, newHeight <= targetWidth*imageHeight/imageWidth <=
    newHeight + 1; otherwise newHeight = targetHeight and newWidth is
    newHeight*aspectRatio truncated, newWidth <=
    targetHeight*imageWidth/imageHeight <= newWidth + 1. *)
Theorem c2_resize_truncates (imageWidth imageHeight targetWidth targetHeight : Z) :
  source_dim imageWidth -> source_dim imageHeight ->
  target_dim targetWidth -> target_dim targetHeight ->
  (imageHeight * targetWidth < imageWidth * targetHeight ->
   exists newHeight,
     resize_dims imageWidth imageHeight targetWidth targetHeight
       = Ok (targetWidth, newHeight) /\
     newHeight * imageWidth <= targetWidth * imageHeight
       <= (newHeight + 1) * imageWidth) /\
  (imageWidth * targetHeight <= imageHeight * targetWidth ->
   exists newWidth,
     resize_dims imageWidth imageHeight targetWidth targetHeight
       = Ok (newWidth, targetHeight) /\
     newWidth * imageHeight <= targetHeight * imageWidth
       <= (newWidth + 1) * imageHeight).
Proof.
  intros Sw Sh Ttw Tth.
  destruct (resize_dims_exact _ _ _ _ Sw Sh Ttw Tth)
    as (nw & nh & Hr & [(Hc & -> & Hb) | (Hc & -> & Hb)]).
  - split; intros Hcmp; [|lia]. exists nh. split; assumption.
  - split; intros Hcmp; [lia|]. exists nw. split; assumption.
Qed.

Lemma c2_resize_truncates_witness :
  source_dim 3 /\ source_dim 2 /\ target_dim 4 /\ target_dim 4 /\
  (2 * 4 < 3 * 4 ->
   exists newHeight,
     resize_dims 3 2 4 4 = Ok (4, newHeight) /\
     newHeight * 3 <= 4 * 2 <= (newHeight + 1) * 3).
Proof.
  assert (S3 : source_dim 3) by (unfold source_dim; lia).
  assert (S2 : source_dim 2) by (unfold source_dim; lia).
  assert (T4 : target_dim 4) by (unfold target_dim; lia).
  repeat split; try assumption.
  exact (proj1 (c2_resize_truncates 3 2 4 4 S3 S2 T4 T4)).
Defined.

(** C3, as stated, fails: a 2560x1600 source already has the aspect ratio
    of the 1280x800 target, and both final dimensions equal their
    targets. *)
Lemma c3_both_sides_can_bind :
  resize_dims 2560 1600 1280 800 = Ok (1280, 800) /\
  ~ exactly_one_binds 1280 800 1280 800.
Proof.
  split; [vm_compute; reflexivity|].
  unfold exactly_one_binds. lia.
Qed.

(** C3 (amended): for a source and targets in range the final width is at
    most the target width, the final height is at most the target height,
    and at least one of the two equals its target: exactly one when the
    aspect ratios of the source and of the target differ; when they are
    equal, the height equals its target and the width equals its target
    or falls one short of it. *)
Theorem c3_fits_target (imageWidth imageHeight targetWidth targetHeight : Z) :
  source_dim imageWidth -> source_dim imageHeight ->
  target_dim targetWidth -> target_dim targetHeight ->
  exists newWidth newHeight,
    resize_dims imageWidth imageHeight targetWidth targetHeight
      = Ok (newWidth, newHeight) /\
    0 <= newWidth <= targetWidth /\
    0 <= newHeight <= targetHeight /\
    (newWidth = targetWidth \/ newHeight = targetHeight) /\
    (imageWidth * targetHeight <> imageHeight * targetWidth ->
     exactly_one_binds targetWidth targetHeight newWidth newHeight) /\
    (imageWidth * targetHeight = imageHeight * targetWidth ->
     newHeight = targetHeight /\ targetWidth - 1 <= newWidth).
Proof.
  intros Sw Sh Ttw Tth.
  destruct (resize_dims_exact _ _ _ _ Sw Sh Ttw Tth)
    as (nw & nh & Hr & [(Hc & -> & Hb) | (Hc & -> & Hb)]);
    unfold source_dim, target_dim, exactly_one_binds in *.
  - exists targetWidth, nh. split; [assumption|].
    split; [lia|]. split; [nia|]. split; [now left|].
    split; [|lia]. intros _. left. split; [reflexivity|]. nia.
  - exists nw, targetHeight. split; [assumption|].
    split; [nia|]. split; [lia|]. split; [now right|].
    split.
    + intros Hne. right. split; [|reflexivity]. nia.
    + intros Heq. split; [reflexivity|]. nia.
Qed.

(** A 4032x3024 source into 1280x800: the height binds and the width is
    1066.  A 226x200 source into 113x100, the same aspect ratio: the
    height binds and the width falls one short of 113. *)
Lemma c3_fits_target_witness :
  resize_dims 4032 3024 1280 800 = Ok (1066, 800) /\
  exactly_one_binds 1280 800 1066 800 /\
  resize_dims 226 200 113 100 = Ok (112, 100).
Proof.
  assert (S1 : source_dim 4032) by (unfold source_dim; lia).
  assert (S2 : source_dim 3024) by (unfold source_dim; lia).
  assert (T1 : target_dim 1280) by (unfold target_dim; lia).
  assert (T2 : target_dim 800) by (unfold target_dim; lia).
  destruct (c3_fits_target 4032 3024 1280 800 S1 S2 T1 T2)
    as (nw & nh & Hr & _ & _ & _ & Hone & _).
  assert (E : resize_dims 4032 3024 1280 800 = Ok (1066, 800))
    by (vm_compute; reflexivity).
  rewrite E in Hr. injection Hr as <- <-.
  split; [reflexivity|]. split; [apply Hone; lia|].
  vm_compute. reflexivity.
Defined.

End TransformerClaims.

(** ** Facts about the metadata resolver *)

Module MetadataFacts.
Import Float64 Paths World Metadata.
Local Open Scope string_scope.
Local Open Scope list_scope.
Local Open Scope Z_scope.

Lemma dict_get_absent {V : Type} (key : Z) (d : list (Z * V)) :
  key ∉ d.*1 -> dict_get Z.eqb key d = None.
Proof.
  induction d as [|[k v] d IH]; intros Hk; [reflexivity|].
  cbn in *. apply not_elem_of_cons in Hk as [Hne Hk].
  destruct (Z.eqb_spec k key); [congruence | auto].
Qed.

Lemma dict_get_present {V : Type} (key : Z) (v : V) (d : list (Z * V)) :
  dict_get Z.eqb key d = Some v -> key ∈ d.*1.
Proof.
  induction d as [|[k w] d IH]; [discriminate|].
  cbn. destruct (Z.eqb_spec k key); intros H.
  - subst. apply elem_of_cons. now left.
  - apply elem_of_cons. right. auto.
Qed.

(** [for key in data.keys()] ends with each variable at the entry of its
    tag, when the directory has one. *)
Lemma scan_gps_lookup (gps : list (Z * gps_value)) (t : gps_tags) :
  NoDup gps.*1 ->
  let t' := fold_left scan_gps_entry gps t in
  gps_lat t' = from_option Some (gps_lat t) (dict_get Z.eqb GPSLatitude gps) /\
  gps_lat_ref t'
    = from_option Some (gps_lat_ref t) (dict_get Z.eqb GPSLatitudeRef gps) /\
  gps_lon t' = from_option Some (gps_lon t) (dict_get Z.eqb GPSLongitude gps) /\
  gps_lon_ref t'
    = from_option Some (gps_lon_ref t) (dict_get Z.eqb GPSLongitudeRef gps).
Proof.
  revert t. induction gps as [|[k v] gps IH]; intros t Hnd; [easy|].
  cbn [fmap list_fmap fst] in Hnd. apply NoDup_cons in Hnd as [Hk Hnd].
  cbn [fold_left]. specialize (IH (scan_gps_entry t (k, v)) Hnd).
  cbn zeta in IH. destruct IH as (I1 & I2 & I3 & I4).
  cbn zeta. rewrite I1, I2, I3, I4. clear I1 I2 I3 I4.
  unfold scan_gps_entry, GPSLatitude, GPSLatitudeRef, GPSLongitude,
    GPSLongitudeRef in *.
  cbn [dict_get].
  destruct (Z.eqb_spec k 2) as [->|N2].
  { rewrite (dict_get_absent 2 gps Hk). cbn.
    destruct (dict_get Z.eqb 1 gps), (dict_get Z.eqb 4 gps),
      (dict_get Z.eqb 3 gps); easy. }
  destruct (Z.eqb_spec k 1) as [->|N1].
  { rewrite (dict_get_absent 1 gps Hk). cbn.
    destruct (dict_get Z.eqb 2 gps), (dict_get Z.eqb 4 gps),
      (dict_get Z.eqb 3 gps); easy. }
  destruct (Z.eqb_spec k 4) as [->|N4].
  { rewrite (dict_get_absent 4 gps Hk). cbn.
    destruct (dict_get Z.eqb 2 gps), (dict_get Z.eqb 1 gps),
      (dict_get Z.eqb 3 gps); easy. }
  destruct (Z.eqb_spec k 3) as [->|N3].
  { rewrite (dict_get_absent 3 gps Hk). cbn.
    destruct (dict_get Z.eqb 2 gps), (dict_get Z.eqb 1 gps),
      (dict_get Z.eqb 4 gps); easy. }
  easy.
Qed.

Lemma scan_exif_no_gps (exif : exif_dict) (t : gps_tags) :
  GPSInfo ∉ exif.*1 -> scan_exif exif t = Ok t.
Proof.
  revert t. induction exif as [|[k v] exif IH]; intros t Hk; [reflexivity|].
  cbn in Hk. apply not_elem_of_cons in Hk as [Hne Hk].
  cbn [scan_exif scan_exif_entry].
  destruct (Z.eqb_spec k GPSInfo); [congruence|].
  cbn. now apply IH.
Qed.

(** [for tag_id in exif] runs the inner scan on the GPS directory. *)
Lemma scan_exif_lookup (exif : exif_dict) (gps : list (Z * gps_value))
  (t : gps_tags) :
  NoDup exif.*1 ->
  dict_get Z.eqb GPSInfo exif = Some (ExifIFD gps) ->
  scan_exif exif t = Ok (fold_left scan_gps_entry gps t).
Proof.
  revert t. induction exif as [|[k v] exif IH]; intros t Hnd Hget;
    [discriminate|].
  cbn [fmap list_fmap fst] in Hnd. apply NoDup_cons in Hnd as [Hk Hnd].
  cbn [dict_get] in Hget. cbn [scan_exif scan_exif_entry].
  destruct (Z.eqb_spec k GPSInfo) as [->|Hne].
  - injection Hget as ->. cbn. now apply scan_exif_no_gps.
  - cbn. now apply IH.
Qed.

Lemma convert_triple (l : list Q) :
  (3 <= length l)%nat ->
  exists deg, _convert_to_degrees (GpsRationals l) = Ok deg.
Proof.
  destruct l as [|d [|m [|s l]]]; cbn; try lia. intros _.
  eexists. reflexivity.
Qed.

Lemma ref_differs_false (ref : option gps_value) (s : string) :
  ref_differs ref s = false <-> ref = Some (GpsText s).
Proof.
  unfold ref_differs. destruct ref as [[t|l]|]; try easy.
  rewrite negb_false_iff, String.eqb_eq. split; congruence.
Qed.

Lemma truthy_triple (l : list Q) :
  (3 <= length l)%nat -> truthy (Some (GpsRationals l)) = true.
Proof. destruct l; cbn; [lia | reflexivity]. Qed.

End MetadataFacts.

(** ** The claims on the metadata resolver *)

Module MetadataClaims.
Import Float64 Paths World Metadata MetadataFacts Samples.
Local Open Scope string_scope.
Local Open Scope list_scope.
Local Open Scope Z_scope.

(** C9: when the EXIF data holds both coordinate triples, the latitude
    returned is the converted value itself when its reference is the
    string 'N' and the opposite number, minus that value, whenever the
    reference is anything else, also when the reference tag is absent;
    likewise the longitude, with 'E'.  The coordinates are returned in
    every case, without a log record. *)
Theorem c9_reference_other_than_N_E_negates
  (img : photo) (exif : exif_dict) (gps : list (Z * gps_value))
  (lat_triple lon_triple : list Q) :
  getexif img = Ok (Some exif) ->
  NoDup exif.*1 -> NoDup gps.*1 ->
  dict_get Z.eqb GPSInfo exif = Some (ExifIFD gps) ->
  dict_get Z.eqb GPSLatitude gps = Some (GpsRationals lat_triple) ->
  dict_get Z.eqb GPSLongitude gps = Some (GpsRationals lon_triple) ->
  (3 <= length lat_triple)%nat -> (3 <= length lon_triple)%nat ->
  let lat_ref := dict_get Z.eqb GPSLatitudeRef gps in
  let lon_ref := dict_get Z.eqb GPSLongitudeRef gps in
  exists deg_lat deg_lon lat lon,
    _convert_to_degrees (GpsRationals lat_triple) = Ok deg_lat /\
    _convert_to_degrees (GpsRationals lon_triple) = Ok deg_lon /\
    _get_gps_coordinates img = (Some (lat, lon), []) /\
    (lat_ref = Some (GpsText "N") -> lat = deg_lat) /\
    (lat_ref <> Some (GpsText "N") ->
     lat = (- deg_lat)%Q /\ (lat + deg_lat == 0)%Q) /\
    (lat_ref = None -> lat = (- deg_lat)%Q) /\
    (lon_ref = Some (GpsText "E") -> lon = deg_lon) /\
    (lon_ref <> Some (GpsText "E") ->
     lon = (- deg_lon)%Q /\ (lon + deg_lon == 0)%Q) /\
    (lon_ref = None -> lon = (- deg_lon)%Q).
Proof.
  intros Hexif Hnd1 Hnd2 Hinfo Hlat Hlon Llat Llon lat_ref lon_ref.
  destruct (convert_triple _ Llat) as [dlat Hdlat].
  destruct (convert_triple _ Llon) as [dlon Hdlon].
  pose proof (scan_gps_lookup gps no_gps_tags Hnd2) as Hscan.
  cbn zeta in Hscan. destruct Hscan as (S1 & S2 & S3 & S4).
  rewrite Hlat in S1. rewrite Hlon in S3. cbn in S1, S2, S3, S4.
  assert (Hbody : gps_body img =
    Ok (Some (if ref_differs lat_ref "N" then fopp dlat else dlat,
              if ref_differs lon_ref "E" then fopp dlon else dlon))).
  { unfold gps_body. rewrite Hexif. cbn [mbind result_bind].
    destruct exif as [|kv exif']; [discriminate|].
    rewrite (scan_exif_lookup _ gps no_gps_tags Hnd1 Hinfo).
    cbn [mbind result_bind]. rewrite S1, S3.
    rewrite (truthy_triple _ Llat), (truthy_triple _ Llon).
    cbn [andb]. rewrite Hdlat, Hdlon. cbn [mbind result_bind].
    rewrite S2, S4.
    destruct (dict_get Z.eqb GPSLatitudeRef gps),
      (dict_get Z.eqb GPSLongitudeRef gps); reflexivity. }
  exists dlat, dlon,
    (if ref_differs lat_ref "N" then fopp dlat else dlat),
    (if ref_differs lon_ref "E" then fopp dlon else dlon).
  split; [assumption|]. split; [assumption|].
  split; [unfold _get_gps_coordinates; now rewrite Hbody|].
  unfold fopp.
  repeat split.
  - intros H. now rewrite (proj2 (ref_differs_false _ _) H).
  - destruct (ref_differs lat_ref "N") eqn:E; [reflexivity|].
    now apply ref_differs_false in E.
  - destruct (ref_differs lat_ref "N") eqn:E; [ring|].
    now apply ref_differs_false in E.
  - intros ->. reflexivity.
  - intros H. now rewrite (proj2 (ref_differs_false _ _) H).
  - destruct (ref_differs lon_ref "E") eqn:E; [reflexivity|].
    now apply ref_differs_false in E.
  - destruct (ref_differs lon_ref "E") eqn:E; [ring|].
    now apply ref_differs_false in E.
  - intros ->. reflexivity.
Qed.

(** The example of the specification, 40 26 46 N and 79 56 55 W. *)
Example degrees_of_the_example :
  exists lat lon,
    _convert_to_degrees (GpsRationals [40 # 1; 26 # 1; 46 # 1]%Q) = Ok lat /\
    _convert_to_degrees (GpsRationals [79 # 1; 56 # 1; 55 # 1]%Q) = Ok lon /\
    coordinates_text (lat, fopp lon) = "40.4461, -79.9486".
Proof. eexists _, _. repeat split. Qed.

(** The directory of the example carries no reference tags: 40 26 46 and
    79 56 55 come out as the binary64 numbers -40.44611111111111 and
    -79.94861111111112, south and west. *)
Lemma c9_reference_other_than_N_E_negates_witness :
  _convert_to_degrees (GpsRationals [40 # 1; 26 # 1; 46 # 1]%Q)
    = Ok (2846142045759151 # 70368744177664)%Q /\
  _convert_to_degrees (GpsRationals [79 # 1; 56 # 1; 55 # 1]%Q)
    = Ok (1406470840659331 # 17592186044416)%Q /\
  _get_gps_coordinates
    (snapshot "trip/IMG_0001.jpg" 4032 3024 900000
       (Ok (Some exif_without_refs)))
    = (Some ((- 2846142045759151 # 70368744177664)%Q,
             (- 1406470840659331 # 17592186044416)%Q), []).
Proof.
  assert (Hnd1 : NoDup exif_without_refs.*1)
    by (apply (bool_decide_unpack (NoDup _)); vm_compute; exact I).
  assert (Hnd2 : NoDup gps_without_refs.*1)
    by (apply (bool_decide_unpack (NoDup _)); vm_compute; exact I).
  destruct (c9_reference_other_than_N_E_negates
              (snapshot "trip/IMG_0001.jpg" 4032 3024 900000
                 (Ok (Some exif_without_refs)))
              exif_without_refs gps_without_refs
              [40 # 1; 26 # 1; 46 # 1]%Q [79 # 1; 56 # 1; 55 # 1]%Q
              eq_refl Hnd1 Hnd2 eq_refl eq_refl eq_refl
              ltac:(cbn; lia) ltac:(cbn; lia))
    as (dlat & dlon & lat & lon & H1 & H2 & H3 & _ & _ & H4 & _ & _ & H5).
  assert (E1 : _convert_to_degrees (GpsRationals [40 # 1; 26 # 1; 46 # 1]%Q)
               = Ok (2846142045759151 # 70368744177664)%Q)
    by (vm_compute; reflexivity).
  assert (E2 : _convert_to_degrees (GpsRationals [79 # 1; 56 # 1; 55 # 1]%Q)
               = Ok (1406470840659331 # 17592186044416)%Q)
    by (vm_compute; reflexivity).
  rewrite E1 in H1. rewrite E2 in H2.
  injection H1 as <-. injection H2 as <-.
  split; [exact E1|]. split; [exact E2|].
  rewrite H3. now rewrite (H4 eq_refl), (H5 eq_refl).
Defined.

End MetadataClaims.

(** ** Facts about the caption engine *)

Module CaptionFacts.
Import Float64 Float64Facts Imaging World Metadata Caption.
Local Open Scope string_scope.
Local Open Scope list_scope.
Local Open Scope Z_scope.






(** What [add_caption] computes, step by step. *)
Lemma add_caption_inv (e : env) (img : photo) (resized_img : grid)
  (new_width new_height : Z) (date_format caption_position : string)
  (font_size : Z) (font_path : option string) (cap : caption)
  (records : list log_record) :
  add_caption e img resized_img new_width new_height date_format
    caption_position font_size font_path = Ok (cap, records) ->
  pixel_average e (sample_region resized_img new_width new_height)
    = Ok (avg_color cap) /\
  text_color cap = text_color_for (avg_color cap) /\
  outline_color cap = outline_color_for (text_color cap) /\
  exists date_obj date_text,
    capture_time e img = Ok date_obj /\
    strftime e date_obj date_format = Ok date_text /\
    let location_text :=
      match (_get_gps_coordinates img).1 with
      | Some c => (_get_location_name e c).1
      | None => None
      end in
    text_lines cap =
      match location_text with
      | Some l => if String.eqb l "" then [date_text] else [date_text; l]
      | None => [date_text]
      end.
Proof.
  unfold add_caption. intros H.
  destruct (pixel_average e _) as [avg|] eqn:Havg; [|discriminate].
  cbn [mbind result_bind] in H.
  destruct (load_font e font_path font_size) as [fnt|]; [|discriminate].
  cbn [mbind result_bind] in H.
  destruct (capture_time e img) as [date_obj|] eqn:Hdate; [|discriminate].
  cbn [mbind result_bind] in H.
  destruct (strftime e date_obj date_format) as [date_text|] eqn:Hfmt;
    [|discriminate].
  cbn [mbind result_bind] in H.
  destruct (_get_gps_coordinates img) as [coordinates log1].
  destruct coordinates as [c|].
  - destruct (_get_location_name e c) as [location_text log2] eqn:Hloc.
    injection H as <- <-. cbn.
    repeat split. exists date_obj, date_text.
    split; [reflexivity|]. split; [assumption|]. now rewrite Hloc.
  - injection H as <- <-. cbn.
    repeat split. exists date_obj, date_text.
    split; [reflexivity|]. split; [assumption|]. reflexivity.
Qed.


(** *** The luminance, to seven units of roundoff *)






End CaptionFacts.

(** ** The claims on the caption engine and the place name *)

Module CaptionClaims.
Import Float64 Float64Facts Imaging World Metadata Caption CaptionFacts Samples.
Local Open Scope string_scope.
Local Open Scope list_scope.
Local Open Scope Z_scope.

(** The luminance is computed in binary64: for the colour (218, 58, 248)
    the exact value is one half, the computed one lies just above. *)
Example luminance_at_the_threshold :
  299 * 218 + 587 * 58 + 114 * 248 = 127500 /\
  (1 # 2 < luminance (218, 58, 248)%Z)%Q /\
  text_color_for (218, 58, 248) = black.
Proof. split; [reflexivity|]. split; vm_compute; reflexivity. Qed.




(** C5, as stated, fails: a failure of the lookup that is none of the
    three named ones also yields the formatted coordinates, not the
    absence of a location. *)
Lemma c5_other_failure_keeps_coordinates :
  _get_location_name (world (GeoRaises RuntimeError))
    (literal 1234 100, literal 5678 100)
  = (Some "12.3400, 56.7800", [FailedToGetLocationName RuntimeError]).
Proof. vm_compute. reflexivity. Qed.

(** C5 (amended): a provider timeout, a provider-unavailable error, a
    transport failure and every other exception, of the lookup or of the
    loading of the geocoding library, yield the string
    "{lat:.4f}, {lon:.4f}" ((12.34, 56.78) gives "12.3400, 56.7800").  No
    location results only when the lookup returns nothing or a result
    without address, and the caption then has the timestamp line only. *)
Theorem c5_every_failure_falls_back (e : env) (coordinates : float * float) :
  (forall x,
     import_geopy e = Raise x \/
     (import_geopy e = Ok tt /\ reverse e coordinates = GeoRaises x) ->
     (_get_location_name e coordinates).1
       = Some (coordinates_text coordinates)) /\
  ((_get_location_name e coordinates).1 = None <->
   import_geopy e = Ok tt /\
   (reverse e coordinates = GeoNone \/
    exists display, reverse e coordinates = GeoLocation [] display)) /\
  coordinates_text (literal 1234 100, literal 5678 100) = "12.3400, 56.7800" /\
  (forall img resized_img new_width new_height date_format caption_position
          font_size font_path cap records,
     add_caption e img resized_img new_width new_height date_format
       caption_position font_size font_path = Ok (cap, records) ->
     (_get_gps_coordinates img).1 = Some coordinates ->
     (_get_location_name e coordinates).1 = None ->
     length (text_lines cap) = 1%nat).
Proof.
  split; [|split; [|split]].
  - intros x [Himp | [Himp Hrev]]; unfold _get_location_name; rewrite Himp.
    + reflexivity.
    + rewrite Hrev. destruct x; reflexivity.
  - unfold _get_location_name.
    destruct (import_geopy e) as [[]|x] eqn:Himp.
    + destruct (reverse e coordinates) as [x| |address display] eqn:Hrev.
      * split; [destruct x; discriminate|].
        intros [_ [H | [d H]]]; discriminate.
      * split; [intros _|reflexivity]. split; [reflexivity|now left].
      * destruct address as [|kv address].
        -- split; [intros _|reflexivity].
           split; [reflexivity|]. right. now exists display.
        -- split.
           ++ cbv zeta.
              set (city := str_or _ _).
              destruct (str_truthy city) eqn:Ht; cbn [fst]; [|discriminate].
              intros Hc. rewrite Hc in Ht. discriminate.
           ++ intros [_ [H | [d H]]]; discriminate.
    + split; [discriminate | intros [H _]; discriminate].
  - vm_compute. reflexivity.
  - intros img resized_img new_width new_height date_format
      caption_position font_size font_path cap records Hcap Hgps Hloc.
    destruct (add_caption_inv _ _ _ _ _ _ _ _ _ _ _ Hcap)
      as (_ & _ & _ & date_obj & date_text & _ & _ & Hlines).
    cbn zeta in Hlines. rewrite Hgps, Hloc in Hlines.
    now rewrite Hlines.
Qed.

(** The scenario of the specification: the lookup times out at
    (12.34, 56.78). *)
Lemma c5_every_failure_falls_back_witness :
  (_get_location_name (world (GeoRaises GeocoderTimedOut))
     (literal 1234 100, literal 5678 100)).1
  = Some "12.3400, 56.7800".
Proof.
  pose proof (c5_every_failure_falls_back
                (world (GeoRaises GeocoderTimedOut))
                (literal 1234 100, literal 5678 100)) as (H & _ & Htext & _).
  rewrite <- Htext. apply (H GeocoderTimedOut). right. split; reflexivity.
Defined.

End CaptionClaims.

(** ** Facts about the selector *)

Module SelectorFacts.
Import World Pipeline.
Local Open Scope list_scope.

Section Sample.
Context {A : Type}.
Implicit Types (pool : list A) (draws : list nat).

(** One draw: the element picked and the pool it leaves make up the pool
    it was picked from. *)
Lemma draw_permutation pool (j : nat) (x y : A) :
  pool !! j = Some x ->
  pool !! (length pool - 1)%nat = Some y ->
  x :: take (length pool - 1) (<[j := y]> pool) ≡ₚ pool.
Proof.
  intros Hj Hlast.
  assert (Hn : (0 < length pool)%nat)
    by (apply lookup_lt_Some in Hj; lia).
  assert (Hdrop : drop (length pool - 1) pool = [y]).
  { apply list_eq. intros [|i].
    - rewrite lookup_drop, Nat.add_0_r. exact Hlast.
    - rewrite lookup_drop. cbn. apply lookup_ge_None. lia. }
  assert (Hsplit : exists init, pool = init ++ [y]).
  { exists (take (length pool - 1) pool).
    rewrite <- Hdrop. symmetry. apply take_drop. }
  destruct Hsplit as [init ->]. clear Hdrop Hn.
  rewrite length_app in *. cbn [length] in *.
  replace (length init + 1 - 1)%nat with (length init) in * by lia.
  destruct (decide (j = length init)) as [->|Hne].
  - rewrite Hlast in Hj. injection Hj as <-.
    rewrite list_insert_id by assumption.
    rewrite take_app_length. apply Permutation_cons_append.
  - assert (Hlt : (j < length init)%nat)
      by (apply lookup_lt_Some in Hj; rewrite length_app in Hj; cbn in Hj; lia).
    rewrite lookup_app_l in Hj by assumption.
    rewrite insert_app_l by assumption.
    rewrite take_app_length' by (now rewrite length_insert).
    rewrite <- Permutation_cons_append.
    rewrite insert_take_drop by assumption.
    rewrite <- (take_drop_middle init j x Hj) at 3.
    rewrite <- !Permutation_middle. apply perm_swap.
Qed.

Lemma sample_from_length pool (k : nat) draws :
  (k <= length pool)%nat -> length (sample_from pool k draws) = k.
Proof.
  revert pool draws. induction k as [|k IH]; intros pool draws Hk;
    [reflexivity|].
  cbn [sample_from].
  assert (Hj : (hd O draws mod length pool < length pool)%nat)
    by (apply Nat.mod_upper_bound; lia).
  destruct (lookup_lt_is_Some_2 pool _ Hj) as [x Hx].
  destruct (lookup_lt_is_Some_2 pool (length pool - 1) ltac:(lia))
    as [y Hy].
  rewrite Hx, Hy. cbn. f_equal. apply IH.
  rewrite length_take, length_insert. lia.
Qed.

Lemma sample_from_submseteq pool (k : nat) draws :
  (k <= length pool)%nat -> sample_from pool k draws ⊆+ pool.
Proof.
  revert pool draws. induction k as [|k IH]; intros pool draws Hk;
    [apply submseteq_nil_l|].
  cbn [sample_from].
  assert (Hj : (hd O draws mod length pool < length pool)%nat)
    by (apply Nat.mod_upper_bound; lia).
  destruct (lookup_lt_is_Some_2 pool _ Hj) as [x Hx].
  destruct (lookup_lt_is_Some_2 pool (length pool - 1) ltac:(lia))
    as [y Hy].
  rewrite Hx, Hy.
  etrans; [|apply Permutation_submseteq, (draw_permutation pool _ x y Hx Hy)].
  apply submseteq_skip, IH.
  rewrite length_take, length_insert. lia.
Qed.

End Sample.

Lemma submseteq_NoDup {A : Type} (l k : list A) :
  l ⊆+ k -> NoDup k -> NoDup l.
Proof.
  intros Hsub Hnd. apply submseteq_Permutation in Hsub as [k' Hk'].
  rewrite Hk' in Hnd. now apply NoDup_app in Hnd as (? & _ & _).
Qed.

(** The selection step: everything when the candidates fit, and
    otherwise [max_photos] of them, each taken once. *)
Lemma select_spec (image_files : list photo) (max_photos : Z)
  (draws : list nat) :
  (0 <= max_photos)%Z ->
  exists selected_images record,
    select image_files max_photos draws = Ok (selected_images, record) /\
    (Z.of_nat (length selected_images) <= max_photos)%Z /\
    ((Z.of_nat (length image_files) <= max_photos)%Z ->
     selected_images = image_files) /\
    ((max_photos < Z.of_nat (length image_files))%Z ->
     Z.of_nat (length selected_images) = max_photos /\
     selected_images ⊆+ image_files).
Proof.
  intros Hmax. unfold select.
  destruct (Z.gtb_spec (Z.of_nat (length image_files)) max_photos)
    as [Hgt|Hle].
  - unfold random_sample.
    rewrite (proj2 (Z.ltb_ge max_photos 0)) by lia.
    rewrite (proj2 (Z.ltb_ge (Z.of_nat (length image_files)) max_photos))
      by lia.
    cbn. eexists _, _. split; [reflexivity|].
    assert (Hk : (Z.to_nat max_photos <= length image_files)%nat) by lia.
    rewrite (sample_from_length _ _ draws Hk).
    split; [lia|]. split; [lia|]. intros _.
    split; [lia|]. now apply sample_from_submseteq.
  - eexists _, _. split; [reflexivity|].
    split; [lia|]. split; [reflexivity|lia].
Qed.

End SelectorFacts.

(** ** Facts about the orchestrator *)

Module PipelineFacts.
Import Float64 Paths Imaging World Metadata Caption Transformer Pipeline.
Import SelectorFacts.
Local Open Scope string_scope.
Local Open Scope list_scope.
Local Open Scope Z_scope.

Section OneRun.
Context (e : env) (temp_dir : string).
Context (target_width target_height max_file_size : Z) (o : options).

Let process (img : photo) (st : state) : option string * state :=
  image_resize_and_add_caption e img temp_dir target_width target_height
    max_file_size o st.

Let judged (img : photo) : verdict :=
  judge e img temp_dir target_width target_height max_file_size o.

Let entry (img : photo) : option string :=
  accepted_path e temp_dir target_width target_height max_file_size o img.

(** The records one image adds to the log. *)
Let records_of (img : photo) : list log_record :=
  log (process img initial).2.

(** One call: what it returns, and what it does to the state. *)
Lemma process_spec (img : photo) (st : state) :
  (process img st).1
    = match judged img with Accepted p _ => Some p | _ => None end /\
  fs (process img st).2 = leaves (judged img) (fs st) /\
  stdout (process img st).2 = stdout st /\
  log (process img st).2 = log st ++ records_of img.
Proof.
  unfold records_of, process, judged, judge, image_resize_and_add_caption,
    output_path_of.
  destruct (render e img target_width target_height o)
    as [[[[new_width new_height] overlay] records]|x]; cbn.
  - destruct (saved_bytes img) as [bytes|x]; cbn.
    + destruct (bytes >? max_file_size); cbn.
      * repeat split. apply delete_insert_eq.
        now rewrite app_assoc.
      * repeat split.
    + repeat split. now rewrite app_assoc.
  - repeat split.
Qed.

Lemma line_after_ok (max_photos : Z) (i : nat) :
  max_photos <> 0 ->
  exists line,
    line_after e max_photos i = Ok line /\
    bar_current line = Z.of_nat i + 1 /\
    bar_total line = max_photos /\
    bar_elapsed line = round_half_even (fsub (now e (S i)) (now e 0)).
Proof.
  intros Hne. unfold line_after, display_progress_bar, truediv.
  rewrite (proj2 (Z.eqb_neq max_photos 0) Hne). cbn [mbind result_bind].
  eexists. split; [reflexivity|]. cbn. repeat split. lia.
Qed.

(** The loop processes every selected image, whatever happens to each. *)
Lemma resize_loop_spec (max_photos : Z) (selected_images : list photo) :
  max_photos <> 0 ->
  forall (i : nat) (final_images : list string) (st : state),
  exists st' lines,
    resize_loop e temp_dir target_width target_height max_file_size
      max_photos o (now e 0) i selected_images final_images st
    = (Ok (final_images ++ omap entry selected_images), st') /\
    fs st' = foldl (fun files img => leaves (judged img) files) (fs st)
               selected_images /\
    stdout st' = stdout st ++ lines /\
    Forall2 (fun k line => line_after e max_photos k = Ok line)
      (seq i (length selected_images)) lines /\
    log st' = log st ++ concat (records_of <$> selected_images).
Proof.
  intros Hne. induction selected_images as [|img rest IH];
    intros i final_images st.
  - exists st, []. cbn. rewrite !app_nil_r. repeat split. constructor.
  - cbn [resize_loop].
    destruct (process_spec img st) as (Hret & Hfs & Hout & Hlog).
    fold (process img st).
    destruct (process img st) as [processed_path st1] eqn:Hp.
    cbn [fst snd] in Hret, Hfs, Hout, Hlog.
    destruct (line_after_ok max_photos i Hne) as (line & Hline & _).
    unfold line_after in Hline. rewrite Hline.
    set (final' := match processed_path with
                   | Some p => if String.eqb p "" then final_images
                               else final_images ++ [p]
                   | None => final_images
                   end).
    destruct (IH (S i) final' (print st1 line))
      as (st' & lines & Hloop & Hfs' & Hout' & Hlines & Hlog').
    exists st', (line :: lines). rewrite Hloop.
    assert (Hfinal : final' ++ omap entry rest
                     = final_images ++ omap entry (img :: rest)).
    { unfold final'. cbn [omap list_omap]. unfold entry at 2, accepted_path.
      fold (judged img). rewrite Hret.
      destruct (judged img) as [x|p b|p f]; try reflexivity.
      destruct (String.eqb p ""); [reflexivity|].
      now rewrite <- app_assoc. }
    rewrite <- Hfinal. split; [reflexivity|].
    cbn [print fs stdout log] in Hfs', Hout', Hlog'.
    split; [cbn; now rewrite Hfs', Hfs|].
    split; [rewrite Hout', Hout, <- app_assoc; reflexivity|].
    split.
    + cbn. constructor; assumption.
    + rewrite Hlog', Hlog. cbn. now rewrite <- app_assoc.
Qed.

(** Every entry of the result is the output path of its image. *)
Lemma entry_output_path (img : photo) (p : string) :
  entry img = Some p -> p = output_path_of temp_dir img.
Proof.
  unfold entry, accepted_path, judge.
  destruct (render e img target_width target_height o)
    as [[[[new_width new_height] overlay] records]|x]; [|discriminate].
  destruct (saved_bytes img) as [bytes|x]; [|discriminate].
  destruct (bytes >? max_file_size); [discriminate|].
  destruct (String.eqb _ ""); [discriminate|]. congruence.
Qed.

Lemma entries_sublist (selected_images : list photo) :
  omap entry selected_images
    `sublist_of` (output_path_of temp_dir <$> selected_images).
Proof.
  induction selected_images as [|img rest IH]; [constructor|].
  cbn [omap list_omap fmap list_fmap].
  destruct (entry img) as [p|] eqn:E.
  - rewrite (entry_output_path img p E). now apply sublist_skip.
  - now apply sublist_cons.
Qed.

(** A verdict names the output path of its image. *)
Lemma judged_path (img : photo) :
  match judged img with
  | Failed _ => True
  | TooLarge p _ | Accepted p _ => p = output_path_of temp_dir img
  end.
Proof.
  unfold judged, judge.
  destruct (render e img target_width target_height o)
    as [[[[new_width new_height] overlay] records]|x]; [|exact I].
  destruct (saved_bytes img) as [bytes|x]; [|exact I].
  now destruct (bytes >? max_file_size).
Qed.

(** An image touches no path but its own. *)
Lemma leaves_other (img : photo) (p : string)
  (files : gmap string image_file) :
  output_path_of temp_dir img <> p ->
  leaves (judged img) files !! p = files !! p.
Proof.
  intros Hne. pose proof (judged_path img) as Hp.
  destruct (judged img) as [x|q b|q f]; cbn [leaves]; [reflexivity| |].
  - subst q. now apply lookup_delete_ne.
  - subst q. now apply lookup_insert_ne.
Qed.

Lemma run_leaves_other (selected_images : list photo) (p : string)
  (files : gmap string image_file) :
  Forall (fun img => output_path_of temp_dir img <> p) selected_images ->
  foldl (fun files img => leaves (judged img) files) files selected_images
    !! p = files !! p.
Proof.
  intros Hall. revert files.
  induction Hall as [|img rest Himg _ IH]; intros files; [reflexivity|].
  cbn [foldl]. rewrite IH. now apply leaves_other.
Qed.

(** Whatever the images, no file over the budget remains in the
    temporary directory. *)
Lemma run_within_budget (selected_images : list photo)
  (files : gmap string image_file) :
  map_Forall (fun _ f => file_bytes f <= max_file_size) files ->
  map_Forall (fun _ f => file_bytes f <= max_file_size)
    (foldl (fun files img => leaves (judged img) files) files
       selected_images).
Proof.
  revert files. induction selected_images as [|img rest IH];
    intros files Hfiles; [assumption|].
  cbn [foldl]. apply IH.
  unfold judged, judge.
  destruct (render e img target_width target_height o)
    as [[[[new_width new_height] overlay] records]|x]; [|assumption].
  destruct (saved_bytes img) as [bytes|x]; [|assumption].
  destruct (Z.gtb_spec bytes max_file_size); cbn [leaves].
  - now apply map_Forall_delete.
  - apply map_Forall_insert_2; [cbn; lia | assumption].
Qed.

End OneRun.

Lemma join_nonempty (a b : string) : a <> "" -> join a b <> "".
Proof.
  intros Ha. unfold join.
  destruct (starts_with_sep b) eqn:Hb.
  - destruct b; [discriminate|]. discriminate.
  - destruct a as [|c a]; [congruence|].
    destruct (_ || _); cbn; discriminate.
Qed.

Lemma judge_accepted (e : env) (img : photo) (temp_dir : string)
  (target_width target_height max_file_size : Z) (o : options)
  (new_width new_height : Z) (overlay : list draw_call)
  (records : list log_record) (bytes : Z) :
  render e img target_width target_height o
    = Ok (new_width, new_height, overlay, records) ->
  saved_bytes img = Ok bytes ->
  bytes <= max_file_size ->
  judge e img temp_dir target_width target_height max_file_size o
  = Accepted (output_path_of temp_dir img)
      {| file_width := new_width; file_height := new_height;
         file_overlay := overlay;
         file_quality := save_quality (basename (image_path img));
         file_bytes := bytes |}.
Proof.
  intros Hr Hs Hb. unfold judge. rewrite Hr, Hs.
  destruct (Z.gtb_spec bytes max_file_size); [lia|reflexivity].
Qed.

(** [get_image_files] returns, for every non-negative [max_photos]. *)
Lemma get_image_files_spec (e : env) (image_files : list photo)
  (draws : list nat) (max_file_size_mb max_photos : Z)
  (target_width target_height : Z) (o : options) :
  0 <= max_photos ->
  let max_file_size := max_file_size_mb * 1024 * 1024 in
  exists selected_images record st,
    select image_files max_photos draws = Ok (selected_images, record) /\
    get_image_files e image_files draws max_file_size_mb max_photos
      target_width target_height o
    = (Returned (omap (accepted_path e (mkdtemp e) target_width
                         target_height max_file_size o) selected_images),
       st) /\
    fs st = foldl (fun files img =>
                     leaves (judge e img (mkdtemp e) target_width
                               target_height max_file_size o) files)
              ∅ selected_images /\
    Forall2 (fun k line => line_after e max_photos k = Ok line)
      (seq 0 (length selected_images)) (stdout st).
Proof.
  intros Hmax max_file_size.
  destruct (select_spec image_files max_photos draws Hmax)
    as (selected_images & record & Hsel & Hlen & _).
  exists selected_images, record. unfold get_image_files. rewrite Hsel.
  destruct (decide (max_photos = 0)) as [Hz|Hnz].
  - assert (selected_images = []) as ->
      by (destruct selected_images; [reflexivity | cbn in Hlen; lia]).
    cbn. eexists. repeat split. constructor.
  - destruct (resize_loop_spec e (mkdtemp e) target_width target_height
                max_file_size o max_photos selected_images Hnz 0 []
                (logger (logger initial [record])
                        [ResizingFilesIn (mkdtemp e)]))
      as (st' & lines & Hloop & Hfs & Hout & Hlines & _).
    fold max_file_size. rewrite Hloop.
    eexists. split; [reflexivity|]. split; [reflexivity|].
    cbn [logger fs stdout]. split; [exact Hfs|].
    rewrite Hout. exact Hlines.
Qed.

End PipelineFacts.

(** ** The claims on the orchestrator *)

Module PipelineClaims.
Import Float64 Paths Imaging World Metadata Caption Transformer Pipeline.
Import SelectorFacts PipelineFacts Samples.
Local Open Scope string_scope.
Local Open Scope list_scope.
Local Open Scope Z_scope.

(** *** C1 *)

(** What holds of the size check in every run.  An image whose encoding
    exceeds the budget makes its call return None, with no file left at
    its output path and a DEBUG record in the log. *)
Lemma oversize_is_rejected (e : env) (img : photo) (temp_dir : string)
  (target_width target_height max_file_size : Z) (o : options) (st : state)
  (r : Z * Z * list draw_call * list log_record) (bytes : Z) :
  render e img target_width target_height o = Ok r ->
  saved_bytes img = Ok bytes ->
  max_file_size < bytes ->
  let after :=
    image_resize_and_add_caption e img temp_dir target_width target_height
      max_file_size o st in
  after.1 = None /\
  fs after.2 !! output_path_of temp_dir img = None /\
  last (log after.2)
    = Some (SkippingTooLarge (basename (image_path img)) bytes).
Proof.
  intros Hr Hs Hb. unfold image_resize_and_add_caption, output_path_of.
  rewrite Hr, Hs. destruct r as [[[new_width new_height] overlay] records].
  destruct (Z.gtb_spec bytes max_file_size); [|lia]. cbn.
  split; [reflexivity|]. split; [apply lookup_delete_eq|].
  apply last_snoc.
Qed.

(** Every returned path was returned for an image whose encoding is
    within the budget. *)
Lemma returned_paths_within_budget (e : env) (temp_dir : string)
  (target_width target_height max_file_size : Z) (o : options)
  (selected_images : list photo) (p : string) :
  p ∈ omap (accepted_path e temp_dir target_width target_height
              max_file_size o) selected_images ->
  exists img bytes,
    img ∈ selected_images /\
    p = output_path_of temp_dir img /\
    saved_bytes img = Ok bytes /\ bytes <= max_file_size.
Proof.
  intros Hp. apply list_elem_of_omap in Hp as (img & Hin & Hacc).
  exists img. unfold accepted_path, judge in Hacc.
  destruct (render e img target_width target_height o)
    as [[[[new_width new_height] overlay] records]|x]; [|discriminate].
  destruct (saved_bytes img) as [bytes|x]; [|discriminate].
  destruct (Z.gtb_spec bytes max_file_size); [discriminate|].
  destruct (String.eqb _ ""); [discriminate|].
  exists bytes. injection Hacc as <-. easy.
Qed.

(** No file over the budget remains in the temporary directory when
    [get_image_files] returns. *)
Lemma no_file_over_budget_remains (e : env) (image_files : list photo)
  (draws : list nat) (max_file_size_mb max_photos : Z)
  (target_width target_height : Z) (o : options) (p : string)
  (f : image_file) :
  0 <= max_photos ->
  let run :=
    get_image_files e image_files draws max_file_size_mb max_photos
      target_width target_height o in
  fs run.2 !! p = Some f -> file_bytes f <= max_file_size_mb * 1024 * 1024.
Proof.
  intros Hmax run.
  destruct (get_image_files_spec e image_files draws max_file_size_mb
              max_photos target_width target_height o Hmax)
    as (selected_images & record & st & _ & Hrun & Hfs & _).
  subst run. rewrite Hrun. cbn [snd]. rewrite Hfs.
  apply (run_within_budget e (mkdtemp e) target_width target_height _ o
           selected_images ∅ (map_Forall_empty _) p f).
Qed.

(** When the candidates have pairwise distinct output paths, every
    returned path refers to a file within the budget. *)
Lemma distinct_names_keep_accepted_outputs (e : env)
  (image_files : list photo) (draws : list nat)
  (max_file_size_mb max_photos : Z) (target_width target_height : Z)
  (o : options) (final_images : list string) (st : state) (p : string) :
  0 <= max_photos ->
  NoDup (output_path_of (mkdtemp e) <$> image_files) ->
  get_image_files e image_files draws max_file_size_mb max_photos
    target_width target_height o = (Returned final_images, st) ->
  p ∈ final_images ->
  exists f,
    fs st !! p = Some f /\ file_bytes f <= max_file_size_mb * 1024 * 1024.
Proof.
  intros Hmax Hnd Hrun Hp.
  destruct (get_image_files_spec e image_files draws max_file_size_mb
              max_photos target_width target_height o Hmax)
    as (selected_images & record & st' & Hsel & Hrun' & Hfs & _).
  rewrite Hrun in Hrun'. injection Hrun' as -> ->.
  assert (Hnd' : NoDup (output_path_of (mkdtemp e) <$> selected_images)).
  { destruct (select_spec image_files max_photos draws Hmax)
      as (selected' & record' & Hsel' & _ & Hall & Hsome).
    assert (selected' = selected_images) as -> by congruence.
    destruct (Z.le_gt_cases (Z.of_nat (length image_files)) max_photos)
      as [Hle|Hgt].
    - now rewrite (Hall Hle).
    - destruct (Hsome Hgt) as [_ Hsub].
      apply (submseteq_NoDup _ (output_path_of (mkdtemp e) <$> image_files));
        [|assumption].
      now apply fmap_submseteq. }
  apply list_elem_of_omap in Hp as (img & Hin & Hentry).
  apply list_elem_of_split in Hin as (before & after & ->).
  rewrite fmap_app, fmap_cons in Hnd'.
  apply NoDup_app in Hnd' as (_ & _ & Hnd').
  apply NoDup_cons in Hnd' as [Hnotin _].
  pose proof (entry_output_path e (mkdtemp e) _ _ _ o img p Hentry) as Hpath.
  assert (Hafter : Forall (fun c => output_path_of (mkdtemp e) c <> p) after).
  { apply Forall_forall. intros c Hc Heq. apply Hnotin.
    rewrite <- Hpath, <- Heq. apply list_elem_of_fmap. now exists c. }
  assert (Hfile : exists f, fs st' !! p = Some f).
  { rewrite Hfs, foldl_app. cbn [foldl].
    rewrite (run_leaves_other e (mkdtemp e) _ _ _ o after p _ Hafter).
    unfold accepted_path in Hentry.
    destruct (judge e img (mkdtemp e) target_width target_height
                (max_file_size_mb * 1024 * 1024) o) as [x|q b|q f];
      try discriminate.
    destruct (String.eqb q ""); [discriminate|]. injection Hentry as ->.
    exists f. apply lookup_insert_eq. }
  destruct Hfile as [f Hf]. exists f. split; [assumption|].
  apply (run_within_budget e (mkdtemp e) target_width target_height _ o
           (before ++ img :: after) ∅ (map_Forall_empty _) p f).
  now rewrite <- Hfs.
Qed.

(** C1: every path of the returned sequence should refer to an encoded
    output within the budget, and the output of a rejected image should be
    absent from it.  The code breaks this when two selected files share a
    name, here x.jpg: the first is accepted, the second exceeds the budget,
    and the call for the second returns None and removes the output file,
    which by then stands for both.  The returned sequence holds a path
    that refers to no file. *)
Theorem c1_rejection_removes_an_accepted_output :
  let run :=
    get_image_files (world GeoNone) same_name [] 3 500 64 40 defaults in
  let out := "/tmp/nix_upload_temp_k3/x.jpg" in
  (exists f,
     judge (world GeoNone) small_x (mkdtemp (world GeoNone)) 64 40
       (3 * 1024 * 1024) defaults = Accepted out f) /\
  judge (world GeoNone) large_x (mkdtemp (world GeoNone)) 64 40
    (3 * 1024 * 1024) defaults = TooLarge out 5000000 /\
  run.1 = Returned [out] /\
  fs run.2 !! out = None.
Proof.
  split; [eexists; vm_compute; reflexivity|].
  repeat split; vm_compute; reflexivity.
Qed.

(** *** C8 *)

(** In every run each line reports the count of images processed so far,
    [max_photos] as the total, and the seconds elapsed. *)
Lemma progress_lines (e : env) (image_files : list photo)
  (draws : list nat) (max_file_size_mb max_photos : Z)
  (target_width target_height : Z) (o : options) :
  0 <= max_photos ->
  exists selected_images record,
    select image_files max_photos draws = Ok (selected_images, record) /\
    let run :=
      get_image_files e image_files draws max_file_size_mb max_photos
        target_width target_height o in
    length (stdout run.2) = length selected_images /\
    forall (k : nat) line,
      stdout run.2 !! k = Some line ->
      reported line
      = (Z.of_nat k + 1, max_photos,
         round_half_even (fsub (now e (S k)) (now e 0))).
Proof.
  intros Hmax.
  destruct (get_image_files_spec e image_files draws max_file_size_mb
              max_photos target_width target_height o Hmax)
    as (selected_images & record & st & Hsel & Hrun & _ & Hlines).
  exists selected_images, record. split; [assumption|].
  rewrite Hrun. cbn [snd].
  split.
  - apply Forall2_length in Hlines. now rewrite <- Hlines, length_seq.
  - intros k line Hk.
    destruct (Forall2_lookup_r _ _ _ _ _ Hlines Hk) as (i & Hi & Hline).
    apply lookup_seq in Hi as [-> _]. cbn [Nat.add] in Hline.
    assert (Hnz : max_photos <> 0).
    { intros ->. unfold line_after, display_progress_bar in Hline.
      discriminate. }
    destruct (line_after_ok e max_photos k Hnz)
      as (line' & Hline' & H1 & H2 & H3).
    assert (line' = line) as -> by congruence.
    unfold reported. now rewrite H1, H2, H3.
Qed.

(** C8: the total reported with each progress line should be the number
    of selected candidates.  The code reports [max_photos] instead: with
    two candidates and [max_photos] = 500 both are selected, and the lines
    report 1 of 500 and 2 of 500. *)
Theorem c8_total_reported_is_max_photos :
  let run :=
    get_image_files (world GeoNone) same_name [] 3 500 64 40 defaults in
  select same_name 500 [] = Ok (same_name, SelectedAll 2) /\
  length same_name = 2%nat /\
  reported <$> stdout run.2 = [(1, 500, 1); (2, 500, 2)].
Proof. repeat split; vm_compute; reflexivity. Qed.

(** *** C4 *)






(** *** C7 *)

(** C7: a candidate list no longer than [max_photos] is selected as it
    is; from a longer one exactly [max_photos] candidates are selected,
    each once; and the returned sequence lists the accepted outputs in
    the order of the selected images (when all of them are accepted, all
    of them appear). *)
Theorem c7_selection_and_order (e : env) (image_files : list photo)
  (draws : list nat) (max_file_size_mb max_photos : Z)
  (target_width target_height : Z) (o : options) :
  0 <= max_photos ->
  NoDup (image_path <$> image_files) ->
  let max_file_size := max_file_size_mb * 1024 * 1024 in
  let entry :=
    accepted_path e (mkdtemp e) target_width target_height max_file_size o in
  exists selected_images record final_images st,
    select image_files max_photos draws = Ok (selected_images, record) /\
    (Z.of_nat (length image_files) <= max_photos ->
     selected_images = image_files) /\
    (max_photos < Z.of_nat (length image_files) ->
     Z.of_nat (length selected_images) = max_photos /\
     NoDup (image_path <$> selected_images) /\
     forall img, img ∈ selected_images -> img ∈ image_files) /\
    get_image_files e image_files draws max_file_size_mb max_photos
      target_width target_height o = (Returned final_images, st) /\
    final_images = omap entry selected_images /\
    final_images
      `sublist_of` (output_path_of (mkdtemp e) <$> selected_images) /\
    (Forall (fun img => entry img = Some (output_path_of (mkdtemp e) img))
       selected_images ->
     final_images = output_path_of (mkdtemp e) <$> selected_images).
Proof.
  intros Hmax Hnd max_file_size entry.
  destruct (get_image_files_spec e image_files draws max_file_size_mb
              max_photos target_width target_height o Hmax)
    as (selected_images & record & st & Hsel & Hrun & _).
  destruct (select_spec image_files max_photos draws Hmax)
    as (selected' & record' & Hsel' & _ & Hall & Hsome).
  assert (selected' = selected_images) as -> by congruence.
  exists selected_images, record, (omap entry selected_images), st.
  split; [assumption|]. split; [assumption|]. split.
  { intros Hlt. destruct (Hsome Hlt) as [Hlen Hsub].
    split; [assumption|]. split.
    - apply (submseteq_NoDup _ (image_path <$> image_files)); [|assumption].
      now apply fmap_submseteq.
    - intros img Hin. now apply (elem_of_submseteq _ _ _ Hin). }
  split; [exact Hrun|]. split; [reflexivity|]. split.
  { apply entries_sublist. }
  intros Hall'. clear -Hall'.
  induction Hall' as [|img rest Himg _ IH]; [reflexivity|].
  cbn [omap list_omap fmap list_fmap]. rewrite Himg. cbn. now rewrite IH.
Qed.

(** Three candidates and room for two: two distinct ones are selected. *)
Lemma c7_selection_and_order_witness :
  exists selected_images record,
    select (garbled :: same_name) 2 [7%nat; 1%nat]
      = Ok (selected_images, record) /\
    length selected_images = 2%nat /\
    NoDup (image_path <$> selected_images).
Proof.
  assert (Hnd : NoDup (image_path <$> garbled :: same_name))
    by (apply (bool_decide_unpack (NoDup _)); vm_compute; exact I).
  destruct (c7_selection_and_order (world GeoNone) (garbled :: same_name)
              [7%nat; 1%nat] 3 2 64 40 defaults ltac:(lia) Hnd)
    as (selected_images & record & final_images & st & Hsel & _ & Hmore & _).
  exists selected_images, record. split; [assumption|].
  destruct (Hmore ltac:(cbn; lia)) as (Hlen & Hnd' & _).
  split; [lia | assumption].
Defined.

(** *** C10 *)

(** C10: two selected files with the same basename, wherever they stand
    in the selection and whether the selection was sampled or is the
    whole candidate list, have the same output path in the temporary
    directory.  When both are accepted the later write replaces the
    earlier one: the returned sequence holds the path twice, and the path
    refers to the output of the one processed last. *)
Theorem c10_same_basename_same_output (e : env) (image_files : list photo)
  (before between rest : list photo) (a b : photo) (record : log_record)
  (draws : list nat) (max_file_size_mb max_photos : Z)
  (target_width target_height : Z) (o : options)
  (ra rb : Z * Z * list draw_call * list log_record) (bytes_a bytes_b : Z) :
  let max_file_size := max_file_size_mb * 1024 * 1024 in
  let out := output_path_of (mkdtemp e) b in
  let entry :=
    accepted_path e (mkdtemp e) target_width target_height max_file_size o in
  0 <= max_photos ->
  select image_files max_photos draws
  = Ok (before ++ a :: between ++ b :: rest, record) ->
  basename (image_path a) = basename (image_path b) ->
  mkdtemp e <> "" ->
  render e a target_width target_height o = Ok ra ->
  render e b target_width target_height o = Ok rb ->
  saved_bytes a = Ok bytes_a -> bytes_a <= max_file_size ->
  saved_bytes b = Ok bytes_b -> bytes_b <= max_file_size ->
  Forall (fun c => output_path_of (mkdtemp e) c <> out) rest ->
  let run :=
    get_image_files e image_files draws max_file_size_mb max_photos
      target_width target_height o in
  output_path_of (mkdtemp e) a = out /\
  run.1 = Returned (omap entry before ++ out :: omap entry between
                      ++ out :: omap entry rest) /\
  fs run.2 !! out
  = Some {| file_width := rb.1.1.1; file_height := rb.1.1.2;
            file_overlay := rb.1.2;
            file_quality := save_quality (basename (image_path b));
            file_bytes := bytes_b |}.
Proof.
  intros max_file_size out entry
    Hmax Hselect Hname Htmp Hra Hrb Hsa Hba Hsb Hbb Hrest run.
  assert (Hout : output_path_of (mkdtemp e) a = out)
    by (unfold out, output_path_of; now rewrite Hname).
  assert (Hne : out <> "") by (apply join_nonempty; assumption).
  destruct ra as [[[wa ha] ova] reca]. destruct rb as [[[wb hb] ovb] recb].
  pose proof (judge_accepted e a (mkdtemp e) _ _ _ o _ _ _ _ _ Hra Hsa Hba)
    as Ja.
  pose proof (judge_accepted e b (mkdtemp e) _ _ _ o _ _ _ _ _ Hrb Hsb Hbb)
    as Jb.
  rewrite Hout in Ja. fold out in Jb.
  destruct (get_image_files_spec e image_files draws max_file_size_mb
              max_photos target_width target_height o Hmax)
    as (selected_images & record' & st & Hsel & Hrun & Hfs & _).
  assert (selected_images = before ++ a :: between ++ b :: rest) as ->
    by congruence.
  subst run. rewrite Hrun. cbn [fst snd].
  fold max_file_size in Hfs |- *. fold entry.
  assert (Ea : entry a = Some out).
  { unfold entry, accepted_path. rewrite Ja.
    apply String.eqb_neq in Hne. now rewrite Hne. }
  assert (Eb : entry b = Some out).
  { unfold entry, accepted_path. rewrite Jb.
    apply String.eqb_neq in Hne. now rewrite Hne. }
  split; [assumption|]. split.
  - rewrite omap_app. cbn [omap list_omap].
    rewrite Ea, omap_app. cbn [omap list_omap]. now rewrite Eb.
  - rewrite Hfs.
    rewrite foldl_app. cbn [foldl]. rewrite foldl_app. cbn [foldl].
    rewrite (run_leaves_other e (mkdtemp e) _ _ _ o rest out _ Hrest).
    rewrite Jb. cbn [leaves fst snd]. apply lookup_insert_eq.
Qed.

(** Three candidates, two of them named x.jpg, and two photos to select:
    the sample takes album/c/x.jpg and then album/a/x.jpg.  Both are
    accepted, the returned sequence holds the one path twice, and the
    file there is the output of album/a/x.jpg, processed last. *)
Lemma c10_same_basename_same_output_witness :
  let third := snapshot "album/c/x.jpg" 800 600 2000 (Ok None) in
  let run :=
    get_image_files (world GeoNone) [small_x; garbled; third]
      [2%nat; 0%nat] 3 2 64 40 defaults in
  (image_path <$> [third; small_x]) = ["album/c/x.jpg"; "album/a/x.jpg"] /\
  run.1 = Returned [ "/tmp/nix_upload_temp_k3/x.jpg";
                     "/tmp/nix_upload_temp_k3/x.jpg" ] /\
  file_bytes <$> fs run.2 !! "/tmp/nix_upload_temp_k3/x.jpg" = Some 1000.
Proof.
  intros third run.
  assert (Hra : exists ra, render (world GeoNone) third 64 40 defaults
                           = Ok ra) by (eexists; vm_compute; reflexivity).
  assert (Hrb : exists rb, render (world GeoNone) small_x 64 40 defaults
                           = Ok rb) by (eexists; vm_compute; reflexivity).
  destruct Hra as [ra Hra]. destruct Hrb as [rb Hrb].
  destruct (c10_same_basename_same_output (world GeoNone)
              [small_x; garbled; third] [] [] [] third small_x
              (RandomlySelected 2) [2%nat; 0%nat] 3 2 64 40 defaults
              ra rb 2000 1000
              ltac:(lia) eq_refl eq_refl ltac:(discriminate) Hra Hrb
              eq_refl ltac:(lia) eq_refl ltac:(lia) (Forall_nil_2 _))
    as (_ & H1 & H2).
  split; [reflexivity|]. split.
  - cbn [app] in H1. subst run. rewrite H1. vm_compute. reflexivity.
  - change (output_path_of (mkdtemp (world GeoNone)) small_x)
      with "/tmp/nix_upload_temp_k3/x.jpg" in H2.
    subst run. now rewrite H2.
Defined.

End PipelineClaims.

(** ** The progress bar *)

Module ProgressProperties.
Import Float64 Float64Facts Transformer TransformerFacts Pipeline.
Local Open Scope Z_scope.

(** The ratio of a count below the total rounds to a float that is at
    most one. *)
Lemma ratio_at_most_one (c t : Z) :
  0 < c -> c <= t ->
  (0 < round64 (inject_Z c / inject_Z t) <= 1)%Q.
Proof.
  intros Hc Hct.
  pose proof (inject_pos c Hc) as Pc.
  pose proof (inject_pos t ltac:(lia)) as Pt.
  assert (Hle : (inject_Z c <= inject_Z t)%Q) by (rewrite <- Zle_Qle; lia).
  assert (Hr : (0 < inject_Z c / inject_Z t)%Q)
    by (apply Qlt_shift_div_l; lra).
  assert (Hr1 : (inject_Z c / inject_Z t <= 1)%Q)
    by (apply Qle_shift_div_r; lra).
  split; [now apply round64_pos|].
  pose proof (round64_mono _ _ Hr Hr1) as Hm.
  pose proof (round64_int 1 ltac:(lia)) as H1.
  change (inject_Z 1) with 1%Q in H1. lra.
Qed.

(** X1: for a positive total below 2^28, a positive bar width below
    2^22 and a count below 2^1000 (far beyond that, the division of the
    count by the total overflows), [display_progress_bar] prints a line;
    negative counts are shown
    as 0; the bar has exactly [bar_width] characters, dots then spaces; it
    is full exactly when the count has reached the total; and below the
    total the number of dots is the exact share [current * bar_width /
    total] truncated, or one less than that when the share is an
    integer. *)
Theorem progress_bar_geometry (prefix suffix : string)
  (start_time time_now : float) (timeout current total bar_width : Z) :
  0 < total < 2 ^ 28 -> 0 < bar_width < 2 ^ 22 -> current < 2 ^ 1000 ->
  exists line,
    display_progress_bar prefix start_time timeout current total suffix
      bar_width time_now = Ok line /\
    bar_current line = Z.max 0 current /\
    bar_total line = total /\
    bar_dots line + bar_spaces line = bar_width /\
    0 <= bar_dots line <= bar_width /\
    (total <= current -> bar_dots line = bar_width) /\
    (current < total ->
     bar_dots line < bar_width /\
     bar_dots line * total <= Z.max 0 current * bar_width
       <= (bar_dots line + 1) * total).
Proof.
  intros [Ht0 Ht1] [Hw0 Hw1] _.
  unfold display_progress_bar, truediv.
  rewrite (proj2 (Z.eqb_neq total 0)) by lia. cbn [mbind result_bind].
  set (c := Z.max 0 current).
  pose proof (inject_pos total Ht0) as Pt.
  pose proof (inject_pos bar_width Hw0) as Pw.
  pose proof (round64_int bar_width ltac:(lia)) as EW.
  fold (of_int bar_width) in EW.
  set (a := round64 (inject_Z c / inject_Z total)).
  set (pr := if gtb a 1%Q then 1%Q else a).
  set (dots := trunc (fmul pr (of_int bar_width))).
  assert (Hdots :
    0 <= dots <= bar_width /\
    (total <= current -> dots = bar_width) /\
    (current < total ->
     dots < bar_width /\ dots * total <= c * bar_width <= (dots + 1) * total)).
  { destruct (Z.le_gt_cases total current) as [Hdone|Hless].
    - (* the count has reached the total: the ratio is clamped to 1.0 *)
      assert (Hc : 0 < c) by (unfold c; lia).
      pose proof (inject_pos c Hc) as Pc.
      assert (Hr : (1 <= inject_Z c / inject_Z total)%Q).
      { apply Qle_shift_div_l; [assumption|].
        assert ((inject_Z total <= inject_Z c)%Q)
          by (rewrite <- Zle_Qle; unfold c; lia).
        lra. }
      pose proof (round64_mono 1 _ ltac:(reflexivity) Hr) as Hm.
      pose proof (round64_int 1 ltac:(lia)) as H1.
      change (inject_Z 1) with 1%Q in H1. fold a in Hm.
      assert (Hpr : (pr == 1)%Q).
      { unfold pr, gtb. destruct (Qle_bool a 1) eqn:E; cbn [negb].
        - apply Qle_bool_iff in E. lra.
        - reflexivity. }
      assert (Hx : (pr * of_int bar_width == inject_Z bar_width)%Q)
        by (rewrite Hpr, EW; ring).
      assert (Hpos : (0 < pr * of_int bar_width)%Q) by (rewrite Hx; exact Pw).
      assert (Hd : dots = bar_width).
      { unfold dots, fmul. rewrite (round64_comp _ _ Hpos Hx).
        fold (of_int bar_width).
        rewrite trunc_floor by lra.
        rewrite (Qfloor_comp _ _ EW). apply Qfloor_Z. }
      split; [lia|]. split; [intros _; exact Hd | lia].
    - destruct (Z.eq_dec c 0) as [Hz|Hnz].
      + (* nothing done yet *)
        assert (Hd : dots = 0).
        { unfold dots, pr, a. rewrite Hz. vm_compute gtb.
          unfold fmul. destruct (of_int bar_width) as [n d].
          reflexivity. }
        rewrite Hd, Hz. split; [lia|]. split; [lia|]. intros _. lia.
      + assert (Hc : 0 < c) by (unfold c in *; lia).
        assert (Hct : c < total) by (unfold c; lia).
        pose proof (inject_pos c Hc) as Pc.
        destruct (ratio_at_most_one c total Hc ltac:(lia)) as [Pa Ha1].
        fold a in Pa, Ha1.
        assert (Hpr : pr = a).
        { unfold pr, gtb.
          rewrite (proj2 (Qle_bool_iff a 1) Ha1). reflexivity. }
        assert (Hr : (0 < inject_Z c / inject_Z total)%Q)
          by (apply Qlt_shift_div_l; lra).
        set (r := (inject_Z c / inject_Z total)%Q) in *.
        pose proof (round64_error r Hr) as Ea. fold a in Ea.
        pose proof (round64_error _ Pw) as ET.
        pose proof (round64_pos _ Pw) as PT.
        fold (of_int bar_width) in ET, PT. set (T := of_int bar_width) in *.
        assert (Hq : (0 < a * T)%Q) by nra.
        assert (Hswap : (a * T == T * a)%Q) by ring.
        assert (Hq' : (0 < T * a)%Q) by nra.
        pose proof (round64_error _ Hq') as Ec.
        pose proof (round64_pos _ Hq') as Pc'.
        destruct u_small as [Hu0 Hu1].
        destruct (mul_chain u (inject_Z bar_width) r T a (round64 (T * a))
                    Hu0 Hu1 Pw Hr ET Ea Ec) as [C1 C2].
        assert (Ecr : (inject_Z bar_width * r * inject_Z total
                       == inject_Z bar_width * inject_Z c)%Q)
          by (unfold r; field; lra).
        pose proof (inject_product_bound c bar_width ltac:(nia)) as Hb.
        set (x := round64 (T * a)) in *.
        assert (K1 : (inject_Z (bar_width * c) - 1 < x * inject_Z total)%Q).
        { rewrite inject_Z_mult.
          assert ((inject_Z bar_width * r * (1 - 4 * u) * inject_Z total
                   <= x * inject_Z total)%Q)
            by (apply Qmult_le_compat_r; lra).
          nra. }
        assert (K2 : (x * inject_Z total < inject_Z (bar_width * c) + 1)%Q).
        { rewrite inject_Z_mult.
          assert ((x * inject_Z total
                   <= inject_Z bar_width * r * (1 + 4 * u) * inject_Z total)%Q)
            by (apply Qmult_le_compat_r; lra).
          nra. }
        pose proof (floor_scaled x (bar_width * c) total Ht0 K1 K2) as HF.
        assert (Hd : dots = Qfloor x).
        { unfold dots, fmul. rewrite Hpr.
          rewrite (round64_comp _ _ Hq Hswap). fold x.
          apply trunc_floor. lra. }
        assert (Hd0 : 0 <= Qfloor x).
        { rewrite <- (Qfloor_Z 0). apply Qfloor_resp_le.
          change (inject_Z 0) with 0%Q. lra. }
        rewrite Hd.
        split; [nia|]. split; [lia|]. intros _. split; nia. }
  eexists. split; [reflexivity|]. cbn.
  fold c a pr dots.
  destruct Hdots as (H1 & H2 & H3).
  split; [reflexivity|]. split; [reflexivity|].
  split; [lia|]. split; [exact H1|]. split; [exact H2 | exact H3].
Qed.

(** Twenty-nine of fifty: the share is 29 dots exactly, and the bar shows
    28. *)
Lemma progress_bar_geometry_witness :
  exists line,
    display_progress_bar "Resizing" 0%Q 0 29 50 "" 50 0%Q = Ok line /\
    bar_dots line = 28 /\ bar_spaces line = 22.
Proof.
  destruct (progress_bar_geometry "Resizing" "" 0%Q 0%Q 0 29 50 50
              ltac:(lia) ltac:(lia) eq_refl)
    as (line & Hline & _).
  exists line. split; [exact Hline|].
  assert (E : display_progress_bar "Resizing" 0%Q 0 29 50 "" 50 0%Q
              = Ok {| bar_prefix := "Resizing"; bar_dots := 28;
                      bar_spaces := 22; bar_current := 29; bar_total := 50;
                      bar_elapsed := 0; bar_timeout := None;
                      bar_suffix := "" |})
    by (vm_compute; reflexivity).
  rewrite E in Hline. injection Hline as <-. split; reflexivity.
Defined.

End ProgressProperties.

(** ** The conversion of GPS triples *)

Module DegreesProperties.
Import Float64 Float64Facts World Metadata Rationals.
Local Open Scope Q_scope.

Lemma rational32_nonneg (q : Q) : rational32 q -> 0 <= q.
Proof. intros [[H _] _]. unfold Qle. cbn. lia. Qed.

(** X2: [_convert_to_degrees] of degrees, minutes and seconds given as
    EXIF rationals returns their decimal value [d + m/60 + s/3600] to a
    relative error of at most 5 * 2^-53; components after the third are
    ignored. *)
Theorem degrees_accuracy (d m s : Q) (rest : list Q) :
  rational32 d -> rational32 m -> rational32 s ->
  exists deg,
    _convert_to_degrees (GpsRationals (d :: m :: s :: rest)) = Ok deg /\
    (d + m / 60 + s / 3600) * (1 - 5 * u) <= deg
      <= (d + m / 60 + s / 3600) * (1 + 5 * u).
Proof.
  intros Hd Hm Hs.
  apply rational32_nonneg in Hd, Hm, Hs.
  eexists. split; [reflexivity|].
  unfold fadd, Qdiv.
  change (/ 60) with (1 # 60). change (/ 3600) with (1 # 3600).
  pose proof (round64_error_nonneg d Hd) as [D1 D2].
  pose proof (round64_error_nonneg m Hm) as [M1 M2].
  pose proof (round64_error_nonneg s Hs) as [S1 S2].
  set (fd := round64 d) in *. set (fm := round64 m) in *.
  set (fs := round64 s) in *.
  unfold u in *.
  assert (Pm : 0 <= fm * (1 # 60)) by lra.
  assert (Ps : 0 <= fs * (1 # 3600)) by lra.
  pose proof (round64_error_nonneg _ Pm) as [QM1 QM2].
  pose proof (round64_error_nonneg _ Ps) as [QS1 QS2].
  set (qm := round64 (fm * (1 # 60))) in *.
  set (qs := round64 (fs * (1 # 3600))) in *.
  unfold u in *.
  assert (P1 : 0 <= fd + qm) by lra.
  pose proof (round64_error_nonneg _ P1) as [A1 A2].
  set (s1 := round64 (fd + qm)) in *.
  unfold u in *.
  assert (P2 : 0 <= s1 + qs) by lra.
  pose proof (round64_error_nonneg _ P2) as [B1 B2].
  unfold u in *. split; lra.
Qed.

(** 40 degrees 26 minutes 46 seconds. *)
Lemma degrees_accuracy_witness :
  exists deg,
    _convert_to_degrees (GpsRationals [40 # 1; 26 # 1; 46 # 1]) = Ok deg /\
    (72803 # 1800) * (1 - 5 * u) <= deg <= (72803 # 1800) * (1 + 5 * u).
Proof.
  destruct (degrees_accuracy (40 # 1) (26 # 1) (46 # 1) []
              ltac:(split; cbn; lia) ltac:(split; cbn; lia)
              ltac:(split; cbn; lia))
    as (deg & Hdeg & Hlo & Hhi).
  exists deg. split; [exact Hdeg|].
  assert (E : (40 # 1) + (26 # 1) / 60 + (46 # 1) / 3600 == 72803 # 1800)
    by reflexivity.
  rewrite E in Hlo, Hhi. split; assumption.
Defined.

End DegreesProperties.

(** ** Output paths *)

Module OutputPathProperties.
Import Paths World Pipeline.
Local Open Scope string_scope.

Lemma append_cons (c : ascii) (a b : string) :
  String c a +:+ b = String c (a +:+ b).
Proof. reflexivity. Qed.

Lemma append_nil (b : string) : "" +:+ b = b.
Proof. reflexivity. Qed.

Lemma has_sep_app (a b : string) :
  has_sep (a +:+ b) = has_sep a || has_sep b.
Proof.
  induction a as [|c a IH]; [reflexivity|].
  rewrite append_cons. cbn. rewrite IH. now rewrite orb_assoc.
Qed.

Lemma basename_no_sep (p : string) : has_sep (basename p) = false.
Proof.
  induction p as [|c r IH]; [reflexivity|].
  cbn [basename]. destruct (has_sep r) eqn:Hr; [exact IH|].
  destruct (is_sep c) eqn:Hc; [exact Hr|].
  cbn. now rewrite Hc, Hr.
Qed.

Lemma basename_id (b : string) : has_sep b = false -> basename b = b.
Proof.
  destruct b as [|c r]; [reflexivity|].
  cbn. intros H. apply orb_false_iff in H as [Hc Hr].
  now rewrite Hr, Hc.
Qed.

Lemma basename_app_sep (a b : string) :
  has_sep b = false -> basename (a +:+ "/" +:+ b) = b.
Proof.
  intros Hb. induction a as [|c a IH].
  - rewrite append_nil, append_cons, append_nil. cbn. now rewrite Hb.
  - rewrite append_cons. cbn [basename].
    assert (H : has_sep (a +:+ "/" +:+ b) = true).
    { rewrite has_sep_app, append_cons. cbn. now rewrite orb_true_r. }
    now rewrite H.
Qed.

Lemma ends_with_sep_split (a : string) :
  ends_with_sep a = true -> exists a', a = a' +:+ "/".
Proof.
  induction a as [|c r IH]; [discriminate|].
  destruct r as [|c' r'].
  - cbn. intros Hc. exists "". rewrite append_nil. f_equal.
    unfold is_sep in Hc. apply Ascii.eqb_eq in Hc. now subst.
  - intros H. destruct (IH H) as [a' Ha']. exists (String c a').
    rewrite append_cons. now rewrite <- Ha'.
Qed.

Lemma append_assoc (a b c : string) : (a +:+ b) +:+ c = a +:+ (b +:+ c).
Proof.
  induction a as [|x a IH]; [reflexivity|].
  rewrite !append_cons. now rewrite IH.
Qed.

(** The base name of a joined path is the name joined, when the name holds
    no separator. *)
Lemma basename_join (a b : string) :
  has_sep b = false -> basename (join a b) = b.
Proof.
  intros Hb. unfold join.
  assert (Hs : starts_with_sep b = false).
  { destruct b as [|c r]; [reflexivity|]. cbn in *.
    now apply orb_false_iff in Hb as [-> _]. }
  rewrite Hs.
  destruct (String.eqb_spec a "") as [->|Hne]; cbn [orb].
  - now apply basename_id.
  - destruct (ends_with_sep a) eqn:He.
    + destruct (ends_with_sep_split a He) as [a' ->].
      rewrite append_assoc. now apply basename_app_sep.
    + now apply basename_app_sep.
Qed.

(** X3: the output of an image lies directly in the temporary directory
    under the image's own file name: its path is the directory, a
    separator unless the directory is empty or ends in one, and the base name
    of the source, which holds no separator; so the base name of the
    output is that of the source, and two images have the same output path
    exactly when they have the same base name. *)
Theorem output_path_keeps_name (temp_dir : string) (a b : photo) :
  has_sep (basename (image_path a)) = false /\
  output_path_of temp_dir a
  = (if String.eqb temp_dir "" || ends_with_sep temp_dir then temp_dir
     else temp_dir +:+ "/") +:+ basename (image_path a) /\
  basename (output_path_of temp_dir a) = basename (image_path a) /\
  (output_path_of temp_dir a = output_path_of temp_dir b
   <-> basename (image_path a) = basename (image_path b)).
Proof.
  pose proof (basename_no_sep (image_path a)) as Ha.
  pose proof (basename_no_sep (image_path b)) as Hb.
  split; [exact Ha|]. split; [|split].
  - unfold output_path_of, join.
    assert (Hs : starts_with_sep (basename (image_path a)) = false).
    { destruct (basename (image_path a)) as [|c r]; [reflexivity|].
      cbn in *. now apply orb_false_iff in Ha as [-> _]. }
    rewrite Hs. destruct (_ || _); [reflexivity|].
    now rewrite append_assoc.
  - now apply basename_join.
  - unfold output_path_of. split; [|now intros ->].
    intros H. apply (f_equal basename) in H.
    now rewrite !basename_join in H.
Qed.

(** The two files named x.jpg. *)
Lemma output_path_keeps_name_witness :
  output_path_of "/tmp/t" Samples.small_x = "/tmp/t/x.jpg" /\
  output_path_of "/tmp/t" Samples.small_x
  = output_path_of "/tmp/t" Samples.large_x.
Proof.
  destruct (output_path_keeps_name "/tmp/t" Samples.small_x Samples.large_x)
    as (_ & _ & _ & H).
  split; [reflexivity|]. apply H. reflexivity.
Defined.

End OutputPathProperties.

(** ** The directory walk *)

Module WalkProperties.
Import Paths Walk OutputPathProperties.
Local Open Scope string_scope.
Local Open Scope list_scope.

(** Induction on a directory tree: a property that holds of a directory
    whenever it holds of its sub-directories holds of every directory. *)
Lemma dir_induction (P : dir -> Prop) :
  (forall files subdirs,
     Forall (fun entry => P entry.2) subdirs -> P (Dir files subdirs)) ->
  forall d, P d.
Proof.
  intros Hstep. fix IH 1. intros [files subdirs]. apply Hstep.
  induction subdirs as [|[name sub] rest IHrest]; constructor.
  - apply IH.
  - exact IHrest.
Qed.

Lemma walk_unfold (root : string) (files : list string)
  (subdirs : list (string * dir)) :
  walk root (Dir files subdirs)
  = if has_marker files then [SkippedDirectory root]
    else (Collected <$> (join root <$> List.filter is_image files))
         ++ walk_dirs root subdirs.
Proof.
  cbn [walk]. destruct (has_marker files); [reflexivity|]. f_equal.
  unfold walk_dirs.
  induction subdirs as [|[name sub] rest IH]; [reflexivity|].
  cbn [flat_map fst snd]. now rewrite IH.
Qed.

Lemma collected_app (a b : list visit) :
  collected (a ++ b) = collected a ++ collected b.
Proof. apply omap_app. Qed.

Lemma collected_paths (l : list string) : collected (Collected <$> l) = l.
Proof.
  induction l as [|p l IH]; [reflexivity|]. cbn. now f_equal.
Qed.

Lemma root_of_cons (directory name : string) (chain : list string) :
  root_of directory (name :: chain) = root_of (join directory name) chain.
Proof. reflexivity. Qed.

(** Every collected path comes from a listed file with an image name. *)
Lemma collected_is_listed (tree : dir) :
  forall (directory p : string),
    p ∈ collected (walk directory tree) ->
    exists chain file,
      listed tree chain file /\ is_image file = true /\
      p = join (root_of directory chain) file.
Proof.
  induction tree as [files subdirs IH] using dir_induction.
  intros directory p. rewrite walk_unfold.
  destruct (has_marker files) eqn:Hm.
  { cbn. intros H. now apply elem_of_nil in H. }
  rewrite collected_app, collected_paths. intros H.
  apply elem_of_app in H as [H|H].
  - apply list_elem_of_fmap in H as (file & -> & Hfile).
    apply list_elem_of_In, filter_In in Hfile as [Hin Himg].
    exists [], file. split; [now constructor|]. now split.
  - unfold walk_dirs in H.
    induction IH as [|[name sub] rest Hsub _ IHrest].
    + now apply elem_of_nil in H.
    + cbn [flat_map fst snd] in H. rewrite collected_app in H.
      apply elem_of_app in H as [H|H].
      * destruct (Hsub _ _ H) as (chain & file & Hl & Himg & ->).
        exists (name :: chain), file.
        split; [|now split].
        apply listed_below with sub; [assumption| now left |assumption].
      * destruct (IHrest H) as (chain & file & Hl & Himg & ->).
        exists chain, file. split; [|now split].
        inversion Hl as [fs sd f Hm' Hin|fs sd n s c f Hm' Hin Hl']; subst.
        -- now constructor.
        -- apply listed_below with s; [assumption| now right |assumption].
Qed.

(** Every listed file with an image name is collected. *)
Lemma listed_is_collected (tree : dir) (chain : list string) (file : string) :
  listed tree chain file -> is_image file = true ->
  forall directory,
    join (root_of directory chain) file ∈ collected (walk directory tree).
Proof.
  intros Hl Himg.
  induction Hl as [files subdirs file Hm Hin
                  |files subdirs name sub chain file Hm Hin Hl IH];
    intros directory; rewrite walk_unfold, Hm, collected_app, collected_paths;
    apply elem_of_app.
  - left. apply list_elem_of_fmap. exists file. split; [reflexivity|].
    apply list_elem_of_In, filter_In. now split.
  - right. rewrite root_of_cons. specialize (IH Himg (join directory name)).
    unfold walk_dirs. clear Hm.
    induction subdirs as [|entry rest IHrest]; [destruct Hin|].
    cbn [flat_map]. rewrite collected_app. apply elem_of_app.
    destruct Hin as [->|Hin]; [now left | right; auto].
Qed.

(** X4: the walk collects exactly the files with an image name that are
    listed in a directory reached from the top through directories none of
    which, the top and the last included, holds a [.nonixplay] file; the
    path collected is the walk's path of that directory joined with the
    file name. *)
Theorem walk_collects_exactly (directory : string) (tree : dir) (p : string) :
  p ∈ collected (walk directory tree) <->
  exists chain file,
    listed tree chain file /\ is_image file = true /\
    p = join (root_of directory chain) file.
Proof.
  split.
  - apply collected_is_listed.
  - intros (chain & file & Hl & Himg & ->). now apply listed_is_collected.
Qed.

(** A picture two levels down. *)
Lemma walk_collects_exactly_witness :
  "photos/trip/day1/b.png"
  ∈ collected
      (walk "photos"
         (Dir ["a.JPG"] [("trip", Dir [] [("day1", Dir ["b.png"] [])])])).
Proof.
  apply walk_collects_exactly. exists ["trip"; "day1"], "b.png".
  split; [|split; reflexivity].
  apply listed_below with (Dir [] [("day1", Dir ["b.png"] [])]);
    [reflexivity | now left |].
  apply listed_below with (Dir ["b.png"] []); [reflexivity | now left |].
  apply listed_here; [reflexivity | now left].
Defined.

(** *** Names *)

Lemma length_append (a b : string) :
  String.length (a +:+ b) = (String.length a + String.length b)%nat.
Proof.
  induction a as [|c a IH]; [reflexivity|].
  rewrite append_cons. cbn. now rewrite IH.
Qed.

Lemma substring_all (s : string) : substring 0 (String.length s) s = s.
Proof. induction s as [|c s IH]; [reflexivity|]. cbn. now rewrite IH. Qed.

Lemma substring_skip (a b : string) (m : nat) :
  substring (String.length a) m (a +:+ b) = substring 0 m b.
Proof.
  induction a as [|c a IH]; [reflexivity|].
  rewrite append_cons. cbn. exact IH.
Qed.

Lemma substring_split (s : string) (k : nat) :
  (k <= String.length s)%nat ->
  s = substring 0 k s +:+ substring k (String.length s - k) s.
Proof.
  revert k. induction s as [|c s IH]; intros k Hk.
  - cbn in Hk. assert (k = 0)%nat as -> by lia. reflexivity.
  - destruct k as [|k].
    + cbn [substring]. rewrite append_nil.
      change (String.length (String c s) - 0)%nat
        with (S (String.length s)).
      cbn [substring]. now rewrite substring_all.
    + cbn [substring String.length Nat.sub]. rewrite append_cons.
      f_equal. apply IH. cbn in Hk. lia.
Qed.

(** [s.endswith(suffix)] holds exactly of the strings that end in
    [suffix]. *)
Lemma endswith_iff (s suffix : string) :
  endswith s suffix = true <-> exists pre, s = pre +:+ suffix.
Proof.
  unfold endswith. split.
  - intros H. apply andb_true_iff in H as [Hle Heq].
    apply Nat.leb_le in Hle. apply String.eqb_eq in Heq.
    exists (substring 0 (String.length s - String.length suffix) s).
    rewrite <- Heq at 2.
    rewrite (substring_split s (String.length s - String.length suffix))
      at 1 by lia.
    do 2 f_equal. lia.
  - intros [pre ->]. rewrite length_append.
    apply andb_true_iff. split; [apply Nat.leb_le; lia|].
    replace (String.length pre + String.length suffix
             - String.length suffix)%nat with (String.length pre) by lia.
    rewrite substring_skip, substring_all. apply String.eqb_refl.
Qed.

Lemma lower_app (a b : string) : lower (a +:+ b) = lower a +:+ lower b.
Proof.
  induction a as [|c a IH]; [reflexivity|].
  rewrite append_cons. cbn [lower]. rewrite append_cons. now rewrite IH.
Qed.

Lemma join_suffix (a b : string) : exists pre, join a b = pre +:+ b.
Proof.
  unfold join. destruct (starts_with_sep b); [now exists ""|].
  destruct (_ || _); [now exists a|].
  exists (a +:+ "/"). now rewrite append_assoc.
Qed.

(** X5: every path the walk collects ends, letter case aside, in one of
    the five extensions .jpg, .jpeg, .png, .gif and .bmp. *)
Theorem walk_collects_images_only (directory : string) (tree : dir)
  (p : string) :
  p ∈ collected (walk directory tree) ->
  exists ext, ext ∈ valid_extensions /\ endswith (lower p) ext = true.
Proof.
  intros Hp.
  destruct (collected_is_listed tree directory p Hp)
    as (chain & file & _ & Himg & ->).
  unfold is_image in Himg. apply existsb_exists in Himg as (ext & Hext & He).
  exists ext. split; [now apply list_elem_of_In|].
  apply endswith_iff in He as [q Hq].
  destruct (join_suffix (root_of directory chain) file) as [pre ->].
  apply endswith_iff. exists (lower pre +:+ q).
  now rewrite lower_app, Hq, append_assoc.
Qed.

(** A tree with a marked album: its pictures stay out. *)
Lemma walk_collects_images_only_witness :
  collected
    (walk "photos"
       (Dir ["a.JPG"; "notes.txt"]
          [ ("trip", Dir ["b.png"] []);
            ("private", Dir [".nonixplay"; "c.jpg"]
                          [("deep", Dir ["d.jpg"] [])]) ]))
  = ["photos/a.JPG"; "photos/trip/b.png"] /\
  exists ext,
    ext ∈ valid_extensions /\ endswith (lower "photos/a.JPG") ext = true.
Proof.
  split; [vm_compute; reflexivity|].
  apply (walk_collects_images_only "photos"
           (Dir ["a.JPG"; "notes.txt"]
              [ ("trip", Dir ["b.png"] []);
                ("private", Dir [".nonixplay"; "c.jpg"]
                              [("deep", Dir ["d.jpg"] [])]) ])).
  vm_compute. constructor.
Defined.

End WalkProperties.

(** ** The run of [get_image_files] *)

Module PipelineProperties.
Import Float64 Paths Imaging World Metadata Caption Transformer Pipeline.
Import SelectorFacts PipelineFacts PipelineClaims Samples.
Local Open Scope string_scope.
Local Open Scope list_scope.
Local Open Scope Z_scope.

(** X6: [get_image_files] ends the program, with status 1 and one ERROR
    record, when [max_photos] is negative, before any image is touched;
    for every other [max_photos] it returns, with at most [max_photos]
    paths and at most one per candidate, each the output path of a
    candidate. *)
Theorem get_image_files_exit_and_bounds (e : env) (image_files : list photo)
  (draws : list nat) (max_file_size_mb max_photos : Z)
  (target_width target_height : Z) (o : options) :
  let run :=
    get_image_files e image_files draws max_file_size_mb max_photos
      target_width target_height o in
  (max_photos < 0 ->
   run = (Exited 1, logger initial [ErrorGettingImageFiles ValueError]) /\
   level_of (ErrorGettingImageFiles ValueError) = ERROR) /\
  (0 <= max_photos ->
   exists final_images,
     run.1 = Returned final_images /\
     Z.of_nat (length final_images) <= max_photos /\
     (length final_images <= length image_files)%nat /\
     forall p, p ∈ final_images ->
       exists img, img ∈ image_files /\ p = output_path_of (mkdtemp e) img).
Proof.
  intros run. split.
  - intros Hneg. split; [|reflexivity].
    unfold run, get_image_files, select, random_sample.
    destruct (Z.gtb_spec (Z.of_nat (length image_files)) max_photos); [|lia].
    now rewrite (proj2 (Z.ltb_lt max_photos 0) Hneg).
  - intros Hmax.
    destruct (get_image_files_spec e image_files draws max_file_size_mb
                max_photos target_width target_height o Hmax)
      as (selected_images & record & st & Hsel & Hrun & _).
    destruct (select_spec image_files max_photos draws Hmax)
      as (selected' & record' & Hsel' & Hlen & Hall & Hsome).
    assert (selected' = selected_images) as -> by congruence.
    assert (Hsub : selected_images ⊆+ image_files).
    { destruct (Z.le_gt_cases (Z.of_nat (length image_files)) max_photos)
        as [Hle|Hgt].
      - now rewrite (Hall Hle).
      - now destruct (Hsome Hgt). }
    set (entry := accepted_path e (mkdtemp e) target_width target_height
                    (max_file_size_mb * 1024 * 1024) o) in *.
    pose proof (entries_sublist e (mkdtemp e) target_width target_height
                  (max_file_size_mb * 1024 * 1024) o selected_images) as Hent.
    apply sublist_length in Hent. rewrite length_fmap in Hent.
    change (length (omap entry selected_images) <= length selected_images)%nat
      in Hent.
    pose proof (submseteq_length _ _ Hsub) as Hlen'.
    exists (omap entry selected_images). unfold run. rewrite Hrun.
    split; [reflexivity|]. split; [lia|]. split; [lia|].
    intros p Hp. apply list_elem_of_omap in Hp as (img & Hin & Hentry).
    exists img. split; [now apply (elem_of_submseteq _ _ _ Hin)|].
    exact (entry_output_path e (mkdtemp e) target_width target_height
             (max_file_size_mb * 1024 * 1024) o img p Hentry).
Qed.

(** X7: once an image is resized, drawn and encoded, the size check
    decides alone, and it is inclusive: an encoding of at most
    [max_file_size] bytes is written to the output path and the path is
    returned; a longer one is written, removed again, and nothing is
    returned. *)
Theorem size_check_is_inclusive (e : env) (img : photo) (temp_dir : string)
  (target_width target_height max_file_size : Z) (o : options) (st : state)
  (r : Z * Z * list draw_call * list log_record) (bytes : Z) :
  render e img target_width target_height o = Ok r ->
  saved_bytes img = Ok bytes ->
  let after :=
    image_resize_and_add_caption e img temp_dir target_width target_height
      max_file_size o st in
  let out := output_path_of temp_dir img in
  (bytes <= max_file_size ->
   after.1 = Some out /\ file_bytes <$> fs after.2 !! out = Some bytes) /\
  (max_file_size < bytes -> after.1 = None /\ fs after.2 !! out = None).
Proof.
  intros Hr Hs after out. subst after out.
  unfold image_resize_and_add_caption, output_path_of.
  rewrite Hr, Hs. destruct r as [[[new_width new_height] overlay] records].
  destruct (Z.gtb_spec bytes max_file_size) as [Hgt|Hle]; cbn [fst snd].
  - split; [lia|]. intros _. split; [reflexivity|].
    cbn. apply lookup_delete_eq.
  - split; [|lia]. intros _. split; [reflexivity|].
    cbn. now rewrite lookup_insert_eq.
Qed.

(** An encoding of exactly three megabytes is accepted. *)
Lemma size_check_is_inclusive_witness :
  (image_resize_and_add_caption (world GeoNone)
     (snapshot "album/edge.jpg" 640 480 3145728 (Ok None)) "/tmp/t" 64 40
     (3 * 1024 * 1024) defaults initial).1
  = Some "/tmp/t/edge.jpg".
Proof.
  assert (Hr : exists r,
             render (world GeoNone)
               (snapshot "album/edge.jpg" 640 480 3145728 (Ok None)) 64 40
               defaults = Ok r) by (eexists; vm_compute; reflexivity).
  destruct Hr as [r Hr].
  destruct (size_check_is_inclusive (world GeoNone)
              (snapshot "album/edge.jpg" 640 480 3145728 (Ok None)) "/tmp/t"
              64 40 (3 * 1024 * 1024) defaults initial r 3145728 Hr eq_refl)
    as [Hacc _].
  destruct (Hacc ltac:(lia)) as [H _]. exact H.
Defined.

(** X8: when [get_image_files] returns, no file longer than
    [max_file_size_mb * 1024 * 1024] bytes is left in the temporary
    directory; and when the candidates have pairwise distinct output
    paths, every path returned refers to a file that is there, within
    that size. *)
Theorem temporary_directory_within_budget (e : env)
  (image_files : list photo) (draws : list nat)
  (max_file_size_mb max_photos : Z) (target_width target_height : Z)
  (o : options) :
  0 <= max_photos ->
  let run :=
    get_image_files e image_files draws max_file_size_mb max_photos
      target_width target_height o in
  let budget := max_file_size_mb * 1024 * 1024 in
  (forall p f, fs run.2 !! p = Some f -> file_bytes f <= budget) /\
  (NoDup (output_path_of (mkdtemp e) <$> image_files) ->
   forall final_images p,
     run.1 = Returned final_images -> p ∈ final_images ->
     exists f, fs run.2 !! p = Some f /\ file_bytes f <= budget).
Proof.
  intros Hmax run budget. split.
  - intros p f. now apply no_file_over_budget_remains.
  - intros Hnd final_images p Hret Hp.
    apply (distinct_names_keep_accepted_outputs e image_files draws
             max_file_size_mb max_photos target_width target_height o
             final_images run.2 p Hmax Hnd); [|assumption].
    rewrite <- Hret. unfold run. now destruct (get_image_files _ _ _ _ _ _ _ _).
Qed.

(** Two files of different names: the path returned for the first is
    served by a file when the run ends. *)
Lemma temporary_directory_within_budget_witness :
  let run :=
    get_image_files (world GeoNone) [small_x; garbled] [] 3 500 64 40
      defaults in
  exists f,
    fs run.2 !! "/tmp/nix_upload_temp_k3/x.jpg" = Some f /\
    file_bytes f <= 3 * 1024 * 1024.
Proof.
  intros run.
  destruct (temporary_directory_within_budget (world GeoNone)
              [small_x; garbled] [] 3 500 64 40 defaults ltac:(lia))
    as [_ H].
  apply (H ltac:(apply (bool_decide_unpack (NoDup _)); vm_compute; exact I)
           [ "/tmp/nix_upload_temp_k3/x.jpg"; "/tmp/nix_upload_temp_k3/p.jpg" ]).
  - vm_compute. reflexivity.
  - constructor.
Defined.

(** X9: in every run that returns, [get_image_files] prints one progress
    line per selected image, as many as there are candidates or, if that
    is less, [max_photos]; line k (from 0) reports the count k + 1, the
    total [max_photos] and the rounded seconds since the loop began. *)
Theorem progress_reports_in_every_run (e : env) (image_files : list photo)
  (draws : list nat) (max_file_size_mb max_photos : Z)
  (target_width target_height : Z) (o : options) :
  0 <= max_photos ->
  let run :=
    get_image_files e image_files draws max_file_size_mb max_photos
      target_width target_height o in
  Z.of_nat (length (stdout run.2))
  = Z.min (Z.of_nat (length image_files)) max_photos /\
  forall (k : nat) line,
    stdout run.2 !! k = Some line ->
    reported line
    = (Z.of_nat k + 1, max_photos,
       round_half_even (fsub (now e (S k)) (now e 0))).
Proof.
  intros Hmax run.
  destruct (progress_lines e image_files draws max_file_size_mb max_photos
              target_width target_height o Hmax)
    as (selected_images & record & Hsel & Hlen & Hlines).
  destruct (select_spec image_files max_photos draws Hmax)
    as (selected' & record' & Hsel' & _ & Hall & Hsome).
  assert (selected' = selected_images) as -> by congruence.
  split; [|exact Hlines].
  fold run in Hlen. rewrite Hlen.
  destruct (Z.le_gt_cases (Z.of_nat (length image_files)) max_photos)
    as [Hle|Hgt].
  - rewrite (Hall Hle). lia.
  - destruct (Hsome Hgt) as [-> _]. lia.
Qed.

(** Two candidates and the default limit: 1 of 500, 2 of 500. *)
Lemma progress_reports_in_every_run_witness :
  let run :=
    get_image_files (world GeoNone) same_name [] 3 500 64 40 defaults in
  reported <$> stdout run.2 = [(1, 500, 1); (2, 500, 2)] /\
  length (stdout run.2) = 2%nat.
Proof.
  intros run.
  destruct (progress_reports_in_every_run (world GeoNone) same_name [] 3 500
              64 40 defaults ltac:(lia)) as [Hlen _].
  fold run in Hlen. split; [vm_compute; reflexivity|].
  change (Z.min (Z.of_nat (length same_name)) 500) with 2 in Hlen. lia.
Defined.

(** A negative limit. *)
Lemma get_image_files_exit_and_bounds_witness :
  (get_image_files (world GeoNone) same_name [] 3 (-1) 64 40 defaults).1
  = Exited 1.
Proof.
  destruct (get_image_files_exit_and_bounds (world GeoNone) same_name [] 3
              (-1) 64 40 defaults) as [H _].
  destruct (H ltac:(lia)) as [-> _]. reflexivity.
Defined.

End PipelineProperties.

(** ** The upload in batches *)

Module UploaderProperties.
Import Paths Uploader.
Local Open Scope string_scope.
Local Open Scope list_scope.
Local Open Scope Z_scope.

Lemma uploaded_by_cons (entry : batch_call * result bool)
  (trace : list (batch_call * result bool)) :
  uploaded_by (entry :: trace) = uploaded_by [entry] + uploaded_by trace.
Proof.
  unfold uploaded_by. cbn. destruct (entry.2) as [[|]|x]; lia.
Qed.

Section Loop.
Context {D : Type} (b : browser D).
Context (selected_images : list string) (batch_size : Z).
Context (lf : option string).

(** The loop, whatever the browser does: every call is the one its start
    index and the count so far determine; the calls stop at the first one
    that raises. *)
Lemma upload_loop_spec (starts : list Z) :
  forall (cumulative : Z) (st : session D),
    let out :=
      upload_loop b selected_images batch_size lf starts cumulative st in
    exists new,
      calls out.2 = calls st ++ new /\
      (forall (k : nat) entry,
         new !! k = Some entry ->
         exists i,
           starts !! k = Some i /\
           entry.1 = call_at selected_images batch_size lf i
                       (cumulative + uploaded_by (take k new))) /\
      (forall entry, entry ∈ new ->
         exists d, (upload_batch b entry.1 d).1 = entry.2) /\
      match out.1 with
      | Ok _ =>
          length new = length starts /\
          forall entry, entry ∈ new -> exists ok, entry.2 = Ok ok
      | Raise x =>
          exists init call,
            new = init ++ [(call, Raise x)] /\
            forall entry, entry ∈ init -> exists ok, entry.2 = Ok ok
      end.
Proof.
  induction starts as [|i rest IH]; intros cumulative st out.
  - exists []. subst out. cbn. rewrite app_nil_r.
    split; [reflexivity|]. split; [intros k entry H; discriminate|].
    split; [intros entry H; now apply elem_of_nil in H|].
    split; [reflexivity|]. intros entry H. now apply elem_of_nil in H.
  - subst out. cbn [upload_loop].
    fold (call_at selected_images batch_size lf i cumulative).
    set (call := call_at selected_images batch_size lf i cumulative).
    cbn [log_upload driver calls upload_log].
    destruct (upload_batch b call (driver st)) as [res d] eqn:Hcall.
    assert (Hres : exists d0, (upload_batch b call d0).1 = res)
      by (exists (driver st); now rewrite Hcall).
    destruct res as [ok|x].
    + set (cumulative' :=
             if ok
             then cumulative
                  + Z.of_nat
                      (length (take (Z.to_nat batch_size)
                                 (drop (Z.to_nat i) selected_images)))
             else cumulative).
      set (st1 := {| driver := d; calls := calls st ++ [(call, Ok ok)];
                     upload_log := _ |}).
      destruct (IH cumulative' st1) as (new & Hcalls & Hat & Hres' & Hend).
      exists ((call, Ok ok) :: new).
      split.
      { rewrite Hcalls. cbn [st1 calls]. now rewrite <- app_assoc. }
      assert (Hcum : cumulative' = cumulative + uploaded_by [(call, Ok ok)]).
      { unfold cumulative', uploaded_by. cbn. destruct ok; lia. }
      split.
      { intros [|k] entry Hk.
        - injection Hk as <-. exists i. split; [reflexivity|].
          cbn. unfold call. f_equal. lia.
        - cbn in Hk. destruct (Hat k entry Hk) as (i' & Hi' & Hentry).
          exists i'. split; [exact Hi'|]. rewrite Hentry. f_equal.
          cbn [take]. rewrite uploaded_by_cons. lia. }
      split.
      { intros entry Hin. apply elem_of_cons in Hin as [->|Hin]; auto. }
      destruct (upload_loop b selected_images batch_size lf rest cumulative'
                  st1).1 as [[]|x].
      * destruct Hend as [Hlen Hall]. split; [cbn; now rewrite Hlen|].
        intros entry Hin. apply elem_of_cons in Hin as [->|Hin]; eauto.
      * destruct Hend as (init & call' & -> & Hall).
        exists ((call, Ok ok) :: init), call'. split; [reflexivity|].
        intros entry Hin. apply elem_of_cons in Hin as [->|Hin]; eauto.
    + exists [(call, Raise x)]. cbn.
      split; [reflexivity|]. split.
      { intros [|k] entry Hk; [|discriminate].
        injection Hk as <-. exists i. split; [reflexivity|].
        cbn. unfold call. f_equal. lia. }
      split.
      { intros entry Hin. apply list_elem_of_singleton in Hin as ->. auto. }
      exists [], call. split; [reflexivity|].
      intros entry Hin. now apply elem_of_nil in Hin.
Qed.

End Loop.

(** *** The start indices *)

Lemma py_range_forward (n step : Z) :
  0 < step ->
  py_range 0 n step
  = Ok ((fun k => Z.of_nat k * step)
          <$> seq 0 (Z.to_nat ((n + step - 1) / step))).
Proof.
  intros Hs. unfold py_range.
  rewrite (proj2 (Z.eqb_neq step 0)) by lia.
  rewrite (proj2 (Z.ltb_lt 0 step)) by lia.
  replace (n - 0 + step - 1) with (n + step - 1) by lia.
  reflexivity.
Qed.

Lemma py_range_backward (n step : Z) :
  0 <= n -> step < 0 -> py_range 0 n step = Ok [].
Proof.
  intros Hn Hs. unfold py_range.
  rewrite (proj2 (Z.eqb_neq step 0)) by lia.
  rewrite (proj2 (Z.ltb_ge 0 step)) by lia.
  assert (H : (0 - n - step - 1) / - step <= 0).
  { assert ((0 - n - step - 1) / - step < 1); [|lia].
    apply Z.div_lt_upper_bound; lia. }
  replace (Z.to_nat ((0 - n - step - 1) / - step)) with O by lia.
  reflexivity.
Qed.

Lemma starts_lookup (step : Z) (c k : nat) (i : Z) :
  ((fun k => Z.of_nat k * step) <$> seq 0 c) !! k = Some i ->
  i = Z.of_nat k * step /\ (k < c)%nat.
Proof.
  rewrite list_lookup_fmap. intros H.
  destruct (seq 0 c !! k) as [j|] eqn:E; [|discriminate].
  apply lookup_seq in E as [-> Hk]. injection H as <-. split; [|assumption].
  reflexivity.
Qed.

(** The number of batches, [ceil(n / step)], and what it covers. *)
Lemma batch_count_bounds (n step : Z) :
  0 <= n -> 0 < step ->
  let c := (n + step - 1) / step in
  0 <= c /\ n <= c * step /\ (c - 1) * step < n.
Proof.
  intros Hn Hs c.
  pose proof (Z.div_mod (n + step - 1) step ltac:(lia)) as Hdm.
  pose proof (Z.mod_pos_bound (n + step - 1) step Hs) as Hm.
  fold c in Hdm.
  assert (0 <= c) by (apply Z.div_pos; lia).
  split; [assumption|]. split; nia.
Qed.

Lemma pieces_concat {A : Type} (l : list A) (m c : nat) :
  concat ((fun k => take m (drop (k * m) l)) <$> seq 0 c) = take (c * m) l.
Proof.
  induction c as [|c IH]; [reflexivity|].
  rewrite seq_S, fmap_app, concat_app, IH. cbn [fmap list_fmap concat].
  rewrite app_nil_r, take_take_drop. f_equal. lia.
Qed.

(** *** [upload_photos] *)

Section Photos.
Context {D : Type} (b : browser D).
Context (selected_images : list string) (batch_size : Z) (d : D).

(** The frame around the loop: the debug file and the handler. *)
Lemma upload_photos_frame :
  exists (lf : option string) (st0 : session D) (path : string),
    calls st0 = [] /\
    path = join (debug_directory b) (timestamp b d +:+ "_uploaded_files.txt") /\
    driver st0 = (open_logfile b path d).2 /\
    upload_photos b selected_images batch_size d
    = match
        match py_range 0 (Z.of_nat (length selected_images)) batch_size with
        | Raise x => (Raise x, st0)
        | Ok starts =>
            upload_loop b selected_images batch_size lf starts 0 st0
        end
      with
      | (Ok _, st) =>
          (Ok true, log_upload st [AllBatchesUploaded; ListWrittenTo path])
      | (Raise x, st) =>
          let st := log_upload st [UploadPhotosException x] in
          let saved := save_debug_snapshot b "upload_exception" (driver st) in
          let st' := {| driver := saved.2; calls := calls st;
                        upload_log := upload_log st |} in
          match saved.1 with
          | Ok _ => (Ok false, st')
          | Raise y => (Raise y, st')
          end
      end.
Proof.
  unfold upload_photos.
  set (name := timestamp b d +:+ "_uploaded_files.txt").
  set (path := join (debug_directory b) name).
  destruct (open_logfile b path d) as [[[]|x] d1] eqn:Hopen.
  - exists (Some path), {| driver := d1; calls := []; upload_log := [] |}, path.
    split; [reflexivity|].
    split; [reflexivity|]. split; [now rewrite Hopen|].
    destruct (py_range 0 (Z.of_nat (length selected_images)) batch_size)
      as [starts|x'].
    + destruct (upload_loop b selected_images batch_size (Some path) starts 0
                  {| driver := d1; calls := []; upload_log := [] |})
        as [[[]|x''] st']; [reflexivity|].
      cbn [log_upload driver calls upload_log].
      now destruct (save_debug_snapshot b _ _) as [[[]|y] d2].
    + cbn [log_upload driver calls upload_log].
      now destruct (save_debug_snapshot b _ _) as [[[]|y] d2].
  - exists None,
      (log_upload {| driver := d1; calls := []; upload_log := [] |}
         [ErrorCreatingDebugFile name]), path.
    split; [reflexivity|].
    split; [reflexivity|]. split; [now rewrite Hopen|].
    destruct (py_range 0 (Z.of_nat (length selected_images)) batch_size)
      as [starts|x'].
    + destruct (upload_loop b selected_images batch_size None starts 0 _)
        as [[[]|x''] st']; [reflexivity|].
      cbn [log_upload driver calls upload_log].
      now destruct (save_debug_snapshot b _ _) as [[[]|y] d2].
    + cbn [log_upload driver calls upload_log].
      now destruct (save_debug_snapshot b _ _) as [[[]|y] d2].
Qed.

(** What the calls of a run look like, for a positive batch size. *)
Lemma trace_of_batches (lf : option string) (st0 st : session D)
  (body : result unit) :
  0 < batch_size ->
  calls st0 = [] ->
  upload_loop b selected_images batch_size lf
    ((fun k => Z.of_nat k * batch_size)
       <$> seq 0 (Z.to_nat ((Z.of_nat (length selected_images)
                             + batch_size - 1) / batch_size))) 0 st0
  = (body, st) ->
  let trace := calls st in
  let m := Z.to_nat batch_size in
  (forall entry, entry ∈ trace ->
     exists d', (upload_batch b entry.1 d').1 = entry.2) /\
  (forall (k : nat) call res,
     trace !! k = Some (call, res) ->
     batch call = take m (drop (k * m) selected_images) /\
     batch call <> [] /\
     batch_number call = Z.of_nat k + 1 /\
     batch_count call
     = (Z.of_nat (length selected_images) + batch_size - 1) / batch_size /\
     batch_end_count call
     = uploaded_by (take k trace) + Z.of_nat (length (batch call))) /\
  concat ((fun entry => batch entry.1) <$> trace)
  = take (length trace * m) selected_images /\
  match body with
  | Ok _ =>
      Z.of_nat (length trace)
      = (Z.of_nat (length selected_images) + batch_size - 1) / batch_size /\
      forall entry, entry ∈ trace -> exists ok, entry.2 = Ok ok
  | Raise x =>
      exists init call,
        trace = init ++ [(call, Raise x)] /\
        forall entry, entry ∈ init -> exists ok, entry.2 = Ok ok
  end.
Proof.
  intros Hbs Hst0 Hloop trace m.
  set (n := Z.of_nat (length selected_images)) in *.
  set (c := (n + batch_size - 1) / batch_size) in *.
  pose proof (upload_loop_spec b selected_images batch_size lf
                ((fun k => Z.of_nat k * batch_size) <$> seq 0 (Z.to_nat c))
                0 st0) as Hspec.
  cbn zeta in Hspec. rewrite Hloop in Hspec. cbn [fst snd] in Hspec.
  destruct Hspec as (new & Hcalls & Hat & Hres & Hend).
  rewrite Hst0, app_nil_l in Hcalls. fold trace in Hcalls. subst new.
  destruct (batch_count_bounds n batch_size ltac:(lia) Hbs)
    as (Hc0 & Hc1 & Hc2).
  fold c in Hc0, Hc1, Hc2.
  assert (Hm : Z.of_nat m = batch_size) by (unfold m; lia).
  assert (Hentry : forall (k : nat) call res,
            trace !! k = Some (call, res) ->
            (k < Z.to_nat c)%nat /\
            call = call_at selected_images batch_size lf
                     (Z.of_nat k * batch_size)
                     (uploaded_by (take k trace))).
  { intros k call res Hk. destruct (Hat k _ Hk) as (i & Hi & Hcall).
    apply starts_lookup in Hi as [-> Hlt]. split; [assumption|].
    cbn [fst] in Hcall. rewrite Hcall. f_equal. }
  split; [exact Hres|]. split; [|split].
  - intros k call res Hk. destruct (Hentry k call res Hk) as [Hlt ->].
    cbn [call_at batch batch_number batch_count batch_end_count].
    replace (Z.to_nat (Z.of_nat k * batch_size)) with (k * m)%nat by lia.
    fold m. split; [reflexivity|]. split; [|split; [|split]].
    + intros Hnil. apply (f_equal length) in Hnil.
      rewrite length_take, length_drop in Hnil. cbn in Hnil. nia.
    + rewrite Z.div_mul by lia. reflexivity.
    + fold n. unfold c.
      replace (n + batch_size - 1) with (n - 1 + 1 * batch_size) by lia.
      rewrite Z.div_add by lia. reflexivity.
    + reflexivity.
  - assert (E : (fun entry : batch_call * result bool => batch entry.1)
                  <$> trace
                = (fun k => take m (drop (k * m) selected_images))
                    <$> seq 0 (length trace)).
    { apply list_eq. intros k. rewrite !list_lookup_fmap.
      destruct (trace !! k) as [[call res]|] eqn:Hk.
      - destruct (Hentry k call res Hk) as [Hlt ->].
        rewrite lookup_seq_lt by (now apply lookup_lt_Some in Hk).
        cbn. f_equal. f_equal. f_equal. lia.
      - rewrite lookup_seq_ge by (now apply lookup_ge_None in Hk).
        reflexivity. }
    rewrite E. apply pieces_concat.
  - destruct body as [[]|x]; [|exact Hend].
    destruct Hend as [Hlen Hall]. split; [|exact Hall].
    rewrite Hlen, length_fmap, length_seq. lia.
Qed.

(** X10: with a positive batch size and an [upload_batch] that does not
    raise, [upload_photos] returns True, whatever the batches returned.
    It calls [upload_batch] once per batch, [ceil(n / batch_size)] times:
    call k (from 0) gets the photos from position [k * batch_size] on, at
    most [batch_size] of them and at least one, the batch number [k + 1],
    and the number of batches; the batches put end to end are the
    selected photos; and the end count handed to a call is the number of
    photos in the earlier batches that returned True plus the size of its
    own batch. *)
Theorem upload_photos_batches :
  0 < batch_size ->
  (forall call d', exists ok, (upload_batch b call d').1 = Ok ok) ->
  let run := upload_photos b selected_images batch_size d in
  let trace := calls run.2 in
  let n := Z.of_nat (length selected_images) in
  run.1 = Ok true /\
  Z.of_nat (length trace) = (n + batch_size - 1) / batch_size /\
  concat ((fun entry => batch entry.1) <$> trace) = selected_images /\
  forall (k : nat) call res,
    trace !! k = Some (call, res) ->
    batch call
    = take (Z.to_nat batch_size)
        (drop (k * Z.to_nat batch_size) selected_images) /\
    batch call <> [] /\
    batch_number call = Z.of_nat k + 1 /\
    batch_count call = Z.of_nat (length trace) /\
    batch_end_count call
    = uploaded_by (take k trace) + Z.of_nat (length (batch call)).
Proof.
  intros Hbs Hnoraise run trace n.
  destruct upload_photos_frame
    as (lf & st0 & path & Hst0 & Hpath & Hdrv & Hrun).
  rewrite (py_range_forward _ _ Hbs) in Hrun.
  destruct (upload_loop b selected_images batch_size lf _ 0 st0)
    as [body st] eqn:Hloop.
  destruct (trace_of_batches lf st0 st body Hbs Hst0 Hloop)
    as (Hres & Hat & Hcat & Hend).
  destruct body as [[]|x].
  - assert (Htrace : trace = calls st)
      by (unfold trace, run; now rewrite Hrun).
    destruct Hend as [Hlen Hall]. rewrite Htrace.
    split; [unfold run; now rewrite Hrun|].
    split; [exact Hlen|]. split.
    + rewrite Hcat. apply take_ge.
      destruct (batch_count_bounds n batch_size ltac:(lia) Hbs)
        as (Hc0 & Hc1 & Hc2).
      fold n in Hlen. nia.
    + intros k call res Hk.
      destruct (Hat k call res Hk) as (H1 & H2 & H3 & H4 & H5).
      repeat split; try assumption. now rewrite H4, Hlen.
  - exfalso. destruct Hend as (init & call & Htr & _).
    destruct (Hres (call, Raise x)) as [d' Hd'].
    { rewrite Htr. apply elem_of_app. right. constructor. }
    destruct (Hnoraise call d') as [ok Hok]. cbn in Hd'. congruence.
Qed.

(** X11: a batch size that is not positive sends nothing.  With a
    negative one [upload_photos] never calls [upload_batch] and still
    returns True, after logging that all batches were uploaded; with zero
    it never calls [upload_batch], logs the ValueError of [range] at ERROR
    level, saves a debug snapshot and returns False (or raises what the
    snapshot raised). *)
Theorem upload_photos_without_batches :
  let run := upload_photos b selected_images batch_size d in
  let path :=
    join (debug_directory b) (timestamp b d +:+ "_uploaded_files.txt") in
  (batch_size < 0 ->
   run.1 = Ok true /\ calls run.2 = [] /\
   exists records,
     upload_log run.2 = records ++ [AllBatchesUploaded; ListWrittenTo path]) /\
  (batch_size = 0 ->
   calls run.2 = [] /\
   last (upload_log run.2) = Some (UploadPhotosException ValueError) /\
   upload_level (UploadPhotosException ValueError) = ERROR /\
   match
     (save_debug_snapshot b "upload_exception" (open_logfile b path d).2).1
   with
   | Ok _ => run.1 = Ok false
   | Raise y => run.1 = Raise y
   end).
Proof.
  intros run path0.
  destruct upload_photos_frame
    as (lf & st0 & path & Hst0 & Hpath & Hdrv & Hrun).
  fold path0 in Hpath. subst path.
  split.
  - intros Hneg.
    rewrite (py_range_backward (Z.of_nat (length selected_images))
               batch_size ltac:(lia) Hneg) in Hrun.
    cbn [upload_loop] in Hrun. unfold run. rewrite Hrun. cbn.
    split; [reflexivity|]. split; [assumption|]. eauto.
  - intros ->. unfold py_range in Hrun. cbn [Z.eqb] in Hrun.
    cbn zeta in Hrun. cbn [log_upload driver calls upload_log] in Hrun.
    unfold run. rewrite Hrun. rewrite <- Hdrv.
    destruct (save_debug_snapshot b "upload_exception" (driver st0))
      as [saved d2] eqn:Hsnap.
    cbn [fst snd].
    destruct saved as [[]|y]; cbn [fst snd calls upload_log];
      (split; [assumption|]); (split; [apply last_snoc|]);
      (split; [reflexivity|]); reflexivity.
Qed.

(** X12: an exception raised by [upload_batch] ends the upload.  The
    call that raised is the last one made, so the photos after its batch
    are never sent; the exception is logged at ERROR level; and
    [upload_photos] does not return True. *)
Theorem upload_photos_stops_at_exception (k : nat) (call : batch_call)
  (x : exn) :
  0 < batch_size ->
  let run := upload_photos b selected_images batch_size d in
  let trace := calls run.2 in
  trace !! k = Some (call, Raise x) ->
  length trace = S k /\
  concat ((fun entry => batch entry.1) <$> trace)
  = take (S k * Z.to_nat batch_size) selected_images /\
  last (upload_log run.2) = Some (UploadPhotosException x) /\
  upload_level (UploadPhotosException x) = ERROR /\
  run.1 <> Ok true.
Proof.
  intros Hbs run trace Hk.
  destruct upload_photos_frame
    as (lf & st0 & path & Hst0 & Hpath & Hdrv & Hrun).
  rewrite (py_range_forward _ _ Hbs) in Hrun.
  destruct (upload_loop b selected_images batch_size lf _ 0 st0)
    as [body st] eqn:Hloop.
  destruct (trace_of_batches lf st0 st body Hbs Hst0 Hloop)
    as (_ & _ & Hcat & Hend).
  assert (Htrace : trace = calls st).
  { unfold trace, run. rewrite Hrun.
    destruct body as [[]|x']; [reflexivity|]. cbn zeta.
    now destruct (save_debug_snapshot b _ _).1. }
  rewrite Htrace in Hk |- *.
  destruct body as [[]|x'].
  - exfalso. destruct Hend as [_ Hall].
    destruct (Hall (call, Raise x)) as [ok Hok]; [|discriminate].
    apply list_elem_of_lookup. eauto.
  - destruct Hend as (init & call' & Hsplit & Hall).
    assert (Hki : k = length init).
    { rewrite Hsplit in Hk.
      destruct (decide (k < length init)%nat) as [Hlt|Hge].
      - rewrite lookup_app_l in Hk by assumption.
        destruct (Hall (call, Raise x)) as [ok Hok]; [|discriminate].
        apply list_elem_of_lookup. eauto.
      - apply lookup_lt_Some in Hk. rewrite length_app in Hk. cbn in Hk. lia. }
    assert (Hx : x' = x).
    { rewrite Hsplit, Hki in Hk.
      rewrite list_lookup_middle in Hk by reflexivity. congruence. }
    subst x'.
    assert (Hlen : length (calls st) = S k).
    { rewrite Hsplit, length_app. cbn. lia. }
    split; [exact Hlen|]. split; [now rewrite Hcat, Hlen|].
    unfold run. rewrite Hrun. cbn zeta.
    destruct (save_debug_snapshot b _ _).1;
      cbn [fst snd log_upload upload_log];
      (split; [apply last_snoc|]); (split; [reflexivity|]); discriminate.
Qed.

End Photos.

(** Five photos in batches of two, the second batch reported as failed:
    three calls, with the end counts 2, 4 and 3. *)
Lemma upload_photos_batches_witness :
  let run :=
    upload_photos (UploadSamples.scripted [Ok true; Ok false; Ok true])
      UploadSamples.five 2 O in
  run.1 = Ok true /\
  (fun entry => (batch entry.1, batch_end_count entry.1)) <$> calls run.2
  = [ (["t/a.jpg"; "t/b.jpg"], 2); (["t/c.jpg"; "t/d.jpg"], 4);
      (["t/e.jpg"], 3) ].
Proof.
  intros run.
  assert (Hnoraise : forall call (n : nat),
            exists ok,
              (upload_batch
                 (UploadSamples.scripted [Ok true; Ok false; Ok true])
                 call n).1 = Ok ok).
  { intros call [|[|[|n]]]; eexists; reflexivity. }
  destruct (upload_photos_batches
              (UploadSamples.scripted [Ok true; Ok false; Ok true])
              UploadSamples.five 2 O ltac:(lia) Hnoraise) as [Hret _].
  split; [exact Hret|]. vm_compute. reflexivity.
Defined.

(** Five photos and a batch size of -2: nothing is sent, and the answer
    is True. *)
Lemma upload_photos_without_batches_witness :
  let run :=
    upload_photos (UploadSamples.scripted []) UploadSamples.five (-2) O in
  run.1 = Ok true /\ calls run.2 = [].
Proof.
  intros run.
  destruct (upload_photos_without_batches (UploadSamples.scripted [])
              UploadSamples.five (-2) O) as [H _].
  destruct (H ltac:(lia)) as (H1 & H2 & _). now split.
Defined.

(** The second of three batches raises: two calls, and the fifth photo is
    never sent. *)
Lemma upload_photos_stops_at_exception_witness :
  let run :=
    upload_photos (UploadSamples.scripted [Ok true; Raise RuntimeError])
      UploadSamples.five 2 O in
  length (calls run.2) = 2%nat /\
  concat ((fun entry => batch entry.1) <$> calls run.2)
  = ["t/a.jpg"; "t/b.jpg"; "t/c.jpg"; "t/d.jpg"] /\
  run.1 = Ok false.
Proof.
  intros run.
  assert (Hcall : exists call, calls run.2 !! 1%nat = Some (call, Raise RuntimeError))
    by (eexists; vm_compute; reflexivity).
  destruct Hcall as [call Hcall].
  destruct (upload_photos_stops_at_exception
              (UploadSamples.scripted [Ok true; Raise RuntimeError])
              UploadSamples.five 2 O 1 call RuntimeError ltac:(lia) Hcall)
    as (Hlen & Hcat & _).
  split; [exact Hlen|]. split; [exact Hcat|].
  vm_compute. reflexivity.
Defined.

End UploaderProperties.

(** ** The configuration file *)

Module ConfigProperties.
Import Paths Text Config.
Local Open Scope string_scope.
Local Open Scope list_scope.
Local Open Scope Z_scope.

(** *** Stripping the trailing slashes *)

Lemma rstrip_no_trailing_slash (s : string) :
  ends_with_sep (rstrip "/" s) = false.
Proof.
  induction s as [|a r IH]; [reflexivity|].
  cbn [rstrip]. destruct (String.eqb_spec (rstrip "/" r) "") as [E|E].
  - rewrite E. cbn [andb]. destruct (Ascii.eqb_spec a "/") as [->|Hne].
    + reflexivity.
    + cbn. unfold is_sep. now apply Ascii.eqb_neq.
  - cbn [andb]. destruct (rstrip "/" r) as [|c r'] eqn:Hr; [congruence|].
    exact IH.
Qed.

Lemma rstrip_prefix (s : string) :
  exists tail, s = rstrip "/" s +:+ tail /\ rstrip "/" tail = "".
Proof.
  induction s as [|a r (tail & Hr & Htail)]; [now exists ""|].
  cbn [rstrip]. destruct (String.eqb_spec (rstrip "/" r) "") as [E|E].
  - destruct (Ascii.eqb_spec a "/") as [->|Hne]; cbn [andb].
    + exists (String "/" r). split; [reflexivity|].
      cbn [rstrip]. rewrite E. reflexivity.
    + exists tail. split; [|assumption].
      rewrite E in *. cbn in Hr |- *. now f_equal.
  - cbn [andb]. exists tail. split; [|assumption].
    change (String a (rstrip "/" r) +:+ tail)
      with (String a (rstrip "/" r +:+ tail)).
    now f_equal.
Qed.

(** *** The merged dictionary *)

Lemma merged_lookup (config : dict) (key : string) :
  (config ∪ DEFAULT_CONFIG) !! key
  = match config !! key with
    | Some v => Some v
    | None => DEFAULT_CONFIG !! key
    end.
Proof.
  rewrite lookup_union.
  destruct (config !! key), (DEFAULT_CONFIG !! key); reflexivity.
Qed.

Lemma default_base_url :
  DEFAULT_CONFIG !! "base_url" = Some (JString "https://app.nixplay.com").
Proof. vm_compute. reflexivity. Qed.

Lemma default_headless : DEFAULT_CONFIG !! "headless" = Some (JBool true).
Proof. vm_compute. reflexivity. Qed.

Lemma default_log_level :
  DEFAULT_CONFIG !! "log_level" = Some (JString "INFO").
Proof. vm_compute. reflexivity. Qed.

Lemma first_missing_none (config : dict) :
  first_missing config = None <->
  forall key, key ∈ REQUIRED_KEYS -> is_Some (config !! key).
Proof.
  unfold first_missing. split.
  - intros H key Hkey.
    apply list_elem_of_In in Hkey.
    pose proof (find_none _ _ H key Hkey) as Hk. cbn beta in Hk.
    apply negb_false_iff, bool_decide_eq_true in Hk. exact Hk.
  - intros H.
    destruct (find _ REQUIRED_KEYS) as [key|] eqn:E; [|reflexivity].
    apply find_some in E as [Hin Hk].
    apply negb_true_iff, bool_decide_eq_false in Hk.
    exfalso. apply Hk, H. now apply list_elem_of_In.
Qed.

(** When the checks pass, and what they yield. *)
Lemma merge_and_check_inr (config merged : dict) (log_level : string) :
  merge_and_check config = inr (merged, log_level) <->
  first_missing config = None /\
  exists base_url headless level,
    (config ∪ DEFAULT_CONFIG) !! "base_url" = Some (JString base_url) /\
    (config ∪ DEFAULT_CONFIG) !! "headless" = Some (JBool headless) /\
    (config ∪ DEFAULT_CONFIG) !! "log_level" = Some (JString level) /\
    merged = <["base_url" := JString (rstrip "/" base_url)]>
               (config ∪ DEFAULT_CONFIG) /\
    log_level = upper level.
Proof.
  unfold merge_and_check.
  destruct (first_missing config) as [key|].
  { split; [discriminate | intros [? _]; discriminate]. }
  set (m := config ∪ DEFAULT_CONFIG).
  assert (Hbase : is_Some (m !! "base_url")).
  { unfold m. rewrite merged_lookup, default_base_url.
    destruct (config !! "base_url"); eauto. }
  destruct Hbase as [vb Hvb]. rewrite Hvb.
  destruct vb as [|b|n|q|s|items|members];
    try (split; [discriminate|];
         intros (_ & s' & h' & l' & E & _); discriminate).
  rewrite !lookup_insert_ne by discriminate.
  destruct (m !! "headless") as [vh|] eqn:Hvh;
    [|split; [discriminate|];
      intros (_ & s' & h' & l' & _ & E & _); discriminate].
  destruct vh as [|b|n|q|s'|items|members];
    try (split; [discriminate|];
         intros (_ & s'' & h' & l' & _ & E & _); discriminate).
  destruct (m !! "log_level") as [vl|] eqn:Hvl;
    [|split; [discriminate|];
      intros (_ & s' & h' & l' & _ & _ & E & _); discriminate].
  destruct vl as [|b'|n|q|l|items|members];
    try (split; [discriminate|];
         intros (_ & s'' & h' & l' & _ & _ & E & _); discriminate).
  split.
  - intros H. injection H as <- <-. split; [reflexivity|].
    exists s, b, l. easy.
  - intros (_ & s' & h' & l' & E1 & E2 & E3 & -> & ->).
    injection E1 as <-. injection E3 as <-. reflexivity.
Qed.

Lemma load_config_loaded (w : files) (config_file : string) (st : logging)
  (merged : dict) :
  (load_config w config_file st).1 = Loaded merged <->
  exists config log_level,
    read_config w config_file = ReadObject config /\
    merge_and_check config = inr (merged, log_level).
Proof.
  unfold load_config.
  destruct (read_config w config_file) as [config| | |x]; cbn [fst].
  - destruct (merge_and_check config) as [why|[merged' log_level]] eqn:E.
    + split; [discriminate|]. intros (c & l & Hc & Hm).
      injection Hc as <-. congruence.
    + destruct (logging_level log_level); cbn [fst]; split.
      * intros H. exists config, log_level. split; congruence.
      * intros (c & l & Hc & Hm). injection Hc as <-. congruence.
      * intros H. exists config, log_level. split; congruence.
      * intros (c & l & Hc & Hm). injection Hc as <-. congruence.
  - split; [discriminate|]. intros (c & l & Hc & _). discriminate.
  - split; [discriminate|]. intros (c & l & Hc & _). discriminate.
  - split; [discriminate|]. intros (c & l & Hc & _). discriminate.
Qed.

Lemma handler_is_error (config_file : string) (why : failure) :
  config_level (handler config_file why) = ERROR.
Proof. destruct why as [| | | | |[]]; reflexivity. Qed.

(** The table of the level names, read as a dictionary. *)
Lemma logging_level_in (name : string) (n : Z) :
  logging_level name = Some n -> (name, n) ∈ level_names.
Proof.
  unfold logging_level. induction level_names as [|[k v] table IH].
  - discriminate.
  - cbn [Metadata.dict_get]. destruct (String.eqb_spec k name) as [->|_].
    + intros [= ->]. constructor.
    + intros H. apply elem_of_cons. right. now apply IH.
Qed.

Lemma logging_level_not_in (name : string) :
  logging_level name = None -> name ∉ level_names.*1.
Proof.
  unfold logging_level. induction level_names as [|[k v] table IH].
  - intros _ H. now apply elem_of_nil in H.
  - cbn [Metadata.dict_get]. destruct (String.eqb_spec k name) as [->|Hne].
    + discriminate.
    + intros H Hin. cbn in Hin. apply elem_of_cons in Hin as [->|Hin].
      * now apply Hne.
      * now apply IH.
Qed.

(** X13: for a file that holds a JSON object when it parses,
    [load_config] returns exactly when the file is read and parsed and
    its object has the keys username, password and photos_directory,
    and in which base_url and log_level, if given, are strings and
    headless, if given, is a boolean.  In every other case it ends the
    program with status 1, after one ERROR record, and leaves the level
    of the logger as it was. *)
Theorem load_config_returns_iff (w : files) (config_file : string)
  (st : logging) :
  let run := load_config w config_file st in
  ((exists merged, run.1 = Loaded merged) <->
   exists config,
     read_config w config_file = ReadObject config /\
     (forall key, key ∈ REQUIRED_KEYS -> is_Some (config !! key)) /\
     (forall v, config !! "base_url" = Some v -> exists s, v = JString s) /\
     (forall v, config !! "headless" = Some v -> exists h, v = JBool h) /\
     (forall v, config !! "log_level" = Some v -> exists s, v = JString s)) /\
  ((forall merged, run.1 <> Loaded merged) ->
   run.1 = Exit 1 /\
   logger_level run.2 = logger_level st /\
   exists r,
     config_log run.2
     = config_log st
       ++ [LoadingConfigFile (basename (abspath w config_file))
             (abspath w config_file); r] /\
     config_level r = ERROR).
Proof.
  intros run. split.
  - split.
    + intros [merged Hm].
      apply load_config_loaded in Hm as (config & lvl & Hread & Hchk).
      apply merge_and_check_inr in Hchk
        as (Hreq & s & h & l & Hs & Hh & Hl & _).
      rewrite merged_lookup in Hs, Hh, Hl.
      exists config. split; [assumption|].
      split; [now apply first_missing_none|].
      split; [|split]; intros v Hv.
      * rewrite Hv in Hs. injection Hs as ->. eauto.
      * rewrite Hv in Hh. injection Hh as ->. eauto.
      * rewrite Hv in Hl. injection Hl as ->. eauto.
    + intros (config & Hread & Hreq & Hs & Hh & Hl).
      assert (Es : exists s,
                (config ∪ DEFAULT_CONFIG) !! "base_url" = Some (JString s)).
      { rewrite merged_lookup, default_base_url.
        destruct (config !! "base_url") as [v|]; [|eauto].
        destruct (Hs v eq_refl) as [s ->]. eauto. }
      assert (Eh : exists h,
                (config ∪ DEFAULT_CONFIG) !! "headless" = Some (JBool h)).
      { rewrite merged_lookup, default_headless.
        destruct (config !! "headless") as [v|]; [|eauto].
        destruct (Hh v eq_refl) as [h ->]. eauto. }
      assert (El : exists l,
                (config ∪ DEFAULT_CONFIG) !! "log_level" = Some (JString l)).
      { rewrite merged_lookup, default_log_level.
        destruct (config !! "log_level") as [v|]; [|eauto].
        destruct (Hl v eq_refl) as [l ->]. eauto. }
      destruct Es as [s Es]. destruct Eh as [h Eh]. destruct El as [l El].
      eexists. apply load_config_loaded. exists config, (upper l).
      split; [assumption|]. apply merge_and_check_inr.
      split; [now apply first_missing_none|].
      exists s, h, l. easy.
  - intros Hnot. subst run. unfold load_config in *.
    set (attempt := match read_config w config_file with
                    | ReadObject config => merge_and_check config
                    | ReadFileNotFound => inl FileNotFound
                    | ReadJSONDecodeError => inl JSONDecodeError
                    | ReadRaises x => inl (Raised x)
                    end) in *.
    destruct attempt as [why|[merged lvl]].
    + cbn. split; [reflexivity|]. split; [reflexivity|].
      exists (handler config_file why).
      split; [now rewrite <- app_assoc | apply handler_is_error].
    + exfalso. apply (Hnot merged).
      now destruct (logging_level lvl).
Qed.

(** X14: the configuration returned is the file's object laid over the
    defaults: every key of the file keeps the file's value, every other
    key has its default value, except that base_url, from the file or the
    default, has lost all its trailing slashes and nothing else. *)
Theorem load_config_merges (w : files) (config_file : string) (st : logging)
  (merged : dict) :
  (load_config w config_file st).1 = Loaded merged ->
  exists config base_url,
    read_config w config_file = ReadObject config /\
    (forall key, key <> "base_url" ->
       merged !! key = match config !! key with
                       | Some v => Some v
                       | None => DEFAULT_CONFIG !! key
                       end) /\
    match config !! "base_url" with
    | Some v => v
    | None => JString "https://app.nixplay.com"
    end = JString base_url /\
    merged !! "base_url" = Some (JString (rstrip "/" base_url)) /\
    ends_with_sep (rstrip "/" base_url) = false /\
    exists tail,
      base_url = rstrip "/" base_url +:+ tail /\ rstrip "/" tail = "".
Proof.
  intros Hm.
  apply load_config_loaded in Hm as (config & lvl & Hread & Hchk).
  apply merge_and_check_inr in Hchk as (_ & s & h & l & Hs & _ & _ & -> & _).
  exists config, s. split; [assumption|]. split.
  { intros key Hne. rewrite lookup_insert_ne by congruence.
    apply merged_lookup. }
  split.
  { rewrite merged_lookup, default_base_url in Hs.
    destruct (config !! "base_url"); congruence. }
  split; [apply lookup_insert_eq|].
  split; [apply rstrip_no_trailing_slash | apply rstrip_prefix].
Qed.

(** X15: the required keys are checked before anything else in the file,
    in the order username, password, photos_directory: when one is
    missing and those before it are present, [load_config] logs the
    missing key at ERROR level and ends the program with status 1,
    whatever else the file holds. *)
Theorem load_config_names_first_missing_key (w : files)
  (config_file : string) (st : logging) (config : dict)
  (before after : list string) (key : string) :
  read_config w config_file = ReadObject config ->
  REQUIRED_KEYS = before ++ key :: after ->
  (forall k, k ∈ before -> is_Some (config !! k)) ->
  config !! key = None ->
  load_config w config_file st
  = (Exit 1,
     log_config st
       [ LoadingConfigFile (basename (abspath w config_file))
           (abspath w config_file);
         ConfigFileError (MissingRequiredKey key) ]) /\
  config_level (ConfigFileError (MissingRequiredKey key)) = ERROR.
Proof.
  intros Hread Hsplit Hbefore Hkey. split; [|reflexivity].
  assert (Hfirst : first_missing config = Some key).
  { unfold first_missing. rewrite Hsplit. clear Hsplit.
    induction before as [|k before IH]; cbn [app find].
    - rewrite Hkey. rewrite bool_decide_eq_false_2; [reflexivity|].
      intros [v Hv]. discriminate.
    - rewrite bool_decide_eq_true_2
        by (apply Hbefore; constructor).
      cbn [negb]. apply IH. intros k' Hk'. apply Hbefore.
      now apply elem_of_cons; right. }
  unfold load_config. rewrite Hread. unfold merge_and_check.
  rewrite Hfirst. unfold log_config. cbn. now rewrite <- app_assoc.
Qed.

(** X16: the level name is read without regard to letter case.  For a
    name in ASCII: a name of the logging module (CRITICAL, FATAL, ERROR,
    WARNING, WARN, INFO, DEBUG, NOTSET), in capital or small letters,
    sets the logger to that level; any other name sets it to INFO after a
    WARNING record, and the program goes on. *)
Theorem load_config_sets_level (w : files) (config_file : string)
  (st : logging) (merged : dict) (level : string) :
  (load_config w config_file st).1 = Loaded merged ->
  merged !! "log_level" = Some (JString level) ->
  isascii level = true ->
  let after := (load_config w config_file st).2 in
  let loading :=
    LoadingConfigFile (basename (abspath w config_file))
      (abspath w config_file) in
  match logging_level (upper level) with
  | Some numeric_level =>
      (upper level, numeric_level) ∈ level_names /\
      logger_level after = numeric_level /\
      config_log after
      = config_log st ++ [loading; LogLevelSetTo (upper level)]
  | None =>
      (upper level ∉ level_names.*1) /\
      logger_level after = logging_INFO /\
      config_log after
      = config_log st
        ++ [loading; InvalidLogLevel (upper level);
            LogLevelSetTo (upper level)] /\
      config_level (InvalidLogLevel (upper level)) = WARNING
  end.
Proof.
  intros Hm Hlevel _ after loading.
  pose proof Hm as Hm'.
  apply load_config_loaded in Hm' as (config & lvl & Hread & Hchk).
  pose proof Hchk as Hchk'.
  apply merge_and_check_inr in Hchk'
    as (_ & s & h & l & _ & _ & Hl & -> & ->).
  rewrite lookup_insert_ne in Hlevel by discriminate.
  assert (l = level) as -> by congruence.
  subst after loading. unfold load_config. rewrite Hread, Hchk.
  destruct (logging_level (upper level)) as [n|] eqn:E; cbn;
    rewrite <- app_assoc.
  - split; [|split; reflexivity].
    apply logging_level_in. exact E.
  - split; [|repeat split].
    apply logging_level_not_in. exact E.
Qed.

(** X17: a configuration that [load_config] returns has every key that
    [main] reads from it, with a boolean under headless and strings under
    base_url and log_level. *)
Theorem load_config_provides_every_key (w : files) (config_file : string)
  (st : logging) (merged : dict) :
  (load_config w config_file st).1 = Loaded merged ->
  (forall key, key ∈ keys_read_by_main -> is_Some (merged !! key)) /\
  (exists h, merged !! "headless" = Some (JBool h)) /\
  (exists s, merged !! "base_url" = Some (JString s)) /\
  (exists s, merged !! "log_level" = Some (JString s)).
Proof.
  intros Hm.
  apply load_config_loaded in Hm as (config & lvl & Hread & Hchk).
  apply merge_and_check_inr in Hchk
    as (Hreq & s & h & l & _ & Hh & Hl & -> & _).
  pose proof (proj1 (first_missing_none config) Hreq) as Hreq'.
  split; [|split; [|split]].
  - intros key Hkey.
    destruct (decide (key = "base_url")) as [->|Hne].
    { rewrite lookup_insert_eq. eauto. }
    rewrite lookup_insert_ne by congruence. rewrite merged_lookup.
    destruct (config !! key) as [v|] eqn:E; [eauto|].
    unfold keys_read_by_main in Hkey.
    repeat (apply elem_of_cons in Hkey as [->|Hkey]);
      try (vm_compute; eauto; fail);
      try (exfalso;
           match goal with
           | E : config !! ?k = None |- _ =>
               destruct (Hreq' k) as [v Hv];
               [unfold REQUIRED_KEYS; set_solver | congruence]
           end).
  - exists h. now rewrite lookup_insert_ne by discriminate.
  - eexists. apply lookup_insert_eq.
  - exists l. now rewrite lookup_insert_ne by discriminate.
Qed.

(** No file at all. *)
Lemma load_config_returns_iff_witness :
  (load_config (ConfigSamples.disk ReadFileNotFound) "config.json"
     ConfigSamples.quiet).1 = Exit 1.
Proof.
  destruct (load_config_returns_iff (ConfigSamples.disk ReadFileNotFound)
              "config.json" ConfigSamples.quiet) as [_ H].
  apply H. intros merged Hm. discriminate.
Defined.

(** The sample file loads. *)
Lemma load_config_merges_witness :
  exists merged,
    (load_config (ConfigSamples.disk (ReadObject ConfigSamples.minimal))
       "config.json" ConfigSamples.quiet).1 = Loaded merged /\
    merged !! "base_url" = Some (JString "https://app.nixplay.com") /\
    merged !! "batch_size" = Some (JInt 100) /\
    merged !! "username" = Some (JString "ann").
Proof.
  destruct (load_config (ConfigSamples.disk (ReadObject ConfigSamples.minimal))
              "config.json" ConfigSamples.quiet) as [out st] eqn:Hrun.
  assert (Hout : exists merged, out = Loaded merged).
  { apply (f_equal fst) in Hrun. cbn [fst] in Hrun. rewrite <- Hrun.
    eexists. reflexivity. }
  destruct Hout as [merged ->]. exists merged. split; [reflexivity|].
  destruct (load_config_merges
              (ConfigSamples.disk (ReadObject ConfigSamples.minimal))
              "config.json" ConfigSamples.quiet merged)
    as (config & base_url & Hread & Hother & Hbase & Hurl & _).
  { now rewrite Hrun. }
  injection Hread as <-.
  assert (Eb : base_url = "https://app.nixplay.com//").
  { vm_compute in Hbase. congruence. }
  subst base_url. split; [exact Hurl|].
  split; [now rewrite (Hother "batch_size") by discriminate|].
  now rewrite (Hother "username") by discriminate.
Defined.

(** A file without password. *)
Lemma load_config_names_first_missing_key_witness :
  (load_config
     (ConfigSamples.disk
        (ReadObject (delete "password" ConfigSamples.minimal)))
     "config.json" ConfigSamples.quiet).1 = Exit 1.
Proof.
  destruct (load_config_names_first_missing_key
              (ConfigSamples.disk
                 (ReadObject (delete "password" ConfigSamples.minimal)))
              "config.json" ConfigSamples.quiet
              (delete "password" ConfigSamples.minimal)
              ["username"] ["photos_directory"] "password"
              eq_refl eq_refl) as [H _].
  - intros k Hk. apply list_elem_of_singleton in Hk as ->.
    vm_compute. eauto.
  - vm_compute. reflexivity.
  - now rewrite H.
Defined.

(** The sample file asks for the level "debug". *)
Lemma load_config_sets_level_witness :
  logger_level
    (load_config (ConfigSamples.disk (ReadObject ConfigSamples.minimal))
       "config.json" ConfigSamples.quiet).2 = 10.
Proof.
  pose proof (load_config_sets_level
                (ConfigSamples.disk (ReadObject ConfigSamples.minimal))
                "config.json" ConfigSamples.quiet
                (<["base_url" := JString "https://app.nixplay.com"]>
                   (ConfigSamples.minimal ∪ DEFAULT_CONFIG))
                "debug" eq_refl) as H.
  cbn zeta in H.
  change (logging_level (upper "debug")) with (Some 10) in H.
  apply H; vm_compute; reflexivity.
Defined.

(** The sample file gives no batch size: the default is there. *)
Lemma load_config_provides_every_key_witness :
  exists merged,
    (load_config (ConfigSamples.disk (ReadObject ConfigSamples.minimal))
       "config.json" ConfigSamples.quiet).1 = Loaded merged /\
    is_Some (merged !! "batch_size").
Proof.
  destruct (load_config (ConfigSamples.disk (ReadObject ConfigSamples.minimal))
              "config.json" ConfigSamples.quiet) as [out st] eqn:Hrun.
  assert (Hout : exists merged, out = Loaded merged).
  { apply (f_equal fst) in Hrun. cbn [fst] in Hrun. rewrite <- Hrun.
    eexists. reflexivity. }
  destruct Hout as [merged ->]. exists merged. split; [reflexivity|].
  destruct (load_config_provides_every_key
              (ConfigSamples.disk (ReadObject ConfigSamples.minimal))
              "config.json" ConfigSamples.quiet merged) as [Hall _].
  { now rewrite Hrun. }
  apply Hall. unfold keys_read_by_main. set_solver.
Defined.

End ConfigProperties.

(** ** Fonts, coordinates and colours of the caption *)

Module CaptionProperties.
Import Float64 Float64Facts Paths Imaging World Metadata Caption Transformer.
Import Pipeline MetadataFacts SelectorFacts PipelineFacts Geocoding Samples.
Local Open Scope string_scope.
Local Open Scope list_scope.
Local Open Scope Z_scope.

Lemma omap_all_none {A B : Type} (f : A -> option B) (l : list A) :
  (forall a, f a = None) -> omap f l = [].
Proof.
  intros H. induction l as [|a l IH]; [reflexivity|].
  cbn. now rewrite H.
Qed.

(** With a font file that exists and does not load, the rendering of
    every image raises. *)
Lemma unloadable_font_raises (e : env) (img : photo)
  (target_width target_height : Z) (o : options) (fp : string) (x : exn) :
  caption o = true -> font_path o = Some fp -> fp <> "" ->
  path_exists e fp = true ->
  truetype e fp (font_size o) = Raise x ->
  exists y, render e img target_width target_height o = Raise y.
Proof.
  intros Hcap Hfp Hne Hex Htt. unfold render.
  destruct (pil_open img) as [[w h]|y]; [|eauto]. cbn [mbind result_bind].
  destruct (resize_dims w h target_width target_height) as [[nw nh]|y];
    [|eauto].
  cbn [mbind result_bind].
  destruct (pil_resize img nw nh) as [resized|y]; [|eauto].
  cbn [mbind result_bind]. rewrite Hcap. unfold add_caption.
  destruct (pixel_average e _) as [avg|y]; [|eauto].
  cbn [mbind result_bind]. unfold load_font. rewrite Hfp.
  apply String.eqb_neq in Hne. rewrite Hne, Hex. cbn [negb andb].
  rewrite Htt. cbn. eauto.
Qed.

(** X18: when captions are on and the configured font file exists but
    cannot be loaded, every image fails in its processing and
    [get_image_files] returns no path at all, whatever the candidates;
    each call returns None after a WARNING record. *)
Theorem unloadable_font_returns_nothing (e : env) (image_files : list photo)
  (draws : list nat) (max_file_size_mb max_photos : Z)
  (target_width target_height : Z) (o : options) (fp : string) (x : exn) :
  caption o = true -> font_path o = Some fp -> fp <> "" ->
  path_exists e fp = true ->
  truetype e fp (font_size o) = Raise x ->
  0 <= max_photos ->
  (get_image_files e image_files draws max_file_size_mb max_photos
     target_width target_height o).1 = Returned [] /\
  forall img temp_dir max_file_size st,
    exists y records,
      image_resize_and_add_caption e img temp_dir target_width target_height
        max_file_size o st
      = (None, logger st (records ++ [ErrorProcessingImage (image_path img) y]))
      /\ level_of (ErrorProcessingImage (image_path img) y) = WARNING.
Proof.
  intros Hcap Hfp Hne Hex Htt Hmax. split.
  - destruct (get_image_files_spec e image_files draws max_file_size_mb
                max_photos target_width target_height o Hmax)
      as (selected_images & record & st & _ & Hrun & _).
    rewrite Hrun. cbn [fst]. f_equal. apply omap_all_none. intros img.
    destruct (unloadable_font_raises e img target_width target_height o fp x
                Hcap Hfp Hne Hex Htt) as [y Hy].
    unfold accepted_path, judge. now rewrite Hy.
  - intros img temp_dir max_file_size st.
    destruct (unloadable_font_raises e img target_width target_height o fp x
                Hcap Hfp Hne Hex Htt) as [y Hy].
    exists y, []. split; [|reflexivity].
    unfold image_resize_and_add_caption. now rewrite Hy.
Qed.

(** Two readable files, and a font that does not load. *)
Lemma unloadable_font_returns_nothing_witness :
  (get_image_files CaptionSamples.broken_font_world [small_x; garbled] [] 3
     500 64 40 CaptionSamples.with_fancy_font).1 = Returned [].
Proof.
  destruct (unloadable_font_returns_nothing CaptionSamples.broken_font_world
              [small_x; garbled] [] 3 500 64 40
              CaptionSamples.with_fancy_font "fonts/fancy.ttf" OSError
              eq_refl eq_refl ltac:(discriminate) eq_refl eq_refl
              ltac:(lia)) as [H _].
  exact H.
Defined.

(** *** Coordinates *)

(** X19: when the GPS directory of the EXIF data lacks the latitude or
    the longitude, [_get_gps_coordinates] returns None and logs nothing,
    whatever the other tags and the hemisphere references are. *)
Theorem missing_coordinate_gives_none (img : photo) (exif : exif_dict)
  (gps : list (Z * gps_value)) :
  getexif img = Ok (Some exif) ->
  NoDup exif.*1 -> NoDup gps.*1 ->
  dict_get Z.eqb GPSInfo exif = Some (ExifIFD gps) ->
  dict_get Z.eqb GPSLatitude gps = None \/
  dict_get Z.eqb GPSLongitude gps = None ->
  _get_gps_coordinates img = (None, []).
Proof.
  intros Hexif Hnd1 Hnd2 Hinfo Hmiss.
  pose proof (scan_gps_lookup gps no_gps_tags Hnd2) as Hscan.
  cbn zeta in Hscan. destruct Hscan as (S1 & _ & S3 & _).
  unfold _get_gps_coordinates, gps_body. rewrite Hexif.
  cbn [mbind result_bind].
  destruct exif as [|kv exif']; [discriminate|].
  rewrite (scan_exif_lookup _ gps no_gps_tags Hnd1 Hinfo).
  cbn [mbind result_bind]. rewrite S1, S3.
  destruct Hmiss as [H|H]; rewrite H; cbn.
  - reflexivity.
  - now destruct (dict_get Z.eqb GPSLatitude gps).
Qed.

Lemma missing_coordinate_gives_none_witness :
  _get_gps_coordinates
    (snapshot "trip/IMG_0002.jpg" 4032 3024 900000
       (Ok (Some CaptionSamples.exif_without_longitude)))
  = (None, []).
Proof.
  apply (missing_coordinate_gives_none _
           CaptionSamples.exif_without_longitude
           [ (1, GpsText "N"); (2, GpsRationals [40 # 1; 26 # 1; 46 # 1]%Q) ]).
  - reflexivity.
  - apply (bool_decide_unpack (NoDup _)). vm_compute. exact I.
  - apply (bool_decide_unpack (NoDup _)). vm_compute. exact I.
  - reflexivity.
  - right. reflexivity.
Defined.

(** X20: an image for which no coordinates are found never reaches the
    geocoder: its rendering is the same whatever the import of geopy and
    the reverse lookup would do, and its caption is the date line
    alone. *)
Theorem no_coordinates_no_geocoding (e : env) (img : photo)
  (target_width target_height : Z) (o : options) :
  (_get_gps_coordinates img).1 = None ->
  (forall import answer,
     render (with_geocoder e import answer) img target_width target_height o
     = render e img target_width target_height o) /\
  (forall resized_img new_width new_height cap records,
     add_caption e img resized_img new_width new_height (date_format o)
       (caption_position o) (font_size o) (font_path o) = Ok (cap, records) ->
     exists date_text, text_lines cap = [date_text]).
Proof.
  intros Hnone. split.
  - intros import answer.
    assert (Hadd : forall resized_img new_width new_height,
              add_caption (with_geocoder e import answer) img resized_img
                new_width new_height (date_format o) (caption_position o)
                (font_size o) (font_path o)
              = add_caption e img resized_img new_width new_height
                  (date_format o) (caption_position o) (font_size o)
                  (font_path o)).
    { intros resized_img new_width new_height.
      unfold add_caption, load_font, capture_time.
      cbn [with_geocoder pixel_average truetype path_exists strptime
           strftime].
      destruct (_get_gps_coordinates img) as [[c|] log1];
        [discriminate | reflexivity]. }
    unfold render.
    destruct (pil_open img) as [[w h]|y]; [|reflexivity].
    cbn [mbind result_bind].
    destruct (resize_dims w h target_width target_height) as [[nw nh]|y];
      [|reflexivity].
    cbn [mbind result_bind].
    destruct (pil_resize img nw nh) as [resized|y]; [|reflexivity].
    cbn [mbind result_bind]. now rewrite Hadd.
  - intros resized_img new_width new_height cap records Hcap.
    destruct (CaptionFacts.add_caption_inv _ _ _ _ _ _ _ _ _ _ _ Hcap)
      as (_ & _ & _ & date_obj & date_text & _ & _ & Hlines).
    cbn zeta in Hlines. rewrite Hnone in Hlines. eauto.
Qed.

Lemma no_coordinates_no_geocoding_witness :
  render (with_geocoder (world GeoNone) (Raise ImportError)
            (fun _ => GeoRaises RuntimeError))
    (snapshot "trip/IMG_0002.jpg" 4032 3024 900000
       (Ok (Some CaptionSamples.exif_without_longitude))) 1280 800 defaults
  = render (world GeoNone)
      (snapshot "trip/IMG_0002.jpg" 4032 3024 900000
         (Ok (Some CaptionSamples.exif_without_longitude))) 1280 800 defaults.
Proof.
  destruct (no_coordinates_no_geocoding (world GeoNone)
              (snapshot "trip/IMG_0002.jpg" 4032 3024 900000
                 (Ok (Some CaptionSamples.exif_without_longitude)))
              1280 800 defaults eq_refl) as [H _].
  apply H.
Defined.

(** *** The colour rule *)

Lemma round64_nonneg (x : Q) : (0 <= x -> 0 <= round64 x)%Q.
Proof.
  intros Hx. destruct (round64_error_nonneg x Hx) as [H _].
  unfold u in H. nra.
Qed.

Lemma round64_mono_nonneg (x y : Q) :
  (0 <= x -> x <= y -> round64 x <= round64 y)%Q.
Proof.
  intros Hx Hxy. destruct (Qlt_le_dec 0 x) as [Hpos|Hle].
  - now apply round64_mono.
  - assert (E : (x == 0)%Q) by lra.
    assert (Hn : Qnum x = 0) by (unfold Qeq in E; simpl in E; lia).
    unfold round64 at 1. rewrite Hn. apply round64_nonneg. lra.
Qed.

Lemma of_int_mono (a b : Z) :
  0 <= a <= b -> (0 <= of_int a <= of_int b)%Q.
Proof.
  intros [Ha Hab]. unfold of_int.
  assert (H0 : (0 <= inject_Z a)%Q) by (rewrite <- (Zle_Qle 0); lia).
  assert (H1 : (inject_Z a <= inject_Z b)%Q) by (rewrite <- Zle_Qle; lia).
  split; [now apply round64_nonneg | now apply round64_mono_nonneg].
Qed.

Lemma weighted_mono (n : Z) (d : positive) (a b : Z) :
  0 < n -> 0 <= a <= b ->
  (0 <= fmul (literal n d) (of_int a) <= fmul (literal n d) (of_int b))%Q.
Proof.
  intros Hn Hab. destruct (of_int_mono a b Hab) as [H0 H1].
  assert (Hc : (0 < literal n d)%Q).
  { unfold literal. apply round64_pos. unfold Qlt. simpl. lia. }
  unfold fmul.
  assert (P0 : (0 <= literal n d * of_int a)%Q) by nra.
  assert (P1 : (literal n d * of_int a <= literal n d * of_int b)%Q) by nra.
  split; [now apply round64_nonneg | now apply round64_mono_nonneg].
Qed.

(** The luminance does not decrease when a channel grows. *)
Lemma luminance_mono (r g b r' g' b' : Z) :
  0 <= r <= r' -> 0 <= g <= g' -> 0 <= b <= b' ->
  (luminance (r, g, b) <= luminance (r', g', b'))%Q.
Proof.
  intros Hr Hg Hb. unfold luminance.
  destruct (weighted_mono 299 1000 r r' ltac:(lia) Hr) as [R0 R1].
  destruct (weighted_mono 587 1000 g g' ltac:(lia) Hg) as [G0 G1].
  destruct (weighted_mono 114 1000 b b' ltac:(lia) Hb) as [B0 B1].
  set (wr := fmul (literal 299 1000) (of_int r)) in *.
  set (wr' := fmul (literal 299 1000) (of_int r')) in *.
  set (wg := fmul (literal 587 1000) (of_int g)) in *.
  set (wg' := fmul (literal 587 1000) (of_int g')) in *.
  set (wb := fmul (literal 114 1000) (of_int b)) in *.
  set (wb' := fmul (literal 114 1000) (of_int b')) in *.
  unfold fadd.
  assert (S0 : (0 <= round64 (wr + wg))%Q) by (apply round64_nonneg; lra).
  assert (S1 : (round64 (wr + wg) <= round64 (wr' + wg'))%Q)
    by (apply round64_mono_nonneg; lra).
  set (s := round64 (wr + wg)) in *. set (s' := round64 (wr' + wg')) in *.
  assert (T0 : (0 <= round64 (s + wb))%Q) by (apply round64_nonneg; lra).
  assert (T1 : (round64 (s + wb) <= round64 (s' + wb'))%Q)
    by (apply round64_mono_nonneg; lra).
  set (t := round64 (s + wb)) in *. set (t' := round64 (s' + wb')) in *.
  assert (E : (of_int 255 == 255)%Q) by (apply (round64_int 255); lia).
  apply round64_mono_nonneg.
  - rewrite E. apply Qle_shift_div_l; lra.
  - rewrite E. unfold Qdiv. apply Qmult_le_compat_r; [assumption|].
    discriminate.
Qed.

(** X21: the colour rule is monotone: when no channel of the sampled
    colour decreases, black text stays black (and white text comes only
    from white text); on a gray background the text is black exactly
    from level 128 up. *)
Theorem text_color_monotone (r g b r' g' b' : Z) :
  0 <= r <= r' -> 0 <= g <= g' -> 0 <= b <= b' ->
  r' <= 255 -> g' <= 255 -> b' <= 255 ->
  (text_color_for (r, g, b) = black -> text_color_for (r', g', b') = black) /\
  (text_color_for (r', g', b') = white -> text_color_for (r, g, b) = white) /\
  (r = g -> g = b -> (text_color_for (r, g, b) = black <-> 128 <= r)).
Proof.
  intros Hr Hg Hb _ _ _.
  assert (Hmono : forall a1 a2 a3 c1 c2 c3 : Z,
            0 <= a1 <= c1 -> 0 <= a2 <= c2 -> 0 <= a3 <= c3 ->
            text_color_for (a1, a2, a3) = black ->
            text_color_for (c1, c2, c3) = black).
  { intros a1 a2 a3 c1 c2 c3 H1 H2 H3.
    pose proof (luminance_mono a1 a2 a3 c1 c2 c3 H1 H2 H3) as Hl.
    unfold text_color_for, gtb.
    destruct (Qle_bool (luminance (a1, a2, a3)) (literal 1 2)) eqn:Ea;
      cbn [negb]; [discriminate|]. intros _.
    destruct (Qle_bool (luminance (c1, c2, c3)) (literal 1 2)) eqn:Ec;
      cbn [negb]; [|reflexivity].
    apply Qle_bool_iff in Ec.
    assert (Ha : Qle_bool (luminance (a1, a2, a3)) (literal 1 2) = true)
      by (apply Qle_bool_iff; lra).
    congruence. }
  assert (Htwo : forall a1 a2 a3 : Z,
            text_color_for (a1, a2, a3) = black \/
            text_color_for (a1, a2, a3) = white).
  { intros a1 a2 a3. unfold text_color_for.
    destruct (gtb _ _); [now left | now right]. }
  split; [now apply Hmono|]. split.
  - intros Hw. destruct (Htwo r g b) as [Hk|Hk]; [|assumption].
    rewrite (Hmono r g b r' g' b' Hr Hg Hb Hk) in Hw. discriminate.
  - intros <- <-. split.
    + intros Hk.
      destruct (Z.le_gt_cases 128 r) as [?|Hlt]; [assumption|exfalso].
      assert (H127 : text_color_for (127, 127, 127) = black)
        by (apply (Hmono r r r); [lia..|assumption]).
      vm_compute in H127. discriminate.
    + intros Hge. apply (Hmono 128 128 128); [lia..|].
      vm_compute. reflexivity.
Qed.

Lemma text_color_monotone_witness :
  text_color_for (200, 200, 200) = black.
Proof.
  destruct (text_color_monotone 200 200 200 200 200 200
              ltac:(lia) ltac:(lia) ltac:(lia)
              ltac:(lia) ltac:(lia) ltac:(lia)) as (_ & _ & H).
  apply (H eq_refl eq_refl). lia.
Defined.

End CaptionProperties.

(** ** Cleaning up *)

Module HousekeepingProperties.
Import Housekeeping.
Local Open Scope string_scope.
Local Open Scope list_scope.

(** What is left after the cleanup. *)
Lemma cleanup_existing (rmtree : string -> result unit)
  (temp_directories : list string) :
  forall (st : disk) (d : string),
    d ∈ existing (cleanup_temp_files rmtree temp_directories st) <->
    d ∈ existing st /\
    ~ (d ∈ temp_directories /\ exists u, rmtree d = Ok u).
Proof.
  induction temp_directories as [|temp_dir rest IH]; intros st d.
  - cbn. split; [|tauto]. intros H. split; [assumption|].
    intros [Hin _]. now apply elem_of_nil in Hin.
  - cbn [cleanup_temp_files]. rewrite IH. clear IH.
    rewrite elem_of_cons.
    destruct (decide (temp_dir ∈ existing st)) as [Hex|Hex].
    + rewrite bool_decide_eq_true_2 by assumption.
      destruct (rmtree temp_dir) as [u|x] eqn:Hrm; cbn [existing].
      * rewrite elem_of_difference, elem_of_singleton.
        split.
        -- intros [[Hd Hne] Hrest]. split; [assumption|].
           intros [[->|Hin] Hok]; [congruence | tauto].
        -- intros [Hd Hnot]. split; [split; [assumption|]|].
           ++ intros ->. apply Hnot. split; [now left | eauto].
           ++ intros [Hin Hok]. apply Hnot. split; [now right | assumption].
      * split.
        -- intros [Hd Hrest]. split; [assumption|].
           intros [[->|Hin] [u Hok]]; [congruence|].
           apply Hrest. eauto.
        -- intros [Hd Hnot]. split; [assumption|].
           intros [Hin Hok]. apply Hnot. split; [now right | assumption].
    + rewrite bool_decide_eq_false_2 by assumption.
      split.
      * intros [Hd Hrest]. split; [assumption|].
        intros [[->|Hin] Hok]; [contradiction | tauto].
      * intros [Hd Hnot]. split; [assumption|].
        intros [Hin Hok]. apply Hnot. split; [now right | assumption].
Qed.

(** The log only grows. *)
Lemma cleanup_log_grows (rmtree : string -> result unit)
  (temp_directories : list string) :
  forall (st : disk) (r : cleanup_record),
    r ∈ cleanup_log st ->
    r ∈ cleanup_log (cleanup_temp_files rmtree temp_directories st).
Proof.
  induction temp_directories as [|temp_dir rest IH]; intros st r Hr.
  - exact Hr.
  - cbn [cleanup_temp_files]. apply IH.
    destruct (bool_decide (temp_dir ∈ existing st)); [|exact Hr].
    destruct (rmtree temp_dir); cbn [cleanup_log];
      apply elem_of_app; now left.
Qed.

Lemma cleanup_logs_failures (rmtree : string -> result unit)
  (temp_directories : list string) :
  forall (st : disk) (d : string) (x : exn),
    d ∈ temp_directories -> d ∈ existing st -> rmtree d = Raise x ->
    FailedToCleanUp d x
    ∈ cleanup_log (cleanup_temp_files rmtree temp_directories st).
Proof.
  induction temp_directories as [|temp_dir rest IH];
    intros st d x Hin Hex Hrm.
  - now apply elem_of_nil in Hin.
  - cbn [cleanup_temp_files].
    destruct (decide (d = temp_dir)) as [<-|Hne].
    + apply cleanup_log_grows.
      rewrite bool_decide_eq_true_2 by assumption. rewrite Hrm.
      cbn [cleanup_log]. apply elem_of_app. right.
      apply elem_of_cons. right. constructor.
    + apply elem_of_cons in Hin as [->|Hin]; [contradiction|].
      apply IH; [assumption| |assumption].
      destruct (bool_decide (temp_dir ∈ existing st)); [|exact Hex].
      destruct (rmtree temp_dir); cbn [existing]; [|exact Hex].
      apply elem_of_difference. split; [exact Hex|].
      intros H. apply elem_of_singleton in H. contradiction.
Qed.

(** X22: [cleanup_temp_files] removes exactly the temporary directories
    of its list that exist and that [shutil.rmtree] manages to remove.  A
    directory whose removal raises stays, the failure is logged at ERROR
    level, and it does not keep the later directories from being
    removed. *)
Theorem cleanup_removes_what_it_can (rmtree : string -> result unit)
  (temp_directories : list string) (st : disk) :
  let after := cleanup_temp_files rmtree temp_directories st in
  (forall d,
     d ∈ existing after <->
     d ∈ existing st /\
     ~ (d ∈ temp_directories /\ exists u, rmtree d = Ok u)) /\
  (forall d x,
     d ∈ temp_directories -> d ∈ existing st -> rmtree d = Raise x ->
     FailedToCleanUp d x ∈ cleanup_log after /\
     cleanup_level (FailedToCleanUp d x) = ERROR).
Proof.
  intros after. split; [apply cleanup_existing|].
  intros d x Hin Hex Hrm. split; [|reflexivity].
  now apply cleanup_logs_failures.
Qed.

(** The first directory cannot be removed: it stays, the failure is
    logged, and the second one goes all the same. *)
Lemma cleanup_removes_what_it_can_witness :
  let after :=
    cleanup_temp_files HousekeepingSamples.stubborn
      ["/tmp/nix_upload_temp_a"; "/tmp/nix_upload_temp_b"]
      HousekeepingSamples.two_left in
  ("/tmp/nix_upload_temp_a" ∈ existing after) /\
  ("/tmp/nix_upload_temp_b" ∉ existing after) /\
  (FailedToCleanUp "/tmp/nix_upload_temp_a" OSError ∈ cleanup_log after).
Proof.
  intros after.
  destruct (cleanup_removes_what_it_can HousekeepingSamples.stubborn
              ["/tmp/nix_upload_temp_a"; "/tmp/nix_upload_temp_b"]
              HousekeepingSamples.two_left) as [H Hlog].
  fold after in H, Hlog. split; [|split].
  - apply H. split.
    + apply (bool_decide_unpack _). vm_compute. exact I.
    + intros [_ [u Hu]]. discriminate.
  - intros Hin. apply H in Hin as [_ Hnot]. apply Hnot.
    split; [|now exists tt]. right. left.
  - apply Hlog; [left | | reflexivity].
    apply (bool_decide_unpack _). vm_compute. exact I.
Defined.

End HousekeepingProperties.
